(** * The Aseprite decoder of [aseprite/aseprite.go], embedded in Rocq

    The Go package decodes the Aseprite container: a file header, a sequence
    of frames, and in each frame a sequence of typed chunks.  The functions
    below follow the Go source function by function and keep its names.

    Conventions of the embedding
    - [uint16], [uint32], [int16] and [int] values are integers in [Z]; the
      wrap-around of the fixed-width types is written out where the source
      computes with them.  Go's [int] is taken to be 64 bits wide.
    - [uint8] values and the elements of [[]byte] are [byte]s.
    - a [*bytes.Reader] is the pair of its slice and its read position; a
      function that reads from it takes the reader and returns the advanced
      one.  Every caller in the package returns as soon as a read fails, so
      the position after a failed read is never observed and is not kept.
    - Go's [error] values are the constructors of [error].
    - [make] always returns the slice it is asked for: running out of
      memory is not part of the model. *)

From Stdlib Require Import ZArith List Lia String Bool.
From coqutil Require Import Byte Word.LittleEndianList.
From stdpp Require Import base list.
Import ListNotations.
Local Open Scope Z_scope.

(** ** Errors and results *)

Inductive error : Type :=
| EOF                                   (* io.EOF *)
| ErrUnexpectedEOF                      (* io.ErrUnexpectedEOF *)
| ErrZlib (code : Z)                    (* any error of compress/zlib *)
| ErrReadHeader (e : error)             (* "failed to read header: %w" *)
| ErrInvalidMagic (magic : Z)           (* "invalid magic number: %x" *)
| ErrReadFrame (i : Z) (e : error)      (* "failed to read frame %d: %w" *)
| ErrReadChunk (i : Z) (e : error)      (* "failed to read chunk %d: %w" *)
| ErrFrameIndex (frameIndex : Z)        (* "frame index %d out of range" *)
| ErrUnsupportedCel (celType : Z)       (* "unsupported cel type: %d" *)
| ErrNoPixelData.                       (* "no pixel data" *)

Inductive result (A : Type) : Type :=
| Ok (a : A)
| Err (e : error).
Arguments Ok {A} a.
Arguments Err {A} e.

Definition is_ok {A} (r : result A) : bool :=
  match r with Ok _ => true | Err _ => false end.

Definition bind {A B} (m : result A) (k : A -> result B) : result B :=
  match m with
  | Ok a => k a
  | Err e => Err e
  end.

Notation "'let*' p ':=' m 'in' k" := (bind m (fun p => k))
  (at level 10, p pattern, m at level 200, k at level 200).

(** A Go call either returns or panics with a run-time error. *)
Inductive outcome (A : Type) : Type :=
| Returns (r : result A)
| Panics.                               (* runtime error: index out of range *)
Arguments Returns {A} r.
Arguments Panics {A}.

(** ** Fixed-width integers *)

Definition uint8 (z : Z) : byte := byte.of_Z z.
Definition uint16 (z : Z) : Z := z mod 2 ^ 16.
Definition uint32 (z : Z) : Z := z mod 2 ^ 32.
Definition int16 (z : Z) : Z :=
  let u := z mod 2 ^ 16 in if u <? 2 ^ 15 then u else u - 2 ^ 16.
Definition len {A} (l : list A) : Z := Z.of_nat (length l).

(** [s[i]] for a Go [int] index: [None] stands for the index panic. *)
Definition index {A} (l : list A) (i : Z) : option A :=
  if i <? 0 then None else l !! Z.to_nat i.

(** ** bytes.Reader *)

Module Reader.
Record t : Type := mk { s : list byte; i : nat }.

Definition unread (r : t) : list byte := drop (i r) (s r).
(** [Len]: the number of unread bytes; [Size]: the length of the slice. *)
Definition Len (r : t) : Z := len (unread r).
Definition Size (r : t) : Z := len (s r).
Definition advance (n : nat) (r : t) : t := mk (s r) (i r + n).
End Reader.

Definition NewReader (data : list byte) : Reader.t := Reader.mk data 0.

(** [io.ReadFull(reader, buf)] with [len(buf) = n]: all [n] bytes or an
    error, [io.EOF] when nothing could be read and [io.ErrUnexpectedEOF]
    when the input ends inside the buffer.  A zero-length buffer is filled
    without touching the reader. *)
Definition ReadFull (n : Z) (r : Reader.t) : result (list byte * Reader.t) :=
  if n <=? Reader.Len r then
    Ok (take (Z.to_nat n) (Reader.unread r), Reader.advance (Z.to_nat n) r)
  else if Reader.Len r =? 0 then Err EOF
  else Err ErrUnexpectedEOF.

(** [reader.Read(make([]byte, n))] with the results dropped: the reader
    moves over the bytes that are there, at most [n], and no error is
    looked at. *)
Definition Read_discard (n : nat) (r : Reader.t) : Reader.t :=
  Reader.advance (Nat.min n (length (Reader.unread r))) r.

(** [binary.Read(reader, binary.LittleEndian, &v)] for the types of the
    package's fields. *)
Definition binary_Read (size : Z) (r : Reader.t) : result (Z * Reader.t) :=
  let* (bs, r) := ReadFull size r in Ok (le_combine bs, r).

Definition read_uint32 : Reader.t -> result (Z * Reader.t) := binary_Read 4.
Definition read_uint16 : Reader.t -> result (Z * Reader.t) := binary_Read 2.
Definition read_int16 (r : Reader.t) : result (Z * Reader.t) :=
  let* (v, r) := binary_Read 2 r in Ok (int16 v, r).
Definition read_uint8 (r : Reader.t) : result (byte * Reader.t) :=
  let* (bs, r) := ReadFull 1 r in Ok (hd Byte.x00 bs, r).
(** [&tag.Color], a [[3]uint8]: three bytes in order. *)
Definition read_array3 (r : Reader.t) : result (list byte * Reader.t) :=
  ReadFull 3 r.

(** ** The data model *)

Module Header.
Record t : Type := mk {
  FileSize : Z; MagicNumber : Z; Frames : Z; Width : Z; Height : Z;
  ColorDepth : Z; Flags : Z; Speed : Z; Transparent : byte; Colors : Z;
  PixelWidth : byte; PixelHeight : byte; GridX : Z; GridY : Z;
  GridWidth : Z; GridHeight : Z }.
End Header.

Module FrameHeader.
Record t : Type := mk {
  BytesInFrame : Z; MagicNumber : Z; OldChunks : Z; Duration : Z;
  NewChunks : Z }.
End FrameHeader.

Module Chunk.
Record t : Type := mk { Size : Z; Type_ : Z; Data : list byte }.
End Chunk.

Module Frame.
Record t : Type := mk { Header : FrameHeader.t; Chunks : list Chunk.t }.
End Frame.

Module Cel.
Record t : Type := mk {
  LayerIndex : Z; X : Z; Y : Z; Opacity : byte; Type_ : Z; ZIndex : Z;
  Width : Z; Height : Z; Pixels : list byte }.
End Cel.

Module Tag.
Record t : Type := mk {
  Name : string; FromFrame : Z; ToFrame : Z; Direction : byte;
  Repeat : Z; Color : list byte }.
End Tag.

Module File.
Record t : Type := mk {
  Header : Header.t; Frames : list Frame.t; Tags : list Tag.t }.
End File.

(** ** readHeader *)

Definition readHeader (reader : Reader.t) : result (Header.t * Reader.t) :=
  let* (fileSize, reader) := read_uint32 reader in
  let* (magicNumber, reader) := read_uint16 reader in
  let* (frames, reader) := read_uint16 reader in
  let* (width, reader) := read_uint16 reader in
  let* (height, reader) := read_uint16 reader in
  let* (colorDepth, reader) := read_uint16 reader in
  let* (flags, reader) := read_uint32 reader in
  let* (speed, reader) := read_uint16 reader in
  let reader := Read_discard 8 reader in
  let* (transparent, reader) := read_uint8 reader in
  let reader := Read_discard 3 reader in
  let* (colors, reader) := read_uint16 reader in
  let* (pixelWidth, reader) := read_uint8 reader in
  let* (pixelHeight, reader) := read_uint8 reader in
  let* (gridX, reader) := read_int16 reader in
  let* (gridY, reader) := read_int16 reader in
  let* (gridWidth, reader) := read_uint16 reader in
  let* (gridHeight, reader) := read_uint16 reader in
  let reader := Read_discard 84 reader in
  Ok (Header.mk fileSize magicNumber frames width height colorDepth flags
        speed transparent colors pixelWidth pixelHeight gridX gridY
        gridWidth gridHeight, reader).

(** ** readChunk and readFrame *)

Definition readChunk (reader : Reader.t) : result (Chunk.t * Reader.t) :=
  let* (size, reader) := read_uint32 reader in
  let* (type, reader) := read_uint16 reader in
  let dataSize := uint32 (size - 6) in
  let* (data, reader) := ReadFull dataSize reader in
  Ok (Chunk.mk size type data, reader).

(** The chunk loop of [readFrame]: [n] chunks are still to be read and the
    next one has index [i].  The counter is a [uint32] below [numChunks], so
    [i++] never wraps. *)
Fixpoint readChunks (n : nat) (i : Z) (reader : Reader.t)
  : result (list Chunk.t * Reader.t) :=
  match n with
  | O => Ok ([], reader)
  | S n =>
      match readChunk reader with
      | Err e => Err (ErrReadChunk i e)
      | Ok (chunk, reader) =>
          let* (chunks, reader) := readChunks n (i + 1) reader in
          Ok (chunk :: chunks, reader)
      end
  end.

Definition readFrameHeader (reader : Reader.t)
  : result (FrameHeader.t * Reader.t) :=
  let* (bytesInFrame, reader) := read_uint32 reader in
  let* (magicNumber, reader) := read_uint16 reader in
  let* (oldChunks, reader) := read_uint16 reader in
  let* (duration, reader) := read_uint16 reader in
  let reader := Read_discard 2 reader in
  let* (newChunks, reader) := read_uint32 reader in
  Ok (FrameHeader.mk bytesInFrame magicNumber oldChunks duration newChunks,
      reader).

(** [numChunks] as [readFrame] determines it from the frame header. *)
Definition numChunks (h : FrameHeader.t) : Z :=
  if FrameHeader.NewChunks h =? 0 then uint32 (FrameHeader.OldChunks h)
  else FrameHeader.NewChunks h.

Definition readFrame (reader : Reader.t) : result (Frame.t * Reader.t) :=
  let* (frameHeader, reader) := readFrameHeader reader in
  let* (chunks, reader) := readChunks (Z.to_nat (numChunks frameHeader)) 0 reader in
  Ok (Frame.mk frameHeader chunks, reader).

(** ** parseTagsChunk *)

(** The body of the tag loop: one tag record. *)
Definition readTag (reader : Reader.t) : result (Tag.t * Reader.t) :=
  let* (fromFrame, reader) := read_uint16 reader in
  let* (toFrame, reader) := read_uint16 reader in
  let* (direction, reader) := read_uint8 reader in
  let* (repeat, reader) := read_uint16 reader in
  let reader := Read_discard 6 reader in
  let* (color, reader) := read_array3 reader in
  let reader := Read_discard 1 reader in
  let* (nameLength, reader) := read_uint16 reader in
  let* (nameBytes, reader) := ReadFull nameLength reader in
  Ok (Tag.mk (string_of_list_byte nameBytes) fromFrame toFrame direction
        repeat color, reader).

(** The tag loop: [n] records are still to be read, [tags] holds the ones
    appended so far. *)
Fixpoint readTags (n : nat) (reader : Reader.t) (tags : list Tag.t)
  : result (list Tag.t) :=
  match n with
  | O => Ok tags
  | S n =>
      let* (tag, reader) := readTag reader in
      readTags n reader (tags ++ [tag])
  end.

Definition parseTagsChunk (data : list byte) : result (list Tag.t) :=
  let reader := NewReader data in
  let* (numTags, reader) := read_uint16 reader in
  let reader := Read_discard 8 reader in
  readTags (Z.to_nat numTags) reader [].

(** ** ParseFile *)

(** The body of the inner loop of [ParseFile]: the tags of a Tags chunk are
    appended when [parseTagsChunk] returns no error. *)
Definition collectTags (tags : list Tag.t) (chunk : Chunk.t) : list Tag.t :=
  if Chunk.Type_ chunk =? 0x2018 then
    match parseTagsChunk (Chunk.Data chunk) with
    | Ok found => tags ++ found
    | Err _ => tags
    end
  else tags.

(** The frame loop of [ParseFile]: [n] frames are still to be read and the
    next one has index [i].  [file.Frames] is filled from index 0 upwards,
    so the slots written so far are the list [File.Frames file]; the [nil]
    slots behind them are only ever seen by a caller when the loop has
    written all of them. *)
Fixpoint parseFrames (n : nat) (i : Z) (reader : Reader.t) (file : File.t)
  : result File.t :=
  match n with
  | O => Ok file
  | S n =>
      match readFrame reader with
      | Err e => Err (ErrReadFrame i e)
      | Ok (frame, reader) =>
          parseFrames n (i + 1) reader
            (File.mk (File.Header file) (File.Frames file ++ [frame])
               (fold_left collectTags (Frame.Chunks frame) (File.Tags file)))
      end
  end.

Definition ParseFile (data : list byte) : result File.t :=
  let reader := NewReader data in
  match readHeader reader with
  | Err e => Err (ErrReadHeader e)
  | Ok (header, reader) =>
      if negb (Header.MagicNumber header =? 0xA5E0) then
        Err (ErrInvalidMagic (Header.MagicNumber header))
      else
        parseFrames (Z.to_nat (Header.Frames header)) 0 reader
          (File.mk header [] [])
  end.

(** ** The canvas: image.RGBA over [image.Rect(0, 0, w, h)] *)

Module RGBA.
Record t : Type := mk { R : byte; G : byte; B : byte; A : byte }.
(** The zero value of [color.RGBA]. *)
Definition zero : t := mk Byte.x00 Byte.x00 Byte.x00 Byte.x00.
End RGBA.

Module Image.
(** One [color.RGBA] per pixel, row after row. *)
Record t : Type := mk { Dx : Z; Dy : Z; Pix : list RGBA.t }.

Definition NewRGBA (w h : Z) : t :=
  mk w h (replicate (Z.to_nat (w * h)) RGBA.zero).

Definition inside (img : t) (x y : Z) : bool :=
  (0 <=? x) && (x <? Dx img) && (0 <=? y) && (y <? Dy img).

(** [img.Set(x, y, c)]: nothing happens outside the rectangle. *)
Definition Set_ (img : t) (x y : Z) (c : RGBA.t) : t :=
  if inside img x y then
    mk (Dx img) (Dy img) (<[Z.to_nat (y * Dx img + x) := c]> (Pix img))
  else img.

Definition At (img : t) (x y : Z) : RGBA.t :=
  if inside img x y then
    default RGBA.zero (Pix img !! Z.to_nat (y * Dx img + x))
  else RGBA.zero.
End Image.

(** ** drawCelToImage *)

Definition bytesPerPixel (colorDepth : Z) : Z :=
  let bpp := colorDepth / 8 in if bpp =? 0 then 1 else bpp.

(** [cel.Pixels[k]] under a guard that keeps [k] in range. *)
Definition pix (pixels : list byte) (k : Z) : byte :=
  nth (Z.to_nat k) pixels Byte.x00.

(** The [switch colorDepth] of the pixel loop; [c] starts as the zero
    colour and no case means it stays so. *)
Definition resolveColor (pixels : list byte) (pixelIndex colorDepth : Z)
  : RGBA.t :=
  if colorDepth =? 32 then
    if pixelIndex + 3 <? len pixels then
      RGBA.mk (pix pixels pixelIndex) (pix pixels (pixelIndex + 1))
        (pix pixels (pixelIndex + 2)) (pix pixels (pixelIndex + 3))
    else RGBA.zero
  else if colorDepth =? 16 then
    if pixelIndex + 1 <? len pixels then
      let gray := pix pixels pixelIndex in
      let alpha := pix pixels (pixelIndex + 1) in
      RGBA.mk gray gray gray alpha
    else RGBA.zero
  else if colorDepth =? 8 then
    if pixelIndex <? len pixels then
      let gray := pix pixels pixelIndex in
      RGBA.mk gray gray gray Byte.xff
    else RGBA.zero
  else RGBA.zero.

(** [c.A = uint8((uint16(c.A) * uint16(cel.Opacity)) / 255)] *)
Definition applyOpacity (c : RGBA.t) (opacity : byte) : RGBA.t :=
  RGBA.mk (RGBA.R c) (RGBA.G c) (RGBA.B c)
    (uint8 (uint16 (uint16 (byte.unsigned (RGBA.A c))
                    * uint16 (byte.unsigned opacity)) / 255)).

(** The colour the pixel loop computes for the cel's pixel [(x, y)], or
    [None] when the loop skips the pixel for want of source bytes. *)
Definition celPixel (cel : Cel.t) (colorDepth : Z) (x y : Z)
  : option RGBA.t :=
  let pixelIndex := (y * Cel.Width cel + x) * bytesPerPixel colorDepth in
  if pixelIndex + bytesPerPixel colorDepth >? len (Cel.Pixels cel) then None
  else Some (applyOpacity (resolveColor (Cel.Pixels cel) pixelIndex colorDepth)
               (Cel.Opacity cel)).

(** The body of the pixel loop. *)
Definition drawPixel (cel : Cel.t) (colorDepth : Z) (y : Z) (img : Image.t)
  (x : Z) : Image.t :=
  match celPixel cel colorDepth x y with
  | None => img
  | Some c =>
      let imgX := Cel.X cel + x in
      let imgY := Cel.Y cel + y in
      if (imgX >=? 0) && (imgY >=? 0) && (imgX <? Image.Dx img)
         && (imgY <? Image.Dy img)
      then Image.Set_ img imgX imgY c
      else img
  end.

Definition upto (n : Z) : list Z := map Z.of_nat (seq 0 (Z.to_nat n)).

Definition drawRow (cel : Cel.t) (colorDepth : Z) (img : Image.t) (y : Z)
  : Image.t :=
  fold_left (drawPixel cel colorDepth y) (upto (Cel.Width cel)) img.

Definition drawCelToImage (img : Image.t) (cel : Cel.t) (colorDepth : Z)
  : result Image.t :=
  if len (Cel.Pixels cel) =? 0 then Err ErrNoPixelData
  else Ok (fold_left (drawRow cel colorDepth) (upto (Cel.Height cel)) img).

(** ** parseCelChunk and GetFrameImage

    [compress/zlib] is not part of the package: [zlib_ReadAll] stands for
    [zlib.NewReader] followed by [io.ReadAll] on a compressed block, with
    whatever error either of them reports. *)

Section Zlib.
Variable zlib_ReadAll : list byte -> result (list byte).

Definition parseCelChunk (data : list byte) : result Cel.t :=
  let reader := NewReader data in
  let* (layerIndex, reader) := read_uint16 reader in
  let* (x, reader) := read_int16 reader in
  let* (y, reader) := read_int16 reader in
  let* (opacity, reader) := read_uint8 reader in
  let* (type, reader) := read_uint16 reader in
  let* (zIndex, reader) := read_int16 reader in
  let reader := Read_discard 5 reader in
  if type =? 2 then
    let* (width, reader) := read_uint16 reader in
    let* (height, reader) := read_uint16 reader in
    let* (compressedData, reader) :=
      ReadFull (len data - Reader.Size reader + Reader.Len reader) reader in
    let* pixels := zlib_ReadAll compressedData in
    Ok (Cel.mk layerIndex x y opacity type zIndex width height pixels)
  else Err (ErrUnsupportedCel type).

(** The body of the chunk loop of [GetFrameImage]: a cel that does not
    decode, or that cannot be drawn, leaves the image as it is. *)
Definition drawChunk (colorDepth : Z) (img : Image.t) (chunk : Chunk.t)
  : Image.t :=
  if Chunk.Type_ chunk =? 0x2005 then
    match parseCelChunk (Chunk.Data chunk) with
    | Err _ => img
    | Ok cel =>
        match drawCelToImage img cel colorDepth with
        | Err _ => img
        | Ok img => img
        end
    end
  else img.

Definition GetFrameImage (f : File.t) (frameIndex : Z) : outcome Image.t :=
  if frameIndex >=? len (File.Frames f) then
    Returns (Err (ErrFrameIndex frameIndex))
  else
    match index (File.Frames f) frameIndex with
    | None => Panics
    | Some frame =>
        let img := Image.NewRGBA (Header.Width (File.Header f))
                     (Header.Height (File.Header f)) in
        Returns (Ok (fold_left
                       (drawChunk (Header.ColorDepth (File.Header f)))
                       (Frame.Chunks frame) img))
    end.
End Zlib.

(** * The orc of [orc.go]

    The enemy of the game: an animated sprite whose frames come from an
    Aseprite file through [GetFrameImage].  Its [float64] fields are
    binary64 floats with the IEEE operations of Rocq's primitive floats;
    no two operations are fused.  Go's [int] wraps at 64 bits.  An
    [*ebiten.Image] is the raster it holds. *)

From Stdlib Require Import Floats DecimalString DecimalN.

Definition int64 (z : Z) : Z := (z + 2 ^ 63) mod 2 ^ 64 - 2 ^ 63.

Inductive OrcState : Type :=
| OrcStateIdle
| OrcStateWalk
| OrcStateAttack01
| OrcStateAttack02
| OrcStateHurt
| OrcStateDeath.

Definition OrcState_eqb (a b : OrcState) : bool :=
  match a, b with
  | OrcStateIdle, OrcStateIdle | OrcStateWalk, OrcStateWalk
  | OrcStateAttack01, OrcStateAttack01 | OrcStateAttack02, OrcStateAttack02
  | OrcStateHurt, OrcStateHurt | OrcStateDeath, OrcStateDeath => true
  | _, _ => false
  end.

Module Orc.
Record t : Type := mk {

  sprite : option Image.t;
  asepriteFile : option File.t;
  positionX : float;
  positionY : float;
  facingLeft : bool;
  currentFrame : Z;
  frameTimer : float;
  frameDuration : float;
  idleFrameStart : Z;
  idleFrameEnd : Z;
  walkFrameStart : Z;
  walkFrameEnd : Z;
  attack01FrameStart : Z;
  attack01FrameEnd : Z;
  attack02FrameStart : Z;
  attack02FrameEnd : Z;
  hurtFrameStart : Z;
  hurtFrameEnd : Z;
  deathFrameStart : Z;
  deathFrameEnd : Z;
  state : OrcState;
  walkSpeed : float;
  patrolLeft : float;
  patrolRight : float;
  movingRight : bool;
  health : Z;
  maxHealth : Z;
  hurtTimer : float;
  knockbackX : float;
  deathTimer : float;
  flashTimer : float;
  flashVisible : bool;
  flashCount : Z;
  shouldRemove : bool }.


(** [o.field = v] for the fields the methods assign. *)

Definition set_currentFrame (o : t) (v : Z) : t :=
  mk (sprite o) (asepriteFile o) (positionX o) (positionY o) (facingLeft o)
    v (frameTimer o) (frameDuration o) (idleFrameStart o) (idleFrameEnd o)
    (walkFrameStart o) (walkFrameEnd o) (attack01FrameStart o)
    (attack01FrameEnd o) (attack02FrameStart o) (attack02FrameEnd o)
    (hurtFrameStart o) (hurtFrameEnd o) (deathFrameStart o)
    (deathFrameEnd o) (state o) (walkSpeed o) (patrolLeft o) (patrolRight o)
    (movingRight o) (health o) (maxHealth o) (hurtTimer o) (knockbackX o)
    (deathTimer o) (flashTimer o) (flashVisible o) (flashCount o)
    (shouldRemove o).

Definition set_frameTimer (o : t) (v : float) : t :=
  mk (sprite o) (asepriteFile o) (positionX o) (positionY o) (facingLeft o)
    (currentFrame o) v (frameDuration o) (idleFrameStart o) (idleFrameEnd o)
    (walkFrameStart o) (walkFrameEnd o) (attack01FrameStart o)
    (attack01FrameEnd o) (attack02FrameStart o) (attack02FrameEnd o)
    (hurtFrameStart o) (hurtFrameEnd o) (deathFrameStart o)
    (deathFrameEnd o) (state o) (walkSpeed o) (patrolLeft o) (patrolRight o)
    (movingRight o) (health o) (maxHealth o) (hurtTimer o) (knockbackX o)
    (deathTimer o) (flashTimer o) (flashVisible o) (flashCount o)
    (shouldRemove o).

Definition set_state (o : t) (v : OrcState) : t :=
  mk (sprite o) (asepriteFile o) (positionX o) (positionY o) (facingLeft o)
    (currentFrame o) (frameTimer o) (frameDuration o) (idleFrameStart o)
    (idleFrameEnd o) (walkFrameStart o) (walkFrameEnd o)
    (attack01FrameStart o) (attack01FrameEnd o) (attack02FrameStart o)
    (attack02FrameEnd o) (hurtFrameStart o) (hurtFrameEnd o)
    (deathFrameStart o) (deathFrameEnd o) v (walkSpeed o) (patrolLeft o)
    (patrolRight o) (movingRight o) (health o) (maxHealth o) (hurtTimer o)
    (knockbackX o) (deathTimer o) (flashTimer o) (flashVisible o)
    (flashCount o) (shouldRemove o).

Definition set_health (o : t) (v : Z) : t :=
  mk (sprite o) (asepriteFile o) (positionX o) (positionY o) (facingLeft o)
    (currentFrame o) (frameTimer o) (frameDuration o) (idleFrameStart o)
    (idleFrameEnd o) (walkFrameStart o) (walkFrameEnd o)
    (attack01FrameStart o) (attack01FrameEnd o) (attack02FrameStart o)
    (attack02FrameEnd o) (hurtFrameStart o) (hurtFrameEnd o)
    (deathFrameStart o) (deathFrameEnd o) (state o) (walkSpeed o)
    (patrolLeft o) (patrolRight o) (movingRight o) v (maxHealth o)
    (hurtTimer o) (knockbackX o) (deathTimer o) (flashTimer o)
    (flashVisible o) (flashCount o) (shouldRemove o).

Definition set_hurtTimer (o : t) (v : float) : t :=
  mk (sprite o) (asepriteFile o) (positionX o) (positionY o) (facingLeft o)
    (currentFrame o) (frameTimer o) (frameDuration o) (idleFrameStart o)
    (idleFrameEnd o) (walkFrameStart o) (walkFrameEnd o)
    (attack01FrameStart o) (attack01FrameEnd o) (attack02FrameStart o)
    (attack02FrameEnd o) (hurtFrameStart o) (hurtFrameEnd o)
    (deathFrameStart o) (deathFrameEnd o) (state o) (walkSpeed o)
    (patrolLeft o) (patrolRight o) (movingRight o) (health o) (maxHealth o)
    v (knockbackX o) (deathTimer o) (flashTimer o) (flashVisible o)
    (flashCount o) (shouldRemove o).

Definition set_knockbackX (o : t) (v : float) : t :=
  mk (sprite o) (asepriteFile o) (positionX o) (positionY o) (facingLeft o)
    (currentFrame o) (frameTimer o) (frameDuration o) (idleFrameStart o)
    (idleFrameEnd o) (walkFrameStart o) (walkFrameEnd o)
    (attack01FrameStart o) (attack01FrameEnd o) (attack02FrameStart o)
    (attack02FrameEnd o) (hurtFrameStart o) (hurtFrameEnd o)
    (deathFrameStart o) (deathFrameEnd o) (state o) (walkSpeed o)
    (patrolLeft o) (patrolRight o) (movingRight o) (health o) (maxHealth o)
    (hurtTimer o) v (deathTimer o) (flashTimer o) (flashVisible o)
    (flashCount o) (shouldRemove o).

Definition set_deathTimer (o : t) (v : float) : t :=
  mk (sprite o) (asepriteFile o) (positionX o) (positionY o) (facingLeft o)
    (currentFrame o) (frameTimer o) (frameDuration o) (idleFrameStart o)
    (idleFrameEnd o) (walkFrameStart o) (walkFrameEnd o)
    (attack01FrameStart o) (attack01FrameEnd o) (attack02FrameStart o)
    (attack02FrameEnd o) (hurtFrameStart o) (hurtFrameEnd o)
    (deathFrameStart o) (deathFrameEnd o) (state o) (walkSpeed o)
    (patrolLeft o) (patrolRight o) (movingRight o) (health o) (maxHealth o)
    (hurtTimer o) (knockbackX o) v (flashTimer o) (flashVisible o)
    (flashCount o) (shouldRemove o).

Definition set_flashTimer (o : t) (v : float) : t :=
  mk (sprite o) (asepriteFile o) (positionX o) (positionY o) (facingLeft o)
    (currentFrame o) (frameTimer o) (frameDuration o) (idleFrameStart o)
    (idleFrameEnd o) (walkFrameStart o) (walkFrameEnd o)
    (attack01FrameStart o) (attack01FrameEnd o) (attack02FrameStart o)
    (attack02FrameEnd o) (hurtFrameStart o) (hurtFrameEnd o)
    (deathFrameStart o) (deathFrameEnd o) (state o) (walkSpeed o)
    (patrolLeft o) (patrolRight o) (movingRight o) (health o) (maxHealth o)
    (hurtTimer o) (knockbackX o) (deathTimer o) v (flashVisible o)
    (flashCount o) (shouldRemove o).

Definition set_flashVisible (o : t) (v : bool) : t :=
  mk (sprite o) (asepriteFile o) (positionX o) (positionY o) (facingLeft o)
    (currentFrame o) (frameTimer o) (frameDuration o) (idleFrameStart o)
    (idleFrameEnd o) (walkFrameStart o) (walkFrameEnd o)
    (attack01FrameStart o) (attack01FrameEnd o) (attack02FrameStart o)
    (attack02FrameEnd o) (hurtFrameStart o) (hurtFrameEnd o)
    (deathFrameStart o) (deathFrameEnd o) (state o) (walkSpeed o)
    (patrolLeft o) (patrolRight o) (movingRight o) (health o) (maxHealth o)
    (hurtTimer o) (knockbackX o) (deathTimer o) (flashTimer o) v
    (flashCount o) (shouldRemove o).

Definition set_flashCount (o : t) (v : Z) : t :=
  mk (sprite o) (asepriteFile o) (positionX o) (positionY o) (facingLeft o)
    (currentFrame o) (frameTimer o) (frameDuration o) (idleFrameStart o)
    (idleFrameEnd o) (walkFrameStart o) (walkFrameEnd o)
    (attack01FrameStart o) (attack01FrameEnd o) (attack02FrameStart o)
    (attack02FrameEnd o) (hurtFrameStart o) (hurtFrameEnd o)
    (deathFrameStart o) (deathFrameEnd o) (state o) (walkSpeed o)
    (patrolLeft o) (patrolRight o) (movingRight o) (health o) (maxHealth o)
    (hurtTimer o) (knockbackX o) (deathTimer o) (flashTimer o)
    (flashVisible o) v (shouldRemove o).

Definition set_shouldRemove (o : t) (v : bool) : t :=
  mk (sprite o) (asepriteFile o) (positionX o) (positionY o) (facingLeft o)
    (currentFrame o) (frameTimer o) (frameDuration o) (idleFrameStart o)
    (idleFrameEnd o) (walkFrameStart o) (walkFrameEnd o)
    (attack01FrameStart o) (attack01FrameEnd o) (attack02FrameStart o)
    (attack02FrameEnd o) (hurtFrameStart o) (hurtFrameEnd o)
    (deathFrameStart o) (deathFrameEnd o) (state o) (walkSpeed o)
    (patrolLeft o) (patrolRight o) (movingRight o) (health o) (maxHealth o)
    (hurtTimer o) (knockbackX o) (deathTimer o) (flashTimer o)
    (flashVisible o) (flashCount o) v.

Definition set_positionX (o : t) (v : float) : t :=
  mk (sprite o) (asepriteFile o) v (positionY o) (facingLeft o)
    (currentFrame o) (frameTimer o) (frameDuration o) (idleFrameStart o)
    (idleFrameEnd o) (walkFrameStart o) (walkFrameEnd o)
    (attack01FrameStart o) (attack01FrameEnd o) (attack02FrameStart o)
    (attack02FrameEnd o) (hurtFrameStart o) (hurtFrameEnd o)
    (deathFrameStart o) (deathFrameEnd o) (state o) (walkSpeed o)
    (patrolLeft o) (patrolRight o) (movingRight o) (health o) (maxHealth o)
    (hurtTimer o) (knockbackX o) (deathTimer o) (flashTimer o)
    (flashVisible o) (flashCount o) (shouldRemove o).

Definition set_facingLeft (o : t) (v : bool) : t :=
  mk (sprite o) (asepriteFile o) (positionX o) (positionY o) v
    (currentFrame o) (frameTimer o) (frameDuration o) (idleFrameStart o)
    (idleFrameEnd o) (walkFrameStart o) (walkFrameEnd o)
    (attack01FrameStart o) (attack01FrameEnd o) (attack02FrameStart o)
    (attack02FrameEnd o) (hurtFrameStart o) (hurtFrameEnd o)
    (deathFrameStart o) (deathFrameEnd o) (state o) (walkSpeed o)
    (patrolLeft o) (patrolRight o) (movingRight o) (health o) (maxHealth o)
    (hurtTimer o) (knockbackX o) (deathTimer o) (flashTimer o)
    (flashVisible o) (flashCount o) (shouldRemove o).

Definition set_sprite (o : t) (v : option Image.t) : t :=
  mk v (asepriteFile o) (positionX o) (positionY o) (facingLeft o)
    (currentFrame o) (frameTimer o) (frameDuration o) (idleFrameStart o)
    (idleFrameEnd o) (walkFrameStart o) (walkFrameEnd o)
    (attack01FrameStart o) (attack01FrameEnd o) (attack02FrameStart o)
    (attack02FrameEnd o) (hurtFrameStart o) (hurtFrameEnd o)
    (deathFrameStart o) (deathFrameEnd o) (state o) (walkSpeed o)
    (patrolLeft o) (patrolRight o) (movingRight o) (health o) (maxHealth o)
    (hurtTimer o) (knockbackX o) (deathTimer o) (flashTimer o)
    (flashVisible o) (flashCount o) (shouldRemove o).


(** The two assignments of a case of [initializeAnimationRanges]. *)

Definition set_idleFrames (o : t) (first last : Z) : t :=
  mk (sprite o) (asepriteFile o) (positionX o) (positionY o) (facingLeft o)
    (currentFrame o) (frameTimer o) (frameDuration o) first last
    (walkFrameStart o) (walkFrameEnd o) (attack01FrameStart o)
    (attack01FrameEnd o) (attack02FrameStart o) (attack02FrameEnd o)
    (hurtFrameStart o) (hurtFrameEnd o) (deathFrameStart o)
    (deathFrameEnd o) (state o) (walkSpeed o) (patrolLeft o) (patrolRight o)
    (movingRight o) (health o) (maxHealth o) (hurtTimer o) (knockbackX o)
    (deathTimer o) (flashTimer o) (flashVisible o) (flashCount o)
    (shouldRemove o).

Definition set_walkFrames (o : t) (first last : Z) : t :=
  mk (sprite o) (asepriteFile o) (positionX o) (positionY o) (facingLeft o)
    (currentFrame o) (frameTimer o) (frameDuration o) (idleFrameStart o)
    (idleFrameEnd o) first last (attack01FrameStart o) (attack01FrameEnd o)
    (attack02FrameStart o) (attack02FrameEnd o) (hurtFrameStart o)
    (hurtFrameEnd o) (deathFrameStart o) (deathFrameEnd o) (state o)
    (walkSpeed o) (patrolLeft o) (patrolRight o) (movingRight o) (health o)
    (maxHealth o) (hurtTimer o) (knockbackX o) (deathTimer o) (flashTimer o)
    (flashVisible o) (flashCount o) (shouldRemove o).

Definition set_attack01Frames (o : t) (first last : Z) : t :=
  mk (sprite o) (asepriteFile o) (positionX o) (positionY o) (facingLeft o)
    (currentFrame o) (frameTimer o) (frameDuration o) (idleFrameStart o)
    (idleFrameEnd o) (walkFrameStart o) (walkFrameEnd o) first last
    (attack02FrameStart o) (attack02FrameEnd o) (hurtFrameStart o)
    (hurtFrameEnd o) (deathFrameStart o) (deathFrameEnd o) (state o)
    (walkSpeed o) (patrolLeft o) (patrolRight o) (movingRight o) (health o)
    (maxHealth o) (hurtTimer o) (knockbackX o) (deathTimer o) (flashTimer o)
    (flashVisible o) (flashCount o) (shouldRemove o).

Definition set_attack02Frames (o : t) (first last : Z) : t :=
  mk (sprite o) (asepriteFile o) (positionX o) (positionY o) (facingLeft o)
    (currentFrame o) (frameTimer o) (frameDuration o) (idleFrameStart o)
    (idleFrameEnd o) (walkFrameStart o) (walkFrameEnd o)
    (attack01FrameStart o) (attack01FrameEnd o) first last
    (hurtFrameStart o) (hurtFrameEnd o) (deathFrameStart o)
    (deathFrameEnd o) (state o) (walkSpeed o) (patrolLeft o) (patrolRight o)
    (movingRight o) (health o) (maxHealth o) (hurtTimer o) (knockbackX o)
    (deathTimer o) (flashTimer o) (flashVisible o) (flashCount o)
    (shouldRemove o).

Definition set_hurtFrames (o : t) (first last : Z) : t :=
  mk (sprite o) (asepriteFile o) (positionX o) (positionY o) (facingLeft o)
    (currentFrame o) (frameTimer o) (frameDuration o) (idleFrameStart o)
    (idleFrameEnd o) (walkFrameStart o) (walkFrameEnd o)
    (attack01FrameStart o) (attack01FrameEnd o) (attack02FrameStart o)
    (attack02FrameEnd o) first last (deathFrameStart o) (deathFrameEnd o)
    (state o) (walkSpeed o) (patrolLeft o) (patrolRight o) (movingRight o)
    (health o) (maxHealth o) (hurtTimer o) (knockbackX o) (deathTimer o)
    (flashTimer o) (flashVisible o) (flashCount o) (shouldRemove o).

Definition set_deathFrames (o : t) (first last : Z) : t :=
  mk (sprite o) (asepriteFile o) (positionX o) (positionY o) (facingLeft o)
    (currentFrame o) (frameTimer o) (frameDuration o) (idleFrameStart o)
    (idleFrameEnd o) (walkFrameStart o) (walkFrameEnd o)
    (attack01FrameStart o) (attack01FrameEnd o) (attack02FrameStart o)
    (attack02FrameEnd o) (hurtFrameStart o) (hurtFrameEnd o) first last
    (state o) (walkSpeed o) (patrolLeft o) (patrolRight o) (movingRight o)
    (health o) (maxHealth o) (hurtTimer o) (knockbackX o) (deathTimer o)
    (flashTimer o) (flashVisible o) (flashCount o) (shouldRemove o).

End Orc.

(** The constants of the methods; a quotient of two integers is rounded as
    the Go compiler rounds the constant. *)
Definition frameTick : float := (1 / 60)%float.       (* 1.0 / 60.0 *)
Definition flashPeriod : float := (1 / 10)%float.     (* 0.1 *)
Definition friction : float := (9 / 10)%float.        (* 0.9 *)

(** ** initializeAnimationRanges *)

(** The body of the tag loop: the [switch tag.Name]. *)
Definition setRange (o : Orc.t) (tag : Tag.t) : Orc.t :=
  let first := Tag.FromFrame tag in
  let last := Tag.ToFrame tag in
  if String.eqb (Tag.Name tag) "idle" then Orc.set_idleFrames o first last
  else if String.eqb (Tag.Name tag) "walk" then Orc.set_walkFrames o first last
  else if String.eqb (Tag.Name tag) "attack01" then
    Orc.set_attack01Frames o first last
  else if String.eqb (Tag.Name tag) "attack02" then
    Orc.set_attack02Frames o first last
  else if String.eqb (Tag.Name tag) "hurt" then Orc.set_hurtFrames o first last
  else if String.eqb (Tag.Name tag) "Death" then
    Orc.set_deathFrames o first last
  else o.

(** [o.asepriteFile] is dereferenced without a check: a nil file panics. *)
Definition initializeAnimationRanges (o : Orc.t) : outcome Orc.t :=
  match Orc.asepriteFile o with
  | None => Panics
  | Some file =>
      let o := fold_left setRange (File.Tags file) o in
      Returns (Ok (Orc.set_currentFrame o (Orc.walkFrameStart o)))
  end.

(** ** setState *)

Definition setState (o : Orc.t) (newState : OrcState) : Orc.t :=
  if OrcState_eqb (Orc.state o) newState then o
  else
    let o := Orc.set_state o newState in
    let o := Orc.set_frameTimer o 0%float in
    match newState with
    | OrcStateIdle => Orc.set_currentFrame o (Orc.idleFrameStart o)
    | OrcStateWalk => Orc.set_currentFrame o (Orc.walkFrameStart o)
    | OrcStateAttack01 => Orc.set_currentFrame o (Orc.attack01FrameStart o)
    | OrcStateAttack02 => Orc.set_currentFrame o (Orc.attack02FrameStart o)
    | OrcStateHurt => Orc.set_currentFrame o (Orc.hurtFrameStart o)
    | OrcStateDeath => Orc.set_currentFrame o (Orc.deathFrameStart o)
    end.

(** ** TakeDamage, IsAlive, ShouldRemove, GetHealth *)

Definition TakeDamage (o : Orc.t) (attackerX : float) : Orc.t :=
  if OrcState_eqb (Orc.state o) OrcStateHurt
     || OrcState_eqb (Orc.state o) OrcStateDeath
  then o
  else
    let o := Orc.set_health o (int64 (Orc.health o - 1)) in
    if Orc.health o <=? 0 then
      let o := setState o OrcStateDeath in
      Orc.set_deathTimer o 3%float
    else
      let o := setState o OrcStateHurt in
      let o := Orc.set_hurtTimer o (1 / 2)%float in
      if PrimFloat.ltb attackerX (Orc.positionX o)
      then Orc.set_knockbackX o 30%float
      else Orc.set_knockbackX o (-30)%float.

Definition IsAlive (o : Orc.t) : bool :=
  negb (OrcState_eqb (Orc.state o) OrcStateDeath).


Definition GetHealth (o : Orc.t) : Z := Orc.health o.

(** ** Update, block by block *)

(** The hurt state runs out. *)
Definition updateHurt (o : Orc.t) : Orc.t :=
  if OrcState_eqb (Orc.state o) OrcStateHurt then
    let o := Orc.set_hurtTimer o (Orc.hurtTimer o - frameTick)%float in
    if PrimFloat.leb (Orc.hurtTimer o) 0 then setState o OrcStateWalk else o
  else o.

(** The death sequence: a wait, then the flashing that ends in removal. *)
Definition updateDeath (o : Orc.t) : Orc.t :=
  if OrcState_eqb (Orc.state o) OrcStateDeath then
    let o := Orc.set_deathTimer o (Orc.deathTimer o - frameTick)%float in
    if PrimFloat.leb (Orc.deathTimer o) 0 then
      let o := Orc.set_flashTimer o (Orc.flashTimer o - frameTick)%float in
      if PrimFloat.leb (Orc.flashTimer o) 0 then
        let o := Orc.set_flashVisible o (negb (Orc.flashVisible o)) in
        let o := Orc.set_flashTimer o flashPeriod in
        let o :=
          if negb (Orc.flashVisible o)
          then Orc.set_flashCount o (int64 (Orc.flashCount o + 1))
          else o in
        if Orc.flashCount o >=? 6 then Orc.set_shouldRemove o true else o
      else o
    else o
  else o.

(** The knockback, with its friction. *)
Definition updateKnockback (o : Orc.t) : Orc.t :=
  if negb (PrimFloat.eqb (Orc.knockbackX o) 0) then
    let o := Orc.set_positionX o (Orc.positionX o + Orc.knockbackX o)%float in
    let o := Orc.set_knockbackX o (Orc.knockbackX o * friction)%float in
    if PrimFloat.ltb (-1) (Orc.knockbackX o)
       && PrimFloat.ltb (Orc.knockbackX o) 1
    then Orc.set_knockbackX o 0%float
    else o
  else o.

(** A walking orc goes after the player. *)
Definition updateChase (o : Orc.t) (playerX : float) : Orc.t :=
  if OrcState_eqb (Orc.state o) OrcStateWalk then
    if PrimFloat.ltb (Orc.positionX o) playerX then
      let o := Orc.set_positionX o (Orc.positionX o + Orc.walkSpeed o)%float in
      Orc.set_facingLeft o false
    else if PrimFloat.ltb playerX (Orc.positionX o) then
      let o := Orc.set_positionX o (Orc.positionX o - Orc.walkSpeed o)%float in
      Orc.set_facingLeft o true
    else o
  else o.

(** The [switch o.state] behind [o.currentFrame++]. *)
Definition wrapFrame (o : Orc.t) : Orc.t :=
  match Orc.state o with
  | OrcStateIdle =>
      if Orc.currentFrame o >? Orc.idleFrameEnd o
      then Orc.set_currentFrame o (Orc.idleFrameStart o) else o
  | OrcStateWalk =>
      if Orc.currentFrame o >? Orc.walkFrameEnd o
      then Orc.set_currentFrame o (Orc.walkFrameStart o) else o
  | OrcStateAttack01 =>
      if Orc.currentFrame o >? Orc.attack01FrameEnd o
      then setState o OrcStateIdle else o
  | OrcStateAttack02 =>
      if Orc.currentFrame o >? Orc.attack02FrameEnd o
      then setState o OrcStateIdle else o
  | OrcStateHurt =>
      if Orc.currentFrame o >? Orc.hurtFrameEnd o
      then Orc.set_currentFrame o (Orc.hurtFrameStart o) else o
  | OrcStateDeath =>
      if Orc.currentFrame o >? Orc.deathFrameEnd o
      then Orc.set_currentFrame o (Orc.deathFrameEnd o) else o
  end.

Section OrcUpdate.
Variable zlib_ReadAll : list byte -> result (list byte).
(** [ebiten.NewImageFromImage], which is not part of the repository: the
    image for a raster, or [None] when it panics. *)
Variable ebiten_NewImageFromImage : Image.t -> option Image.t.

(** The sprite follows the current frame; an error of [GetFrameImage]
    leaves the sprite as it is, a panic is the panic of the update. *)
Definition updateSprite (o : Orc.t) : outcome Orc.t :=
  match Orc.asepriteFile o with
  | None => Returns (Ok o)
  | Some file =>
      match GetFrameImage zlib_ReadAll file (Orc.currentFrame o) with
      | Panics => Panics
      | Returns (Err _) => Returns (Ok o)
      | Returns (Ok frameImg) =>
          match ebiten_NewImageFromImage frameImg with
          | None => Panics
          | Some sprite => Returns (Ok (Orc.set_sprite o (Some sprite)))
          end
      end
  end.

(** The animation timer and the step to the next frame. *)
Definition updateAnimation (o : Orc.t) : outcome Orc.t :=
  let o := Orc.set_frameTimer o (Orc.frameTimer o + frameTick)%float in
  if PrimFloat.leb (Orc.frameDuration o) (Orc.frameTimer o) then
    let o := Orc.set_frameTimer o 0%float in
    let o := Orc.set_currentFrame o (int64 (Orc.currentFrame o + 1)) in
    let o := wrapFrame o in
    updateSprite o
  else Returns (Ok o).

Definition Update (o : Orc.t) (playerX : float) : outcome Orc.t :=
  let o := updateHurt o in
  let o := updateDeath o in
  let o := updateKnockback o in
  let o := updateChase o playerX in
  updateAnimation o.

(** [n] calls of [Update], one after the other, with the same [playerX]. *)
Fixpoint UpdateN (n : nat) (o : Orc.t) (playerX : float) : outcome Orc.t :=
  match n with
  | O => Returns (Ok o)
  | S n =>
      match Update o playerX with
      | Returns (Ok o) => UpdateN n o playerX
      | other => other
      end
  end.
End OrcUpdate.

(** ** LoadFile and NewOrc

    [os.ReadFile] is the file system: [os_ReadFile] gives the bytes of a
    file, or the message of the error of the read. *)

Inductive loadError : Type :=
| ErrReadFile (cause : string)          (* "failed to read file: %w" *)
| ErrAseprite (e : error).              (* an error of the decoder *)

(** A call returns a value, returns an error, or panics. *)
Inductive call (A : Type) : Type :=
| Value (a : A)
| Failure (e : loadError)
| Panic.
Arguments Value {A} a.
Arguments Failure {A} e.
Arguments Panic {A}.

Section Loading.
Variable os_ReadFile : string -> string + list byte.
Variable zlib_ReadAll : list byte -> result (list byte).
Variable ebiten_NewImageFromImage : Image.t -> option Image.t.

Definition LoadFile (filename : string) : call File.t :=
  match os_ReadFile filename with
  | inl cause => Failure (ErrReadFile cause)
  | inr data =>
      match ParseFile data with
      | Ok file => Value file
      | Err e => Failure (ErrAseprite e)
      end
  end.

Definition NewOrc (x y : float) : call Orc.t :=
  match LoadFile "assets/Orc.aseprite" with
  | Failure e => Failure e
  | Panic => Panic
  | Value aseFile =>
      match GetFrameImage zlib_ReadAll aseFile 0 with
      | Panics => Panic
      | Returns (Err e) => Failure (ErrAseprite e)
      | Returns (Ok frameImg) =>
          match ebiten_NewImageFromImage frameImg with
          | None => Panic
          | Some sprite =>
              let orc :=
                Orc.mk (Some sprite) (Some aseFile) x y false
                  0 0%float (1 / 10)%float
                  0 0 0 0 0 0 0 0 0 0 0 0
                  OrcStateWalk 2%float (x - 150)%float (x + 150)%float true
                  3 3 0%float 0%float
                  0%float 0%float true 0 false in
              match initializeAnimationRanges orc with
              | Panics => Panic
              | Returns (Err e) => Failure (ErrAseprite e)
              | Returns (Ok orc) => Value orc
              end
          end
      end
  end.
End Loading.

(** * The inspector: getDirectionString and getRepeatString *)

Definition DirectionForward : Z := 0.
Definition DirectionReverse : Z := 1.
Definition DirectionPingPong : Z := 2.
Definition DirectionPingPongRev : Z := 3.

(** [fmt.Sprintf("%d", n)] for an unsigned [n]: its decimal digits. *)
Definition Sprintf_d (n : Z) : string :=
  NilZero.string_of_uint (N.to_uint (Z.to_N n)).

Definition getDirectionString (direction : byte) : string :=
  let d := byte.unsigned direction in
  if d =? DirectionForward then "Forward"
  else if d =? DirectionReverse then "Reverse"
  else if d =? DirectionPingPong then "Ping-pong"
  else if d =? DirectionPingPongRev then "Ping-pong Reverse"
  else ("Unknown (" ++ Sprintf_d d ++ ")")%string.

Definition getRepeatString (repeat : Z) : string :=
  if repeat =? 0 then "Infinite"
  else if repeat =? 1 then "Once"
  else (Sprintf_d repeat ++ " times")%string.

(** * Vocabulary of the statements *)

(** The two errors a read past the end of the input gives. *)
Definition eofError (e : error) : Prop := e = EOF \/ e = ErrUnexpectedEOF.

(** [reads n P r m]: [m] is the result of reading [n] bytes at [r]; when
    they are all there the value satisfies [P] of them and the reader is
    [n] bytes further, and otherwise the error is one of the two EOFs. *)
Definition reads {A} (n : Z) (P : list byte -> A -> Prop) (r : Reader.t)
  (m : result (A * Reader.t)) : Prop :=
  match m with
  | Ok (v, r') =>
      n <= Reader.Len r
      /\ P (take (Z.to_nat n) (Reader.unread r)) v
      /\ Reader.unread r' = drop (Z.to_nat n) (Reader.unread r)
      /\ Reader.Len r' = Reader.Len r - n
  | Err e => Reader.Len r < n /\ eofError e
  end.

Definition isUint (bits : Z) (bs : list byte) (v : Z) : Prop :=
  v = le_combine bs /\ 0 <= v < 2 ^ bits.

(** The 16-bit little-endian value at the magic-number offset, 4. *)
Definition magicAt (data : list byte) : Z := le_combine (take 2 (drop 4 data)).

(** [chunksFrom r chunks r']: reading one chunk after the other from [r]
    gives [chunks], in this order, and leaves the reader at [r']. *)
Inductive chunksFrom : Reader.t -> list Chunk.t -> Reader.t -> Prop :=
| chunksFrom_nil r : chunksFrom r [] r
| chunksFrom_cons r chunk r1 chunks r2 :
    readChunk r = Ok (chunk, r1) ->
    chunksFrom r1 chunks r2 ->
    chunksFrom r (chunk :: chunks) r2.

(** The same for frames. *)
Inductive framesFrom : Reader.t -> list Frame.t -> Reader.t -> Prop :=
| framesFrom_nil r : framesFrom r [] r
| framesFrom_cons r frame r1 frames r2 :
    readFrame r = Ok (frame, r1) ->
    framesFrom r1 frames r2 ->
    framesFrom r (frame :: frames) r2.

(** The chunk count of a frame in the words of the format: the new field
    when it is not zero, the old one otherwise. *)
Definition chunkCount (h : FrameHeader.t) : Z :=
  if FrameHeader.NewChunks h =? 0 then FrameHeader.OldChunks h
  else FrameHeader.NewChunks h.

(** ** Sample inputs *)

Import Stdlib.Init.Byte.

(** A file header: magic number 0xA5E0, one frame, everything else zero. *)
Definition sampleHeader : list byte :=
  [x00; x00; x00; x00; xe0; xa5; x01; x00] ++ replicate 120 x00.

(** A frame header with old chunk count 2 and new chunk count 0. *)
Definition sampleFrameHeader : list byte :=
  replicate 6 x00 ++ [x02; x00] ++ replicate 8 x00.

(** An empty Tags chunk and a chunk of type 0x2004 with one payload byte. *)
Definition sampleChunks : list byte :=
  [x06; x00; x00; x00; x18; x20] ++ [x07; x00; x00; x00; x04; x20; x09].

Definition sampleFrame : list byte := sampleFrameHeader ++ sampleChunks.

(** The same frame with the payload byte of its second chunk cut off. *)
Definition truncatedFrame : list byte :=
  sampleFrameHeader
  ++ [x06; x00; x00; x00; x18; x20] ++ [x07; x00; x00; x00; x04; x20].

(** The payload of a Tags chunk with one tag, "AB", over frames 1 to 2. *)
Definition sampleTags : list byte :=
  [x01; x00] ++ replicate 8 x00
  ++ [x01; x00; x02; x00; x03; x04; x00] ++ replicate 6 x00
  ++ [x09; x08; x07; x00] ++ [x02; x00; x41; x42].

(** A file of one frame with two Tags chunks: the first announces a tag and
    ends there, the second is [sampleTags]. *)
Definition taggedFile : list byte :=
  sampleHeader
  ++ replicate 12 x00 ++ [x02; x00; x00; x00]
  ++ [x08; x00; x00; x00; x18; x20; x01; x00]
  ++ [x25; x00; x00; x00; x18; x20] ++ sampleTags.

(** ** The layout of a Tags chunk payload

    A tag record as the format lays it out: two frame numbers, a direction
    byte, a repeat count, six reserved bytes, three colour bytes, one extra
    byte, and the name behind its 16-bit length.  All numbers are
    little-endian. *)
Module TagRecord.
Record t : Type := mk {
  fromFrame : Z; toFrame : Z; direction : byte; repeat : Z;
  reserved : list byte; color : list byte; extra : byte;
  name : list byte }.

Definition wf (rec : t) : Prop :=
  0 <= fromFrame rec < 2 ^ 16 /\ 0 <= toFrame rec < 2 ^ 16
  /\ 0 <= repeat rec < 2 ^ 16
  /\ length (reserved rec) = 6%nat /\ length (color rec) = 3%nat
  /\ len (name rec) < 2 ^ 16.

Definition encode (rec : t) : list byte :=
  le_split 2 (fromFrame rec) ++ le_split 2 (toFrame rec)
  ++ [direction rec] ++ le_split 2 (repeat rec)
  ++ reserved rec ++ color rec ++ [extra rec]
  ++ le_split 2 (len (name rec)) ++ name rec.

(** The Tag value a record stands for. *)
Definition tag (rec : t) : Tag.t :=
  Tag.mk (string_of_list_byte (name rec)) (fromFrame rec) (toFrame rec)
    (direction rec) (repeat rec) (color rec).
End TagRecord.

(** A Tags chunk payload: the number of records, eight reserved bytes, the
    records. *)
Definition encodeTags (reserved : list byte) (records : list TagRecord.t)
  : list byte :=
  le_split 2 (len records) ++ reserved
  ++ concat (map TagRecord.encode records).

Definition sampleRecords : list TagRecord.t :=
  [ TagRecord.mk 0 3 x00 0 (replicate 6 x00) [xff; x00; x00] x00
      [x49; x64; x6c; x65];
    TagRecord.mk 4 9 x02 1 (replicate 6 x00) [x00; xff; x00] x00
      [x57; x61; x6c; x6b] ].

(** ** Cels *)

(** The 16-bit cel-type code of a Cel chunk payload, at offset 7. *)
Definition celTypeAt (data : list byte) : Z := le_combine (take 2 (drop 7 data)).

(** The cels of a chunk list that decode, in chunk order. *)
Definition decodedCels (zlib_ReadAll : list byte -> result (list byte))
  (chunks : list Chunk.t) : list Cel.t :=
  flat_map
    (fun chunk =>
       if Chunk.Type_ chunk =? 0x2005 then
         match parseCelChunk zlib_ReadAll (Chunk.Data chunk) with
         | Ok cel => [cel]
         | Err _ => []
         end
       else [])
    chunks.

(** Compositing one cel: the canvas after [drawCelToImage], which leaves
    it alone when it reports an error. *)
Definition composite (colorDepth : Z) (img : Image.t) (cel : Cel.t)
  : Image.t :=
  match drawCelToImage img cel colorDepth with
  | Ok img' => img'
  | Err _ => img
  end.

(** A stand-in for zlib in the examples: the block is taken as stored. *)
Definition storedZlib (compressed : list byte) : result (list byte) :=
  Ok compressed.

(** A Cel chunk payload of cel type 0 with all 16 bytes of the fixed part,
    and one cut off behind the cel-type code. *)
Definition rawCelPayload : list byte := replicate 16 x00.
Definition shortCelPayload : list byte := replicate 9 x00.

(** A Cel chunk payload of cel type 2: one pixel at (1, 0), opacity 255. *)
Definition compressedCelPayload : list byte :=
  [x00; x00; x01; x00; x00; x00; xff; x02; x00; x00; x00]
  ++ replicate 5 x00 ++ [x01; x00; x01; x00] ++ [x0a; x14; x1e; xff].

(** A 2x1 RGBA file of one frame: a cel of type 0, then the cel above. *)
Definition sampleFile : File.t :=
  File.mk
    (Header.mk 0 0xA5E0 1 2 1 32 0 0 x00 0 x01 x01 0 0 0 0)
    [Frame.mk (FrameHeader.mk 0 0xF1FA 2 100 2)
       [Chunk.mk 22 0x2005 rawCelPayload;
        Chunk.mk 30 0x2005 compressedCelPayload]]
    [].

(** A 1x1 cel with the one source byte 200, fully opaque. *)
Definition grayCel : Cel.t := Cel.mk 0 0 0 xff 2 0 1 1 [xc8].

(** ** The layout of the header, of chunks, of frames and of a file

    The values a decoded field can take, and the bytes that encode a
    record in the order and widths the decoder reads them. *)

Definition isUint16 (z : Z) : Prop := 0 <= z < 2 ^ 16.
Definition isUint32 (z : Z) : Prop := 0 <= z < 2 ^ 32.
Definition isInt16 (z : Z) : Prop := - 2 ^ 15 <= z < 2 ^ 15.

Definition wfHeader (h : Header.t) : Prop :=
  isUint32 (Header.FileSize h) /\ isUint16 (Header.MagicNumber h)
  /\ isUint16 (Header.Frames h) /\ isUint16 (Header.Width h)
  /\ isUint16 (Header.Height h) /\ isUint16 (Header.ColorDepth h)
  /\ isUint32 (Header.Flags h) /\ isUint16 (Header.Speed h)
  /\ isUint16 (Header.Colors h)
  /\ isInt16 (Header.GridX h) /\ isInt16 (Header.GridY h)
  /\ isUint16 (Header.GridWidth h) /\ isUint16 (Header.GridHeight h).

(** The 128 bytes of a file header; [r8], [r3] and [r84] are the contents
    of its three reserved areas. *)
Definition encodeHeader (h : Header.t) (r8 r3 r84 : list byte) : list byte :=
  le_split 4 (Header.FileSize h) ++ le_split 2 (Header.MagicNumber h)
  ++ le_split 2 (Header.Frames h) ++ le_split 2 (Header.Width h)
  ++ le_split 2 (Header.Height h) ++ le_split 2 (Header.ColorDepth h)
  ++ le_split 4 (Header.Flags h) ++ le_split 2 (Header.Speed h)
  ++ r8 ++ [Header.Transparent h] ++ r3
  ++ le_split 2 (Header.Colors h)
  ++ [Header.PixelWidth h] ++ [Header.PixelHeight h]
  ++ le_split 2 (Header.GridX h) ++ le_split 2 (Header.GridY h)
  ++ le_split 2 (Header.GridWidth h) ++ le_split 2 (Header.GridHeight h)
  ++ r84.

(** A chunk whose size field counts its six header bytes and its data. *)
Definition wfChunk (c : Chunk.t) : Prop :=
  Chunk.Size c = 6 + len (Chunk.Data c) /\ Chunk.Size c < 2 ^ 32
  /\ isUint16 (Chunk.Type_ c).

Definition encodeChunk (c : Chunk.t) : list byte :=
  le_split 4 (Chunk.Size c) ++ le_split 2 (Chunk.Type_ c) ++ Chunk.Data c.

Definition wfFrameHeader (h : FrameHeader.t) : Prop :=
  isUint32 (FrameHeader.BytesInFrame h) /\ isUint16 (FrameHeader.MagicNumber h)
  /\ isUint16 (FrameHeader.OldChunks h) /\ isUint16 (FrameHeader.Duration h)
  /\ isUint32 (FrameHeader.NewChunks h).

Definition encodeFrameHeader (h : FrameHeader.t) (r2 : list byte)
  : list byte :=
  le_split 4 (FrameHeader.BytesInFrame h)
  ++ le_split 2 (FrameHeader.MagicNumber h)
  ++ le_split 2 (FrameHeader.OldChunks h)
  ++ le_split 2 (FrameHeader.Duration h)
  ++ r2 ++ le_split 4 (FrameHeader.NewChunks h).

(** A frame whose header announces the chunks it holds. *)
Definition wfFrame (f : Frame.t) : Prop :=
  wfFrameHeader (Frame.Header f)
  /\ len (Frame.Chunks f) = chunkCount (Frame.Header f)
  /\ Forall wfChunk (Frame.Chunks f).

(** Frames and files are written with their reserved bytes zero. *)
Definition encodeFrame (f : Frame.t) : list byte :=
  encodeFrameHeader (Frame.Header f) (replicate 2 x00)
  ++ concat (map encodeChunk (Frame.Chunks f)).

Definition encodeFile (f : File.t) : list byte :=
  encodeHeader (File.Header f) (replicate 8 x00) (replicate 3 x00)
    (replicate 84 x00)
  ++ concat (map encodeFrame (File.Frames f)).


(** The errors of a frame that does not decode: the end of the input in
    the frame header, or in the chunk with index [j]. *)
Definition frameError (e : error) : Prop :=
  eofError e \/ exists j e', e = ErrReadChunk j e' /\ 0 <= j /\ eofError e'.

(** The errors of [ParseFile]. *)
Definition fileError (data : list byte) (e : error) : Prop :=
  (exists e', e = ErrReadHeader e' /\ eofError e' /\ len data < 44)
  \/ (e = ErrInvalidMagic (magicAt data) /\ magicAt data <> 0xA5E0
      /\ 44 <= len data)
  \/ (exists i e', e = ErrReadFrame i e' /\ 0 <= i /\ frameError e'
                   /\ magicAt data = 0xA5E0).

(** A header, a frame of two chunks and the file made of them. *)
Definition layoutHeader : Header.t :=
  Header.mk 166 0xA5E0 1 2 1 32 1 100 x00 0 x01 x01 (-3) 4 16 16.

Definition layoutFrame : Frame.t :=
  Frame.mk (FrameHeader.mk 38 0xF1FA 2 100 0)
    [Chunk.mk 8 0x2018 [x00; x00]; Chunk.mk 9 0x2004 [x01; x02; x03]].

Definition layoutFile : File.t := File.mk layoutHeader [layoutFrame] [].

(** The values of a decoded tag. *)
Definition wfTag (tag : Tag.t) : Prop :=
  isUint16 (Tag.FromFrame tag) /\ isUint16 (Tag.ToFrame tag)
  /\ isUint16 (Tag.Repeat tag) /\ length (Tag.Color tag) = 3%nat
  /\ len (list_byte_of_string (Tag.Name tag)) < 2 ^ 16.

(** The 16-bit tag count at the head of a Tags chunk payload. *)
Definition tagCountAt (data : list byte) : Z := le_combine (take 2 data).

(** ** The layout of a compressed cel

    The fields of a cel of type 2 as the Cel chunk payload holds them;
    [r5] stands for the five reserved bytes and [compressed] for the zlib
    block, which runs to the end of the payload. *)
Definition wfCel (cel : Cel.t) : Prop :=
  isUint16 (Cel.LayerIndex cel) /\ isInt16 (Cel.X cel) /\ isInt16 (Cel.Y cel)
  /\ Cel.Type_ cel = 2 /\ isInt16 (Cel.ZIndex cel)
  /\ isUint16 (Cel.Width cel) /\ isUint16 (Cel.Height cel).

Definition encodeCel (cel : Cel.t) (r5 compressed : list byte) : list byte :=
  le_split 2 (Cel.LayerIndex cel) ++ le_split 2 (Cel.X cel)
  ++ le_split 2 (Cel.Y cel) ++ [Cel.Opacity cel]
  ++ le_split 2 (Cel.Type_ cel) ++ le_split 2 (Cel.ZIndex cel) ++ r5
  ++ le_split 2 (Cel.Width cel) ++ le_split 2 (Cel.Height cel)
  ++ compressed.

(** The cel with another pixel buffer. *)
Definition withPixels (cel : Cel.t) (pixels : list byte) : Cel.t :=
  Cel.mk (Cel.LayerIndex cel) (Cel.X cel) (Cel.Y cel) (Cel.Opacity cel)
    (Cel.Type_ cel) (Cel.ZIndex cel) (Cel.Width cel) (Cel.Height cel) pixels.

(** A stand-in for zlib that refuses every block. *)
Definition failingZlib (compressed : list byte) : result (list byte) :=
  Err (ErrZlib 1).

(** A 2x2 RGBA cel at (-1, 0) and half opacity, with its four pixels. *)
Definition cornerCel : Cel.t :=
  Cel.mk 0 (-1) 0 x80 2 0 2 2
    [x01; x02; x03; xff; x04; x05; x06; xff;
     x07; x08; x09; xff; x0a; x0b; x0c; xff].

(** ** The canvas and the cels on it *)

(** A canvas with one colour for every pixel of its rectangle. *)
Definition wfImage (img : Image.t) : Prop :=
  0 <= Image.Dx img /\ 0 <= Image.Dy img
  /\ len (Image.Pix img) = Image.Dx img * Image.Dy img.

(** The colour a cel has for the canvas position [(u, v)]: that of its
    pixel [(u - X, v - Y)], when the position lies in the rectangle of the
    cel and the pixel has its source bytes. *)
Definition celAt (cel : Cel.t) (colorDepth : Z) (u v : Z) : option RGBA.t :=
  let x := u - Cel.X cel in
  let y := v - Cel.Y cel in
  if (0 <=? x) && (x <? Cel.Width cel) && (0 <=? y) && (y <? Cel.Height cel)
  then celPixel cel colorDepth x y
  else None.

(** The colour of a position under a list of cels, the first at the
    bottom: that of the last cel that has one for it, over [base]. *)
Definition topColor (colorDepth : Z) (cels : list Cel.t) (u v : Z)
  (base : RGBA.t) : RGBA.t :=
  fold_left
    (fun c cel =>
       match celAt cel colorDepth u v with
       | Some c' => c'
       | None => c
       end)
    cels base.

(** A 2x2 opaque RGBA cel at the origin, with four different pixels. *)
Definition baseCel : Cel.t :=
  Cel.mk 0 0 0 xff 2 0 2 2
    [x10; x11; x12; xff; x20; x21; x22; xff;
     x30; x31; x32; xff; x40; x41; x42; xff].

(** A 1x1 grayscale cel (16 bits per pixel) at the origin: one pixel with
    the given gray value and alpha, under the given opacity. *)
Definition alphaCel (gray alpha opacity : byte) : Cel.t :=
  Cel.mk 0 0 0 opacity 2 0 1 1 [gray; alpha].

(** A 2x2 canvas, opaque white all over. *)
Definition opaqueCanvas : Image.t :=
  Image.mk 2 2
    [RGBA.mk xff xff xff xff; RGBA.mk xff xff xff xff;
     RGBA.mk xff xff xff xff; RGBA.mk xff xff xff xff].

(** ** Vocabulary for the orc *)

(** The last tag of a list with a given name. *)
Definition lastNamed (name : string) (tags : list Tag.t) : option Tag.t :=
  find (fun tag => String.eqb (Tag.Name tag) name) (rev tags).

(** The frame range a name gets from the tags: that of the last tag with
    this name, or [old] when there is none. *)
Definition rangeFrom (tags : list Tag.t) (name : string) (old : Z * Z)
  : Z * Z :=
  match lastNamed name tags with
  | Some tag => (Tag.FromFrame tag, Tag.ToFrame tag)
  | None => old
  end.

(** The frame ranges of an orc, in the order of the states. *)
Definition frameRanges (o : Orc.t) : list (Z * Z) :=
  [ (Orc.idleFrameStart o, Orc.idleFrameEnd o);
    (Orc.walkFrameStart o, Orc.walkFrameEnd o);
    (Orc.attack01FrameStart o, Orc.attack01FrameEnd o);
    (Orc.attack02FrameStart o, Orc.attack02FrameEnd o);
    (Orc.hurtFrameStart o, Orc.hurtFrameEnd o);
    (Orc.deathFrameStart o, Orc.deathFrameEnd o) ].

(** The fields [setRange] leaves alone. *)
Definition restOf (o : Orc.t) :=
  (Orc.sprite o, Orc.asepriteFile o, Orc.positionX o, Orc.positionY o,
   Orc.facingLeft o, Orc.currentFrame o, Orc.frameTimer o,
   Orc.frameDuration o, Orc.state o, Orc.walkSpeed o, Orc.patrolLeft o,
   Orc.patrolRight o, Orc.movingRight o, Orc.health o, Orc.maxHealth o,
   Orc.hurtTimer o, Orc.knockbackX o, Orc.deathTimer o, Orc.flashTimer o,
   Orc.flashVisible o, Orc.flashCount o, Orc.shouldRemove o).

(** The ranges [initializeAnimationRanges] computes from the tags. *)
Definition rangesFromTags (tags : list Tag.t) (o : Orc.t) : list (Z * Z) :=
  [ rangeFrom tags "idle" (Orc.idleFrameStart o, Orc.idleFrameEnd o);
    rangeFrom tags "walk" (Orc.walkFrameStart o, Orc.walkFrameEnd o);
    rangeFrom tags "attack01"
      (Orc.attack01FrameStart o, Orc.attack01FrameEnd o);
    rangeFrom tags "attack02"
      (Orc.attack02FrameStart o, Orc.attack02FrameEnd o);
    rangeFrom tags "hurt" (Orc.hurtFrameStart o, Orc.hurtFrameEnd o);
    rangeFrom tags "Death" (Orc.deathFrameStart o, Orc.deathFrameEnd o) ].

(** The frame range of the animation of a state. *)
Definition stateRange (o : Orc.t) (s : OrcState) : Z * Z :=
  match s with
  | OrcStateIdle => (Orc.idleFrameStart o, Orc.idleFrameEnd o)
  | OrcStateWalk => (Orc.walkFrameStart o, Orc.walkFrameEnd o)
  | OrcStateAttack01 => (Orc.attack01FrameStart o, Orc.attack01FrameEnd o)
  | OrcStateAttack02 => (Orc.attack02FrameStart o, Orc.attack02FrameEnd o)
  | OrcStateHurt => (Orc.hurtFrameStart o, Orc.hurtFrameEnd o)
  | OrcStateDeath => (Orc.deathFrameStart o, Orc.deathFrameEnd o)
  end.

(** Every range runs from a frame of the file to a later or equal one. *)
Definition rangesWithin (o : Orc.t) (frames : Z) : Prop :=
  Forall (fun range => 0 <= fst range <= snd range /\ snd range < frames)
    (frameRanges o).

(** The current frame lies in the range of the current state. *)
Definition frameInRange (o : Orc.t) : Prop :=
  fst (stateRange o (Orc.state o)) <= Orc.currentFrame o
  <= snd (stateRange o (Orc.state o)).

(** The fields of the death sequence. *)
Definition deathClock (o : Orc.t) : float * float * bool * Z * bool :=
  (Orc.deathTimer o, Orc.flashTimer o, Orc.flashVisible o, Orc.flashCount o,
   Orc.shouldRemove o).

(** One update of the death sequence, on its fields alone. *)
Definition deathTick (c : float * float * bool * Z * bool)
  : float * float * bool * Z * bool :=
  let '(deathTimer, flashTimer, flashVisible, flashCount, shouldRemove) := c in
  let deathTimer := (deathTimer - frameTick)%float in
  if PrimFloat.leb deathTimer 0 then
    let flashTimer := (flashTimer - frameTick)%float in
    if PrimFloat.leb flashTimer 0 then
      let flashVisible := negb flashVisible in
      let flashCount :=
        if negb flashVisible then int64 (flashCount + 1) else flashCount in
      (deathTimer, flashPeriod, flashVisible, flashCount,
       if flashCount >=? 6 then true else shouldRemove)
    else (deathTimer, flashTimer, flashVisible, flashCount, shouldRemove)
  else (deathTimer, flashTimer, flashVisible, flashCount, shouldRemove).


(** A stand-in for ebiten in the examples: every raster is accepted. *)
Definition plainEbiten (img : Image.t) : option Image.t := Some img.

(** An orc as [NewOrc] makes it, with the frames of [sampleFile]. *)
Definition sampleOrc : Orc.t :=
  Orc.mk None (Some sampleFile) 300%float 200%float false
    0 0%float (1 / 10)%float
    0 0 0 0 0 0 0 0 0 0 0 0
    OrcStateWalk 2%float 150%float 450%float true
    3 3 0%float 0%float
    0%float 0%float true 0 false.

Definition walkTag : Tag.t := Tag.mk "walk" 6 13 x00 0 [x00; x00; x00].
Definition deathTag : Tag.t := Tag.mk "Death" 30 33 x00 0 [x00; x00; x00].
Definition lowerDeathTag : Tag.t := Tag.mk "death" 40 43 x00 0 [x00; x00; x00].

(** An orc whose file has the three tags above. *)
Definition taggedOrc : Orc.t :=
  Orc.mk None
    (Some (File.mk (File.Header sampleFile) (File.Frames sampleFile)
             [deathTag; walkTag; lowerDeathTag]))
    300%float 200%float false 0 0%float (1 / 10)%float
    0 0 0 0 0 0 0 0 0 0 0 0
    OrcStateWalk 2%float 150%float 450%float true
    3 3 0%float 0%float
    0%float 0%float true 0 false.

(** What the animation of an orc consists of. *)
Definition animView (o : Orc.t) : OrcState * Z * list (Z * Z) :=
  (Orc.state o, Orc.currentFrame o, frameRanges o).


(** A stand-in for ebiten that refuses every raster. *)
Definition failingEbiten (img : Image.t) : option Image.t := None.

(** [sampleOrc] with its animation timer run out, and dead. *)
Definition dueOrc : Orc.t := Orc.set_frameTimer sampleOrc 1%float.

Definition deadOrc : Orc.t :=
  Orc.set_deathTimer (Orc.set_state sampleOrc OrcStateDeath) 3%float.

(** Every tag runs from a frame of the file to a later or equal one. *)
Definition tagsWithin (tags : list Tag.t) (frames : Z) : Prop :=
  Forall (fun tag =>
            0 <= Tag.FromFrame tag <= Tag.ToFrame tag
            /\ Tag.ToFrame tag < frames)
    tags.

(** The file system of the examples: one file, the orc's. *)
Definition oneFile (data : list byte) (filename : string)
  : string + list byte :=
  if String.eqb filename "assets/Orc.aseprite" then inr data
  else inl "no such file"%string.

(** The bytes of a file without frames. *)
Definition noFramesFile : list byte :=
  [x00; x00; x00; x00; xe0; xa5; x00; x00] ++ replicate 120 x00.

(** ** Reading the labels of the inspector back *)

(** The number whose decimal digits make up the [n] characters of [s]
    from position [from]. *)
Definition numberAt (s : string) (from n : nat) : option Z :=
  match NilZero.uint_of_string (String.substring from n s) with
  | Some d => Some (Z.of_N (N.of_uint d))
  | None => None
  end.

Definition directionOf (label : string) : option Z :=
  if String.eqb label "Forward" then Some 0
  else if String.eqb label "Reverse" then Some 1
  else if String.eqb label "Ping-pong" then Some 2
  else if String.eqb label "Ping-pong Reverse" then Some 3
  else numberAt label 9 (String.length label - 10).

Definition repeatOf (label : string) : option Z :=
  if String.eqb label "Infinite" then Some 0
  else if String.eqb label "Once" then Some 1
  else numberAt label 0 (String.length label - 6).

(** * Facts about the reader *)

Lemma len_nonneg {A} (l : list A) : 0 <= len l.
Proof. unfold len. lia. Qed.

Lemma Len_nonneg r : 0 <= Reader.Len r.
Proof. apply len_nonneg. Qed.

Lemma unread_NewReader data : Reader.unread (NewReader data) = data.
Proof. reflexivity. Qed.

Lemma Len_NewReader data : Reader.Len (NewReader data) = len data.
Proof. reflexivity. Qed.

Lemma unread_advance n r :
  Reader.unread (Reader.advance n r) = drop n (Reader.unread r).
Proof. unfold Reader.unread, Reader.advance. simpl. now rewrite drop_drop. Qed.

Lemma Len_advance n r :
  Z.of_nat n <= Reader.Len r ->
  Reader.Len (Reader.advance n r) = Reader.Len r - Z.of_nat n.
Proof.
  unfold Reader.Len, len. rewrite unread_advance, length_drop. lia.
Qed.

Lemma Len_Read_discard n r :
  Reader.Len (Read_discard n r) = Reader.Len r - Z.min (Z.of_nat n) (Reader.Len r).
Proof.
  unfold Read_discard. rewrite Len_advance; unfold Reader.Len, len; lia.
Qed.

Lemma unread_Read_discard n r :
  Reader.unread (Read_discard n r) = drop n (Reader.unread r).
Proof.
  unfold Read_discard. rewrite unread_advance.
  destruct (Nat.le_ge_cases n (length (Reader.unread r))) as [H|H].
  - now rewrite Nat.min_l.
  - rewrite Nat.min_r by assumption.
    rewrite !drop_ge; auto.
Qed.

(** What a read returns, case by case. *)
Lemma ReadFull_spec n r :
  0 <= n ->
  match ReadFull n r with
  | Ok (bs, r') =>
      n <= Reader.Len r /\ bs = take (Z.to_nat n) (Reader.unread r)
      /\ len bs = n
      /\ Reader.unread r' = drop (Z.to_nat n) (Reader.unread r)
      /\ Reader.Len r' = Reader.Len r - n
  | Err e => Reader.Len r < n /\ eofError e
  end.
Proof.
  intros Hn. unfold ReadFull.
  destruct (Z.leb_spec n (Reader.Len r)) as [Hle|Hgt]; cbn iota.
  - repeat split; auto.
    + unfold len. rewrite length_take. unfold Reader.Len, len in Hle. lia.
    + apply unread_advance.
    + rewrite Len_advance; lia.
  - destruct (Reader.Len r =? 0); split; auto; [left|right]; reflexivity.
Qed.

Lemma binary_Read_spec n r :
  0 <= n ->
  match binary_Read n r with
  | Ok (v, r') =>
      n <= Reader.Len r
      /\ v = le_combine (take (Z.to_nat n) (Reader.unread r))
      /\ 0 <= v < 2 ^ (8 * n)
      /\ Reader.unread r' = drop (Z.to_nat n) (Reader.unread r)
      /\ Reader.Len r' = Reader.Len r - n
  | Err e => Reader.Len r < n /\ eofError e
  end.
Proof.
  intros Hn. unfold binary_Read.
  pose proof (ReadFull_spec n r Hn) as H.
  destruct (ReadFull n r) as [[bs r']|e]; simpl; [|exact H].
  destruct H as (H1 & H2 & H3 & H4 & H5). subst bs.
  repeat split; auto.
  - apply le_combine_bound.
  - pose proof (le_combine_bound (take (Z.to_nat n) (Reader.unread r))) as B.
    unfold len in H3. rewrite H3 in B. apply B.
Qed.

Lemma reads_ReadFull n r :
  0 <= n -> reads n (fun bs v => v = bs /\ len bs = n) r (ReadFull n r).
Proof.
  intros Hn. pose proof (ReadFull_spec n r Hn) as H. unfold reads.
  destruct (ReadFull n r) as [[bs r']|e]; [|exact H].
  destruct H as (H1 & H2 & H3 & H4 & H5). subst bs. auto.
Qed.

Lemma reads_binary_Read n r :
  0 <= n -> reads n (isUint (8 * n)) r (binary_Read n r).
Proof.
  intros Hn. pose proof (binary_Read_spec n r Hn) as H. unfold reads, isUint.
  destruct (binary_Read n r) as [[v r']|e]; [|exact H]. tauto.
Qed.

Lemma reads_uint32 r : reads 4 (isUint 32) r (read_uint32 r).
Proof. apply (reads_binary_Read 4). lia. Qed.

Lemma reads_uint16 r : reads 2 (isUint 16) r (read_uint16 r).
Proof. apply (reads_binary_Read 2). lia. Qed.

Lemma reads_int16 r :
  reads 2 (fun bs v => v = int16 (le_combine bs)) r (read_int16 r).
Proof.
  pose proof (reads_binary_Read 2 r ltac:(lia)) as H.
  unfold read_int16, reads, isUint in *.
  destruct (binary_Read 2 r) as [[v r']|e]; simpl; [|exact H].
  destruct H as (H1 & [H2 _] & H3 & H4). subst v. auto.
Qed.

Lemma reads_uint8 r :
  reads 1 (fun bs v => v = hd Byte.x00 bs) r (read_uint8 r).
Proof.
  pose proof (reads_ReadFull 1 r ltac:(lia)) as H.
  unfold read_uint8, reads in *.
  destruct (ReadFull 1 r) as [[bs r']|e]; simpl; [|exact H].
  destruct H as (H1 & [H2 _] & H3 & H4). subst bs. auto.
Qed.

(** Reading what an encoder wrote: the bytes at the head of the unread
    input come back and the reader stands behind them. *)
Lemma ReadFull_app r bs rest :
  Reader.unread r = bs ++ rest ->
  exists r', ReadFull (len bs) r = Ok (bs, r') /\ Reader.unread r' = rest.
Proof.
  intros H. unfold ReadFull, Reader.Len, len. rewrite H, length_app.
  destruct (Z.leb_spec (Z.of_nat (length bs))
              (Z.of_nat (length bs + length rest))) as [_|Hlt]; [|lia].
  rewrite Nat2Z.id, take_app_length. eexists. split; [reflexivity|].
  now rewrite unread_advance, H, drop_app_length.
Qed.

Lemma binary_Read_app (n : nat) r v rest :
  Reader.unread r = le_split n v ++ rest ->
  0 <= v < 2 ^ (Z.of_nat n * 8) ->
  exists r', binary_Read (Z.of_nat n) r = Ok (v, r')
             /\ Reader.unread r' = rest.
Proof.
  intros H Hv. destruct (ReadFull_app _ _ _ H) as (r' & Hr & Hu).
  unfold len in Hr. rewrite length_le_split in Hr.
  exists r'. split; [|exact Hu]. unfold binary_Read. rewrite Hr. simpl.
  now rewrite le_combine_split, Z.mod_small.
Qed.

Lemma read_uint16_app r v rest :
  Reader.unread r = le_split 2 v ++ rest -> 0 <= v < 2 ^ 16 ->
  exists r', read_uint16 r = Ok (v, r') /\ Reader.unread r' = rest.
Proof. intros H Hv. apply (binary_Read_app 2); assumption. Qed.

Lemma read_uint8_app r b rest :
  Reader.unread r = b :: rest ->
  exists r', read_uint8 r = Ok (b, r') /\ Reader.unread r' = rest.
Proof.
  intros H. destruct (ReadFull_app r [b] rest H) as (r' & Hr & Hu).
  exists r'. split; [|exact Hu]. unfold read_uint8.
  change (len [b]) with 1 in Hr. now rewrite Hr.
Qed.

Lemma Read_discard_app n r bs rest :
  Reader.unread r = bs ++ rest -> length bs = n ->
  Reader.unread (Read_discard n r) = rest.
Proof.
  intros H <-. now rewrite unread_Read_discard, H, drop_app_length.
Qed.

(** One step of a decoder: case on the read at the head of the goal and
    keep what [reads] says about it. *)
Ltac read_cases r lem :=
  let H := fresh "Hrd" in
  pose proof (lem r) as H; unfold reads in H;
  match type of H with
  | match ?m with _ => _ end =>
      destruct m as [[? ?]|?]; cbn [bind];
      [ destruct H as (? & ? & ? & ?) | destruct H as [? ?] ]
  end.

Ltac read_step :=
  match goal with
  | |- context [bind (read_uint32 ?r) _] => read_cases r reads_uint32
  | |- context [bind (read_uint16 ?r) _] => read_cases r reads_uint16
  | |- context [bind (read_int16 ?r) _] => read_cases r reads_int16
  | |- context [bind (read_uint8 ?r) _] => read_cases r reads_uint8
  end.

Ltac len_arith :=
  rewrite ?Len_Read_discard in *;
  repeat match goal with r : Reader.t |- _ =>
    lazymatch goal with
    | _ : 0 <= Reader.Len r |- _ => fail
    | _ => pose proof (Len_nonneg r)
    end end;
  lia.

(** * readHeader *)

(** The header decoder needs the 44 bytes up to the last field it keeps:
    the reserved bytes behind them are passed over without a check. *)
Lemma readHeader_cases r :
  match readHeader r with
  | Ok (h, r') =>
      44 <= Reader.Len r
      /\ Header.MagicNumber h = le_combine (take 2 (drop 4 (Reader.unread r)))
  | Err e => Reader.Len r < 44 /\ eofError e
  end.
Proof.
  unfold readHeader.
  read_step; [|split; [len_arith|assumption]].
  read_step; [|split; [len_arith|assumption]].
  repeat (read_step; [|split; [len_arith|assumption]]).
  split; [len_arith|].
  unfold isUint in *. cbn [Header.MagicNumber].
  repeat match goal with H : _ /\ _ |- _ => destruct H end.
  subst. repeat match goal with H : Reader.unread _ = _ |- _ => rewrite H end.
  reflexivity.
Qed.

(** With 44 bytes or more the header decoder returns a Header, whatever is
    left of the 84 reserved bytes behind the last field. *)
Lemma readHeader_ok_from_44 (data : list byte) :
  44 <= len data -> is_ok (readHeader (NewReader data)) = true.
Proof.
  intros H. pose proof (readHeader_cases (NewReader data)) as C.
  rewrite Len_NewReader in C.
  destruct (readHeader (NewReader data)) as [[h r]|e]; [reflexivity|].
  destruct C. lia.
Qed.

(** C2, as the code has it: a buffer with fewer than 44 bytes, the bytes up
    to and including GridHeight, makes the header decoder fail with one of
    the two end-of-input errors and no Header is returned. *)
Theorem readHeader_truncated (data : list byte) (Hshort : len data < 44) :
  exists e, readHeader (NewReader data) = Err e /\ eofError e.
Proof.
  pose proof (readHeader_cases (NewReader data)) as C.
  rewrite Len_NewReader in C.
  destruct (readHeader (NewReader data)) as [[h r]|e].
  - destruct C as [Hlen _]. lia.
  - exists e. split; [reflexivity|apply C].
Qed.

Lemma readHeader_truncated_witness :
  len (replicate 43 Byte.x00) < 44
  /\ exists e, readHeader (NewReader (replicate 43 Byte.x00)) = Err e
               /\ eofError e.
Proof.
  split.
  - vm_compute. reflexivity.
  - apply (readHeader_truncated (replicate 43 Byte.x00)).
    vm_compute. reflexivity.
Defined.

(** C2, as stated, fails: 44 bytes are fewer than the 128 of the header
    record, and the header decoder returns a Header for them. *)
Lemma readHeader_accepts_44_bytes :
  len (replicate 44 Byte.x00) < 128
  /\ is_ok (readHeader (NewReader (replicate 44 Byte.x00))) = true.
Proof. split; vm_compute; reflexivity. Qed.

(** * ParseFile: the magic number *)

Lemma ParseFile_truncated_header (data : list byte) :
  len data < 44 ->
  exists e, eofError e /\ ParseFile data = Err (ErrReadHeader e).
Proof.
  intros H. unfold ParseFile.
  pose proof (readHeader_cases (NewReader data)) as C.
  rewrite Len_NewReader in C.
  destruct (readHeader (NewReader data)) as [[h r]|e].
  - destruct C as [Hlen _]. lia.
  - exists e. split; [apply C|reflexivity].
Qed.

(** C3, as the code has it: when the 16-bit value at the magic-number
    offset is not 0xA5E0, a buffer with the 44 bytes the header decoder
    needs is refused with the bad-magic error, and a shorter one with the
    header error; neither gives a File. *)
Theorem ParseFile_bad_magic (data : list byte)
  (Hmagic : magicAt data <> 0xA5E0) :
  (44 <= len data -> ParseFile data = Err (ErrInvalidMagic (magicAt data)))
  /\ (len data < 44 ->
      exists e, eofError e /\ ParseFile data = Err (ErrReadHeader e)).
Proof.
  split; [|apply ParseFile_truncated_header].
  intros Hlen. unfold ParseFile.
  pose proof (readHeader_cases (NewReader data)) as C.
  rewrite Len_NewReader, unread_NewReader in C.
  destruct (readHeader (NewReader data)) as [[h r]|e].
  - destruct C as [_ Hm]. fold (magicAt data) in Hm. rewrite Hm.
    destruct (Z.eqb_spec (magicAt data) 0xA5E0) as [Heq|Hne].
    + contradiction.
    + reflexivity.
  - destruct C. lia.
Qed.

Lemma ParseFile_bad_magic_witness :
  magicAt (replicate 44 Byte.x00) <> 0xA5E0
  /\ ParseFile (replicate 44 Byte.x00) = Err (ErrInvalidMagic 0).
Proof.
  assert (Hm : magicAt (replicate 44 Byte.x00) <> 0xA5E0)
    by (vm_compute; discriminate).
  split; [exact Hm|].
  apply (proj1 (ParseFile_bad_magic (replicate 44 Byte.x00) Hm)).
  vm_compute. discriminate.
Defined.

(** C3, as stated, fails: six bytes whose value at the magic-number offset
    is 0 are refused with the header error, not with the bad-magic one. *)
Lemma ParseFile_short_buffer_bad_magic :
  magicAt (replicate 6 Byte.x00) <> 0xA5E0
  /\ ParseFile (replicate 6 Byte.x00) = Err (ErrReadHeader EOF)
  /\ ParseFile (replicate 6 Byte.x00)
     <> Err (ErrInvalidMagic (magicAt (replicate 6 Byte.x00))).
Proof.
  split; [vm_compute; discriminate|].
  split; [vm_compute; reflexivity|vm_compute; discriminate].
Qed.

(** * readChunk *)

Lemma uint32_range z : 0 <= uint32 z < 2 ^ 32.
Proof. unfold uint32. apply Z.mod_pos_bound. lia. Qed.

(** What [readChunk] returns: the payload has the wrapped length
    [uint32 (Size - 6)]. *)
Lemma readChunk_cases r :
  match readChunk r with
  | Ok (c, r') =>
      0 <= Chunk.Size c < 2 ^ 32
      /\ len (Chunk.Data c) = uint32 (Chunk.Size c - 6)
      /\ 6 + len (Chunk.Data c) <= Reader.Len r
      /\ Reader.Len r' = Reader.Len r - 6 - len (Chunk.Data c)
      /\ Reader.unread r'
         = drop (Z.to_nat (6 + len (Chunk.Data c))) (Reader.unread r)
  | Err e => eofError e
  end.
Proof.
  unfold readChunk.
  read_step; [|assumption].
  read_step; [|assumption].
  match goal with |- context [ReadFull ?n ?r] =>
    read_cases r (fun r => reads_ReadFull n r (proj1 (uint32_range _)))
  end; [|assumption].
  unfold isUint in *. cbn [Chunk.Size Chunk.Data].
  repeat match goal with H : _ /\ _ |- _ => destruct H end. subst l.
  match goal with H : len _ = uint32 _ |- _ => rewrite H in * end.
  pose proof (uint32_range (z - 6)).
  repeat split; try len_arith.
  repeat match goal with H : Reader.unread _ = _ |- _ => rewrite H end.
  rewrite !drop_drop. f_equal. lia.
Qed.

(** A declared size of 6 or more: the payload is [Size - 6] bytes. *)
Lemma readChunk_payload_length r c r' :
  readChunk r = Ok (c, r') -> 6 <= Chunk.Size c ->
  len (Chunk.Data c) = Chunk.Size c - 6.
Proof.
  intros H Hsz. pose proof (readChunk_cases r) as C. rewrite H in C.
  destruct C as (Hr & Hl & _). rewrite Hl. unfold uint32.
  apply Z.mod_small. lia.
Qed.

(** A declared size below 6 is not refused: the subtraction wraps, and a
    chunk that is returned has read more than four thousand million bytes. *)
Lemma readChunk_wrapped_length r c r' :
  readChunk r = Ok (c, r') -> Chunk.Size c < 6 ->
  len (Chunk.Data c) = 2 ^ 32 - 6 + Chunk.Size c.
Proof.
  intros H Hsz. pose proof (readChunk_cases r) as C. rewrite H in C.
  destruct C as (Hr & Hl & _). rewrite Hl. unfold uint32.
  replace (Chunk.Size c - 6) with (2 ^ 32 - 6 + Chunk.Size c + (-1) * 2 ^ 32)
    by lia.
  rewrite Z.mod_add by lia. apply Z.mod_small. lia.
Qed.

(** C1 on the code: a declared size below 6 is not refused as malformed.
    The chunk reader asks for [2^32 - 6 + size] payload bytes, and with
    fewer bytes behind the chunk header it reports the end of the input, as
    it does for a truncated chunk. *)
Theorem readChunk_size_below_6 (r : Reader.t) (size type : Z)
  (rest : list byte)
  (Hbytes : Reader.unread r = le_split 4 size ++ le_split 2 type ++ rest)
  (Hsize : 0 <= size < 6)
  (Htype : 0 <= type < 2 ^ 16)
  (Hrest : len rest < 2 ^ 32 - 6 + size) :
  uint32 (size - 6) = 2 ^ 32 - 6 + size
  /\ readChunk r
     = Err (if len rest =? 0 then EOF else ErrUnexpectedEOF).
Proof.
  assert (Hwrap : uint32 (size - 6) = 2 ^ 32 - 6 + size).
  { unfold uint32.
    replace (size - 6) with (2 ^ 32 - 6 + size + (-1) * 2 ^ 32) by lia.
    rewrite Z.mod_add by lia. apply Z.mod_small. lia. }
  split; [exact Hwrap|]. unfold readChunk, read_uint32, read_uint16.
  destruct (binary_Read_app 4 r size _ Hbytes ltac:(lia)) as (r1 & E1 & U1).
  change (Z.of_nat 4) with 4 in E1. rewrite E1. cbn [bind].
  destruct (binary_Read_app 2 r1 type _ U1 ltac:(lia)) as (r2 & E2 & U2).
  change (Z.of_nat 2) with 2 in E2. rewrite E2. cbn [bind].
  rewrite Hwrap. unfold ReadFull, Reader.Len. rewrite U2.
  destruct (Z.leb_spec (2 ^ 32 - 6 + size) (len rest)); [lia|].
  now destruct (len rest =? 0).
Qed.

Lemma readChunk_size_below_6_witness :
  readChunk (NewReader (replicate 6 x00)) = Err EOF
  /\ readChunk (NewReader (x05 :: replicate 5 x00 ++ [x2a]))
     = Err ErrUnexpectedEOF.
Proof.
  split.
  - apply (readChunk_size_below_6 (NewReader (replicate 6 x00)) 0 0 []);
      [reflexivity|lia|lia|vm_compute; reflexivity].
  - apply (readChunk_size_below_6
             (NewReader (x05 :: replicate 5 x00 ++ [x2a])) 5 0 [x2a]);
      [reflexivity|lia|lia|vm_compute; reflexivity].
Defined.

(** * readFrame *)

Lemma readFrameHeader_cases r :
  match readFrameHeader r with
  | Ok (h, r') =>
      0 <= FrameHeader.OldChunks h < 2 ^ 16
      /\ 0 <= FrameHeader.NewChunks h < 2 ^ 32
      /\ 16 <= Reader.Len r
  | Err e => eofError e
  end.
Proof.
  unfold readFrameHeader.
  repeat (read_step; [|assumption]).
  unfold isUint in *. cbn [FrameHeader.OldChunks FrameHeader.NewChunks].
  repeat split; try tauto. len_arith.
Qed.

Lemma numChunks_chunkCount r h r' :
  readFrameHeader r = Ok (h, r') ->
  numChunks h = chunkCount h /\ 0 <= chunkCount h.
Proof.
  intros H. pose proof (readFrameHeader_cases r) as C. rewrite H in C.
  destruct C as (Ho & Hn & _). unfold numChunks, chunkCount, uint32.
  destruct (FrameHeader.NewChunks h =? 0).
  - rewrite Z.mod_small by lia. lia.
  - lia.
Qed.

Lemma readChunks_ok n : forall i r chunks r',
  readChunks n i r = Ok (chunks, r') ->
  length chunks = n /\ chunksFrom r chunks r'.
Proof.
  induction n as [|n IH]; intros i r chunks r' H; simpl in H.
  - injection H as <- <-. split; [reflexivity|constructor].
  - destruct (readChunk r) as [[chunk r1]|e] eqn:E; [|discriminate].
    destruct (readChunks n (i + 1) r1) as [[rest r2]|e] eqn:E';
      simpl in H; [|discriminate].
    injection H as <- <-.
    destruct (IH _ _ _ _ E') as [Hl Hc].
    split; [simpl; congruence|econstructor; eassumption].
Qed.

Lemma readChunks_fail r chunks r2 :
  chunksFrom r chunks r2 ->
  forall n i e,
    readChunk r2 = Err e -> (length chunks < n)%nat ->
    readChunks n i r = Err (ErrReadChunk (i + len chunks) e).
Proof.
  induction 1 as [r|r chunk r1 chunks r2 Hc _ IH]; intros n i e He Hn.
  - destruct n as [|n]; [lia|]. simpl. rewrite He.
    unfold len. simpl. now rewrite Z.add_0_r.
  - destruct n as [|n]; [simpl in Hn; lia|]. simpl. rewrite Hc.
    rewrite (IH n (i + 1) e He) by (simpl in Hn; lia).
    simpl. do 2 f_equal. unfold len. simpl length. lia.
Qed.

Lemma readFrame_ok r frame r' :
  readFrame r = Ok (frame, r') ->
  len (Frame.Chunks frame) = chunkCount (Frame.Header frame)
  /\ exists r1,
       readFrameHeader r = Ok (Frame.Header frame, r1)
       /\ chunksFrom r1 (Frame.Chunks frame) r'.
Proof.
  unfold readFrame. intros H.
  destruct (readFrameHeader r) as [[h r1]|e] eqn:Eh; [|discriminate].
  simpl in H.
  destruct (readChunks _ 0 r1) as [[chunks r2]|e] eqn:Ec;
    simpl in H; [|discriminate].
  injection H as <- <-. simpl.
  destruct (readChunks_ok _ _ _ _ _ Ec) as [Hl Hc].
  destruct (numChunks_chunkCount _ _ _ Eh) as [Hn Hpos].
  split; [unfold len; lia|]. exists r1. auto.
Qed.

Lemma readFrame_chunk_failure r h r1 chunks r2 e :
  readFrameHeader r = Ok (h, r1) ->
  chunksFrom r1 chunks r2 ->
  len chunks < chunkCount h ->
  readChunk r2 = Err e ->
  readFrame r = Err (ErrReadChunk (len chunks) e).
Proof.
  intros Hh Hc Hlt He. unfold readFrame. rewrite Hh. simpl.
  destruct (numChunks_chunkCount _ _ _ Hh) as [Hn Hpos].
  rewrite (readChunks_fail _ _ _ Hc _ 0 e He) by (unfold len in Hlt; lia).
  reflexivity.
Qed.

Lemma parseFrames_fail r frames r2 :
  framesFrom r frames r2 ->
  forall n i e file,
    readFrame r2 = Err e -> (length frames < n)%nat ->
    parseFrames n i r file = Err (ErrReadFrame (i + len frames) e).
Proof.
  induction 1 as [r|r frame r1 frames r2 Hf _ IH]; intros n i e file He Hn.
  - destruct n as [|n]; [lia|]. simpl. rewrite He.
    unfold len. simpl. now rewrite Z.add_0_r.
  - destruct n as [|n]; [simpl in Hn; lia|]. simpl. rewrite Hf.
    rewrite (IH n (i + 1) e _ He) by (simpl in Hn; lia).
    do 2 f_equal. unfold len. simpl length. lia.
Qed.

Lemma ParseFile_frame_failure data header r frames r2 e :
  readHeader (NewReader data) = Ok (header, r) ->
  Header.MagicNumber header = 0xA5E0 ->
  framesFrom r frames r2 ->
  len frames < Header.Frames header ->
  readFrame r2 = Err e ->
  ParseFile data = Err (ErrReadFrame (len frames) e).
Proof.
  intros Hh Hm Hf Hlt He. unfold ParseFile. rewrite Hh, Hm. simpl.
  rewrite (parseFrames_fail _ _ _ Hf _ 0 e _ He) by (unfold len in Hlt; lia).
  reflexivity.
Qed.

(** C6: a frame that decodes holds as many chunks as the new chunk count
    says when that is not zero and as the old one says otherwise, read one
    after the other behind the frame header; when one of these reads fails
    the frame fails with it, and with the frame the file. *)
Theorem readFrame_reads_chunkCount_chunks :
  (forall r frame r',
      readFrame r = Ok (frame, r') ->
      len (Frame.Chunks frame)
      = (if FrameHeader.NewChunks (Frame.Header frame) =? 0
         then FrameHeader.OldChunks (Frame.Header frame)
         else FrameHeader.NewChunks (Frame.Header frame))
      /\ exists r1,
           readFrameHeader r = Ok (Frame.Header frame, r1)
           /\ chunksFrom r1 (Frame.Chunks frame) r')
  /\ (forall r h r1 chunks r2 e,
         readFrameHeader r = Ok (h, r1) ->
         chunksFrom r1 chunks r2 ->
         len chunks < chunkCount h ->
         readChunk r2 = Err e ->
         readFrame r = Err (ErrReadChunk (len chunks) e))
  /\ (forall data header r frames r2 e,
         readHeader (NewReader data) = Ok (header, r) ->
         Header.MagicNumber header = 0xA5E0 ->
         framesFrom r frames r2 ->
         len frames < Header.Frames header ->
         readFrame r2 = Err e ->
         ParseFile data = Err (ErrReadFrame (len frames) e)).
Proof.
  split; [exact readFrame_ok|].
  split; [exact readFrame_chunk_failure|exact ParseFile_frame_failure].
Qed.

Lemma readFrame_reads_chunkCount_chunks_witness :
  (exists frame r',
      readFrame (NewReader sampleFrame) = Ok (frame, r')
      /\ len (Frame.Chunks frame) = 2)
  /\ (exists (chunks : list Chunk.t) e,
         readFrame (NewReader truncatedFrame)
         = Err (ErrReadChunk (len chunks) e))
  /\ (exists (frames : list Frame.t) e,
         ParseFile (sampleHeader ++ truncatedFrame)
         = Err (ErrReadFrame (len frames) e)).
Proof.
  destruct readFrame_reads_chunkCount_chunks as (Hok & Hchunk & Hfile).
  split; [|split].
  - destruct (readFrame (NewReader sampleFrame)) as [[frame r']|e] eqn:E;
      [|vm_compute in E; discriminate].
    exists frame, r'. split; [reflexivity|].
    destruct (Hok _ _ _ E) as [Hlen _]. rewrite Hlen.
    vm_compute in E. injection E as <- <-. reflexivity.
  - do 2 eexists. eapply Hchunk.
    + reflexivity.
    + eapply chunksFrom_cons; [reflexivity|apply chunksFrom_nil].
    + reflexivity.
    + reflexivity.
  - do 2 eexists. eapply Hfile.
    + reflexivity.
    + reflexivity.
    + apply framesFrom_nil.
    + reflexivity.
    + reflexivity.
Defined.

(** * ParseFile: the tag collection *)

Lemma collectTags_failed tags chunk e :
  parseTagsChunk (Chunk.Data chunk) = Err e -> collectTags tags chunk = tags.
Proof.
  intros H. unfold collectTags. rewrite H. now destruct (_ =? _).
Qed.

Lemma collectTags_skip pre chunk post e : forall tags,
  parseTagsChunk (Chunk.Data chunk) = Err e ->
  fold_left collectTags (pre ++ chunk :: post) tags
  = fold_left collectTags (pre ++ post) tags.
Proof.
  intros tags H. rewrite !fold_left_app. simpl.
  now rewrite (collectTags_failed _ _ _ H).
Qed.

(** When all frames are there, [parseFrames] returns them with the tags of
    their chunks, whatever [parseTagsChunk] made of each. *)
Lemma parseFrames_ok r frames r' :
  framesFrom r frames r' ->
  forall i file,
    parseFrames (length frames) i r file
    = Ok (File.mk (File.Header file) (File.Frames file ++ frames)
            (fold_left collectTags (concat (map Frame.Chunks frames))
               (File.Tags file))).
Proof.
  induction 1 as [r|r frame r1 frames r2 Hf _ IH]; intros i file.
  - simpl. rewrite app_nil_r. now destruct file.
  - simpl. rewrite Hf, IH. simpl.
    now rewrite <- app_assoc, fold_left_app.
Qed.

(** C7: a Tags chunk whose payload does not parse does not stop the file
    from decoding when the header and the frames are all there, and the
    tags of the File are those of the other chunks. *)
Theorem ParseFile_failed_tags_chunk
  (data : list byte) (header : Header.t) (r r' : Reader.t)
  (frames : list Frame.t) (pre post : list Chunk.t) (chunk : Chunk.t)
  (e : error)
  (Hheader : readHeader (NewReader data) = Ok (header, r))
  (Hmagic : Header.MagicNumber header = 0xA5E0)
  (Hframes : framesFrom r frames r')
  (Hcount : len frames = Header.Frames header)
  (Hchunks : concat (map Frame.Chunks frames) = pre ++ chunk :: post)
  (Htype : Chunk.Type_ chunk = 0x2018)
  (Hfail : parseTagsChunk (Chunk.Data chunk) = Err e) :
  ParseFile data
  = Ok (File.mk header frames (fold_left collectTags (pre ++ post) []))
  /\ forall tags, collectTags tags chunk = tags.
Proof.
  split; [|intros tags; eapply collectTags_failed; eassumption].
  unfold ParseFile. rewrite Hheader, Hmagic. simpl.
  rewrite <- Hcount. unfold len. rewrite Nat2Z.id.
  rewrite (parseFrames_ok _ _ _ Hframes). simpl.
  rewrite Hchunks. now rewrite (collectTags_skip _ _ _ _ _ Hfail).
Qed.

Lemma ParseFile_failed_tags_chunk_witness :
  exists file,
    ParseFile taggedFile = Ok file
    /\ length (File.Frames file) = 1%nat
    /\ map Tag.Name (File.Tags file) = ["AB"%string].
Proof.
  eexists. split.
  - eapply (fun header r r' frames chunk post e H1 H2 H3 H4 H5 H6 H7 =>
              proj1 (ParseFile_failed_tags_chunk taggedFile header r r'
                       frames [] post chunk e H1 H2 H3 H4 H5 H6 H7)).
    + reflexivity.
    + reflexivity.
    + eapply framesFrom_cons; [reflexivity|apply framesFrom_nil].
    + reflexivity.
    + reflexivity.
    + reflexivity.
    + reflexivity.
  - split; reflexivity.
Defined.

(** * parseTagsChunk *)

Lemma readTag_encode r rec rest :
  Reader.unread r = TagRecord.encode rec ++ rest ->
  TagRecord.wf rec ->
  exists r', readTag r = Ok (TagRecord.tag rec, r')
             /\ Reader.unread r' = rest.
Proof.
  unfold TagRecord.encode, TagRecord.wf.
  intros H (Hfrom & Hto & Hrep & Hres & Hcol & Hname).
  rewrite <- !app_assoc in H. unfold readTag.
  destruct (read_uint16_app _ _ _ H Hfrom) as (r1 & -> & H1). cbn [bind].
  destruct (read_uint16_app _ _ _ H1 Hto) as (r2 & -> & H2). cbn [bind].
  destruct (read_uint8_app _ _ _ H2) as (r3 & -> & H3). cbn [bind].
  destruct (read_uint16_app _ _ _ H3 Hrep) as (r4 & -> & H4). cbn [bind].
  pose proof (Read_discard_app 6 _ _ _ H4 Hres) as H5.
  destruct (ReadFull_app _ _ _ H5) as (r6 & E6 & H6).
  unfold read_array3. unfold len in E6. rewrite Hcol in E6.
  change (Z.of_nat 3) with 3 in E6. rewrite E6. cbn [bind].
  pose proof (Read_discard_app 1 _ [TagRecord.extra rec] _ H6 eq_refl) as H7.
  assert (Hn : 0 <= len (TagRecord.name rec) < 2 ^ 16)
    by (split; [apply len_nonneg|assumption]).
  destruct (read_uint16_app _ _ _ H7 Hn) as (r8 & -> & H8). cbn [bind].
  destruct (ReadFull_app _ _ _ H8) as (r9 & -> & H9). cbn [bind].
  exists r9. split; [reflexivity|assumption].
Qed.

Lemma readTags_encode records : forall r tags rest,
  Reader.unread r = concat (map TagRecord.encode records) ++ rest ->
  Forall TagRecord.wf records ->
  readTags (length records) r tags
  = Ok (tags ++ map TagRecord.tag records).
Proof.
  induction records as [|rec records IH]; intros r tags rest H Hwf.
  - simpl. now rewrite app_nil_r.
  - apply Forall_cons_1 in Hwf as [Hrec Hwf].
    simpl in H. rewrite <- app_assoc in H.
    destruct (readTag_encode _ _ _ H Hrec) as (r' & Hr & Hu).
    simpl. rewrite Hr. cbn [bind].
    rewrite (IH _ _ _ Hu Hwf). now rewrite <- app_assoc.
Qed.

Lemma parseTagsChunk_encode reserved records rest :
  length reserved = 8%nat ->
  len records < 2 ^ 16 ->
  Forall TagRecord.wf records ->
  parseTagsChunk (encodeTags reserved records ++ rest)
  = Ok (map TagRecord.tag records).
Proof.
  intros Hres Hlen Hwf. unfold parseTagsChunk, encodeTags.
  assert (Hn : 0 <= len records < 2 ^ 16)
    by (split; [apply len_nonneg|assumption]).
  rewrite <- !app_assoc.
  match goal with |- context [NewReader (?hd ++ ?tl)] =>
    destruct (read_uint16_app (NewReader (hd ++ tl)) _ tl eq_refl Hn)
      as (r1 & -> & H1)
  end.
  cbn [bind].
  pose proof (Read_discard_app 8 _ _ _ H1 Hres) as H2.
  unfold len. rewrite Nat2Z.id.
  now rewrite (readTags_encode _ _ [] _ H2 Hwf).
Qed.

(** C9: the payload that encodes K tag records decodes to K tags, one per
    record and in the order of the records, and the bytes of each tag's
    name are the bytes of the name field of its record. *)
Theorem parseTagsChunk_roundtrip
  (reserved : list byte) (records : list TagRecord.t)
  (Hreserved : length reserved = 8%nat)
  (Hcount : len records < 2 ^ 16)
  (Hwf : Forall TagRecord.wf records) :
  exists tags,
    parseTagsChunk (encodeTags reserved records) = Ok tags
    /\ length tags = length records
    /\ tags = map TagRecord.tag records
    /\ map (fun tag => list_byte_of_string (Tag.Name tag)) tags
       = map TagRecord.name records.
Proof.
  exists (map TagRecord.tag records).
  pose proof (parseTagsChunk_encode reserved records [] Hreserved Hcount Hwf)
    as H.
  rewrite app_nil_r in H.
  repeat split; [exact H|apply length_map|].
  rewrite map_map. apply map_ext. intros rec. simpl.
  apply list_byte_of_string_of_list_byte.
Qed.

Lemma parseTagsChunk_roundtrip_witness :
  length (replicate 8 x00) = 8%nat
  /\ len sampleRecords < 2 ^ 16
  /\ Forall TagRecord.wf sampleRecords
  /\ exists tags,
       parseTagsChunk (encodeTags (replicate 8 x00) sampleRecords) = Ok tags
       /\ length tags = length sampleRecords
       /\ tags = map TagRecord.tag sampleRecords
       /\ map (fun tag => list_byte_of_string (Tag.Name tag)) tags
          = map TagRecord.name sampleRecords.
Proof.
  assert (Hwf : Forall TagRecord.wf sampleRecords).
  { repeat constructor; simpl; unfold len; simpl; lia. }
  repeat split; try reflexivity; try exact Hwf.
  apply (parseTagsChunk_roundtrip (replicate 8 x00) sampleRecords);
    [reflexivity|reflexivity|exact Hwf].
Defined.

(** * drawCelToImage *)

Lemma byte_unsigned_255 (b : byte) : 0 <= byte.unsigned b <= 255.
Proof. pose proof (byte.unsigned_range b). lia. Qed.

Lemma uint16_small z : 0 <= z < 2 ^ 16 -> uint16 z = z.
Proof. intros H. unfold uint16. now apply Z.mod_small. Qed.

Lemma uint8_unsigned z : 0 <= z <= 255 -> byte.unsigned (uint8 z) = z.
Proof.
  intros H. unfold uint8. rewrite byte.unsigned_of_Z. unfold byte.wrap.
  apply Z.mod_small. lia.
Qed.

(** The opacity step, [c.A = uint8((uint16(c.A) * uint16(cel.Opacity)) / 255)]:
    the 16-bit product of two bytes is exact. *)
Lemma opacity_product (a o : byte) :
  uint16 (uint16 (byte.unsigned a) * uint16 (byte.unsigned o))
  = byte.unsigned a * byte.unsigned o
  /\ 0 <= byte.unsigned a * byte.unsigned o <= 65025.
Proof.
  pose proof (byte_unsigned_255 a) as Ha.
  pose proof (byte_unsigned_255 o) as Ho.
  assert (Hp : 0 <= byte.unsigned a * byte.unsigned o <= 65025) by nia.
  split; [|exact Hp].
  rewrite (uint16_small (byte.unsigned a)), (uint16_small (byte.unsigned o))
    by lia.
  apply uint16_small. lia.
Qed.

(** The quotient fits a byte, so the conversion to [uint8] keeps it. *)
Lemma applyOpacity_A c opacity :
  byte.unsigned (RGBA.A (applyOpacity c opacity))
  = byte.unsigned (RGBA.A c) * byte.unsigned opacity / 255.
Proof.
  destruct (opacity_product (RGBA.A c) opacity) as (Hu & Hp).
  unfold applyOpacity. cbn [RGBA.A]. rewrite Hu.
  apply uint8_unsigned. split.
  - apply Z.div_pos; lia.
  - apply Z.div_le_upper_bound; lia.
Qed.

Lemma applyOpacity_zero opacity : applyOpacity RGBA.zero opacity = RGBA.zero.
Proof. reflexivity. Qed.

Lemma bytesPerPixel_0 : bytesPerPixel 0 = 1.
Proof. reflexivity. Qed.

Lemma bytesPerPixel_8 : bytesPerPixel 8 = 1.
Proof. reflexivity. Qed.

(** C5, as the code has it: under colour depth 0 the source offsets are
    those of one byte per pixel, as under depth 8, but the source byte is
    not looked at: every pixel that has its byte resolves to the zero
    colour, and depth 8 makes it an opaque gray. *)
Theorem celPixel_colorDepth_0 (cel : Cel.t) (x y : Z) :
  let pixelIndex := (y * Cel.Width cel + x) * 1 in
  bytesPerPixel 0 = 1
  /\ celPixel cel 0 x y
     = (if pixelIndex + 1 >? len (Cel.Pixels cel) then None
        else Some RGBA.zero)
  /\ celPixel cel 8 x y
     = (if pixelIndex + 1 >? len (Cel.Pixels cel) then None
        else let gray := pix (Cel.Pixels cel) pixelIndex in
             Some (applyOpacity (RGBA.mk gray gray gray Byte.xff)
                     (Cel.Opacity cel))).
Proof.
  intros pixelIndex. split; [reflexivity|]. unfold celPixel.
  rewrite bytesPerPixel_0, bytesPerPixel_8. fold pixelIndex.
  destruct (Z.gtb_spec (pixelIndex + 1) (len (Cel.Pixels cel))) as [Hgt|Hle];
    split; try reflexivity.
  unfold resolveColor. cbn [Z.eqb Pos.eqb].
  destruct (Z.ltb_spec pixelIndex (len (Cel.Pixels cel))) as [_|Hge];
    [reflexivity|lia].
Qed.

(** C5, as stated, fails: the source byte 200 of a 1x1 cel is an opaque
    gray under depth 8 and a transparent black under depth 0, before the
    opacity is applied and on the canvas. *)
Lemma colorDepth_0_is_not_depth_8 :
  resolveColor (Cel.Pixels grayCel) 0 8 = RGBA.mk xc8 xc8 xc8 xff
  /\ resolveColor (Cel.Pixels grayCel) 0 0 = RGBA.zero
  /\ drawCelToImage (Image.NewRGBA 1 1) grayCel 8
     = Ok (Image.mk 1 1 [RGBA.mk xc8 xc8 xc8 xff])
  /\ drawCelToImage (Image.NewRGBA 1 1) grayCel 0
     = Ok (Image.mk 1 1 [RGBA.zero]).
Proof. repeat split; vm_compute; reflexivity. Qed.

(** * parseCelChunk and GetFrameImage *)

Section FrameImage.
Variable zlib_ReadAll : list byte -> result (list byte).

(** With the 11 bytes of the fields in front of the reserved ones, a cel
    type other than 2 is answered with the unsupported-type error. *)
Lemma parseCelChunk_unsupported (data : list byte) :
  11 <= len data ->
  celTypeAt data <> 2 ->
  parseCelChunk zlib_ReadAll data = Err (ErrUnsupportedCel (celTypeAt data)).
Proof.
  intros Hlen Htype. unfold parseCelChunk.
  pose proof (Len_NewReader data) as H0.
  pose proof (unread_NewReader data) as U0.
  do 6 (read_step; [|exfalso; len_arith]).
  unfold isUint in *.
  repeat match goal with H : _ /\ _ |- _ => destruct H end. subst.
  match goal with |- context [le_combine (take _ (Reader.unread ?r))] =>
    replace (le_combine (take (Z.to_nat 2) (Reader.unread r)))
      with (celTypeAt data) in *
  end.
  - destruct (Z.eqb_spec (celTypeAt data) 2); [contradiction|reflexivity].
  - unfold celTypeAt.
    repeat match goal with H : Reader.unread _ = _ |- _ => rewrite H end.
    rewrite !drop_drop. reflexivity.
Qed.

Lemma drawChunk_composite colorDepth img chunk :
  drawChunk zlib_ReadAll colorDepth img chunk
  = fold_left (composite colorDepth) (decodedCels zlib_ReadAll [chunk]) img.
Proof.
  unfold drawChunk, decodedCels, composite. simpl.
  destruct (Chunk.Type_ chunk =? 0x2005); [|reflexivity].
  destruct (parseCelChunk zlib_ReadAll (Chunk.Data chunk)); reflexivity.
Qed.

Lemma decodedCels_app chunks1 chunks2 :
  decodedCels zlib_ReadAll (chunks1 ++ chunks2)
  = decodedCels zlib_ReadAll chunks1 ++ decodedCels zlib_ReadAll chunks2.
Proof. unfold decodedCels. apply flat_map_app. Qed.

(** The chunk loop composites the cels that decode, in chunk order. *)
Lemma drawChunks_composite colorDepth chunks : forall img,
  fold_left (drawChunk zlib_ReadAll colorDepth) chunks img
  = fold_left (composite colorDepth) (decodedCels zlib_ReadAll chunks) img.
Proof.
  induction chunks as [|chunk chunks IH]; intros img; [reflexivity|].
  change (chunk :: chunks) with ([chunk] ++ chunks).
  rewrite decodedCels_app, !fold_left_app, <- IH.
  now rewrite <- drawChunk_composite.
Qed.

Lemma decodedCels_failed chunk e :
  parseCelChunk zlib_ReadAll (Chunk.Data chunk) = Err e ->
  decodedCels zlib_ReadAll [chunk] = [].
Proof.
  intros H. unfold decodedCels. simpl. rewrite H.
  now destruct (_ =? _).
Qed.

Lemma index_Some {A} (l : list A) i x :
  index l i = Some x -> 0 <= i < len l.
Proof.
  unfold index, len. destruct (Z.ltb_spec i 0) as [Hi|Hi]; [discriminate|].
  intros Hx. apply lookup_lt_Some in Hx. lia.
Qed.

Lemma GetFrameImage_in_range f frameIndex frame :
  index (File.Frames f) frameIndex = Some frame ->
  GetFrameImage zlib_ReadAll f frameIndex
  = Returns (Ok (fold_left
                   (composite (Header.ColorDepth (File.Header f)))
                   (decodedCels zlib_ReadAll (Frame.Chunks frame))
                   (Image.NewRGBA (Header.Width (File.Header f))
                      (Header.Height (File.Header f))))).
Proof.
  intros H. pose proof (index_Some _ _ _ H) as Hr. unfold GetFrameImage.
  destruct (Z.geb_spec frameIndex (len (File.Frames f))); [lia|].
  rewrite H. now rewrite drawChunks_composite.
Qed.

(** C4, as the code has it: a Cel chunk that holds the 11 bytes of the
    cel fields and whose cel type is not 2 is refused with the
    unsupported-type error, it leaves the canvas as it is, and the image
    of its frame is the canvas with the cels of the other chunks that
    decode composited in chunk order. *)
Theorem GetFrameImage_unsupported_cel
  (f : File.t) (frameIndex : Z) (frame : Frame.t)
  (pre post : list Chunk.t) (chunk : Chunk.t)
  (Hframe : index (File.Frames f) frameIndex = Some frame)
  (Hchunks : Frame.Chunks frame = pre ++ chunk :: post)
  (Hcel : Chunk.Type_ chunk = 0x2005)
  (Hfields : 11 <= len (Chunk.Data chunk))
  (Htype : celTypeAt (Chunk.Data chunk) <> 2) :
  parseCelChunk zlib_ReadAll (Chunk.Data chunk)
  = Err (ErrUnsupportedCel (celTypeAt (Chunk.Data chunk)))
  /\ (forall colorDepth img,
         drawChunk zlib_ReadAll colorDepth img chunk = img)
  /\ GetFrameImage zlib_ReadAll f frameIndex
     = Returns (Ok (fold_left
                      (composite (Header.ColorDepth (File.Header f)))
                      (decodedCels zlib_ReadAll (pre ++ post))
                      (Image.NewRGBA (Header.Width (File.Header f))
                         (Header.Height (File.Header f))))).
Proof.
  pose proof (parseCelChunk_unsupported _ Hfields Htype) as Herr.
  split; [exact Herr|]. split.
  - intros colorDepth img. rewrite drawChunk_composite.
    now rewrite (decodedCels_failed _ _ Herr).
  - rewrite (GetFrameImage_in_range _ _ _ Hframe), Hchunks.
    change (chunk :: post) with ([chunk] ++ post).
    rewrite !decodedCels_app, (decodedCels_failed _ _ Herr).
    reflexivity.
Qed.

(** C10: a negative frame index passes the bounds check, which only
    looks for indices at or above the number of frames, and the indexing
    of the frames behind it panics. *)
Theorem GetFrameImage_negative_index (f : File.t) (frameIndex : Z)
  (Hneg : frameIndex < 0) :
  (forall j, GetFrameImage zlib_ReadAll f j = Returns (Err (ErrFrameIndex j))
             <-> len (File.Frames f) <= j)
  /\ (frameIndex >=? len (File.Frames f)) = false
  /\ index (File.Frames f) frameIndex = None
  /\ GetFrameImage zlib_ReadAll f frameIndex = Panics.
Proof.
  assert (Hguard : (frameIndex >=? len (File.Frames f)) = false).
  { pose proof (len_nonneg (File.Frames f)).
    destruct (Z.geb_spec frameIndex (len (File.Frames f))); [lia|easy]. }
  assert (Hidx : index (File.Frames f) frameIndex = None).
  { unfold index. destruct (Z.ltb_spec frameIndex 0); [reflexivity|lia]. }
  split; [|split; [exact Hguard|split; [exact Hidx|]]].
  - intros j. unfold GetFrameImage.
    destruct (Z.geb_spec j (len (File.Frames f))) as [Hge|Hlt].
    + split; [lia|reflexivity].
    + split; [|lia]. destruct (index (File.Frames f) j); discriminate.
  - unfold GetFrameImage. now rewrite Hguard, Hidx.
Qed.
End FrameImage.

Lemma GetFrameImage_unsupported_cel_witness :
  exists img,
    GetFrameImage storedZlib sampleFile 0 = Returns (Ok img)
    /\ Image.At img 0 0 = RGBA.zero
    /\ Image.At img 1 0 = RGBA.mk x0a x14 x1e xff.
Proof.
  eexists. split.
  - eapply (fun frame post H1 H2 H3 H4 H5 =>
              proj2 (proj2 (GetFrameImage_unsupported_cel storedZlib
                              sampleFile 0 frame [] post
                              (Chunk.mk 22 0x2005 rawCelPayload)
                              H1 H2 H3 H4 H5))).
    + reflexivity.
    + reflexivity.
    + reflexivity.
    + vm_compute. discriminate.
    + vm_compute. discriminate.
  - split; vm_compute; reflexivity.
Defined.

(** C4, as stated, fails: a Cel chunk payload that ends behind its cel-type
    code, 0, is refused with the end-of-input error of the read that comes
    next, not with the unsupported-type error. *)
Lemma parseCelChunk_short_payload :
  celTypeAt shortCelPayload = 0
  /\ parseCelChunk storedZlib shortCelPayload = Err EOF.
Proof. split; vm_compute; reflexivity. Qed.

Lemma GetFrameImage_negative_index_witness :
  -1 < 0 /\ GetFrameImage storedZlib sampleFile (-1) = Panics.
Proof.
  split; [lia|].
  apply (GetFrameImage_negative_index storedZlib sampleFile (-1)). lia.
Defined.

(** * Further facts about the reader *)

Lemma ReadFull_s n r bs r' :
  ReadFull n r = Ok (bs, r') -> Reader.s r' = Reader.s r.
Proof.
  unfold ReadFull. destruct (n <=? Reader.Len r).
  - intros H. injection H as _ <-. reflexivity.
  - destruct (Reader.Len r =? 0); discriminate.
Qed.

Lemma binary_Read_s n r v r' :
  binary_Read n r = Ok (v, r') -> Reader.s r' = Reader.s r.
Proof.
  unfold binary_Read. destruct (ReadFull n r) as [[bs r1]|e] eqn:E;
    simpl; [|discriminate].
  intros H. injection H as _ <-. eapply ReadFull_s; eassumption.
Qed.

Lemma read_int16_s r v r' :
  read_int16 r = Ok (v, r') -> Reader.s r' = Reader.s r.
Proof.
  unfold read_int16. destruct (binary_Read 2 r) as [[u r1]|e] eqn:E;
    simpl; [|discriminate].
  intros H. injection H as _ <-. eapply binary_Read_s; eassumption.
Qed.

Lemma read_uint8_s r v r' :
  read_uint8 r = Ok (v, r') -> Reader.s r' = Reader.s r.
Proof.
  unfold read_uint8. destruct (ReadFull 1 r) as [[bs r1]|e] eqn:E;
    simpl; [|discriminate].
  intros H. injection H as _ <-. eapply ReadFull_s; eassumption.
Qed.

Lemma Read_discard_s n r : Reader.s (Read_discard n r) = Reader.s r.
Proof. reflexivity. Qed.

Lemma read_uint32_app r v rest :
  Reader.unread r = le_split 4 v ++ rest -> isUint32 v ->
  exists r', read_uint32 r = Ok (v, r') /\ Reader.unread r' = rest.
Proof. intros H Hv. apply (binary_Read_app 4); assumption. Qed.

Lemma int16_mod v : isInt16 v -> int16 (v mod 2 ^ 16) = v.
Proof.
  unfold isInt16, int16. intros Hv. rewrite Z.mod_mod by lia.
  destruct (Z.ltb_spec (v mod 2 ^ 16) (2 ^ 15)) as [Hlt|Hge].
  - destruct (Z.neg_nonneg_cases v) as [Hneg|Hpos].
    + replace v with (v + 2 ^ 16 + (-1) * 2 ^ 16) in Hlt by lia.
      rewrite Z.mod_add, Z.mod_small in Hlt by lia. lia.
    + apply Z.mod_small. lia.
  - destruct (Z.neg_nonneg_cases v) as [Hneg|Hpos].
    + replace v with (v + 2 ^ 16 + (-1) * 2 ^ 16) at 1 by lia.
      rewrite Z.mod_add, Z.mod_small by lia. lia.
    + rewrite Z.mod_small in Hge by lia. lia.
Qed.

Lemma int16_range z : isInt16 (int16 z).
Proof.
  unfold isInt16, int16. pose proof (Z.mod_pos_bound z (2 ^ 16)) as H.
  destruct (z mod 2 ^ 16 <? 2 ^ 15) eqn:E.
  - apply Z.ltb_lt in E. lia.
  - apply Z.ltb_ge in E. lia.
Qed.

Lemma read_int16_app r v rest :
  Reader.unread r = le_split 2 v ++ rest -> isInt16 v ->
  exists r', read_int16 r = Ok (v, r') /\ Reader.unread r' = rest.
Proof.
  intros H Hv. destruct (ReadFull_app _ _ _ H) as (r' & Hr & Hu).
  unfold len in Hr. rewrite length_le_split in Hr.
  exists r'. split; [|exact Hu].
  unfold read_int16, binary_Read. change (Z.of_nat 2) with 2 in Hr.
  rewrite Hr. simpl. rewrite le_combine_split.
  change (Z.of_nat 2 * 8) with 16. now rewrite int16_mod.
Qed.

(** One step of a decoder over encoded input: the read at the head of the
    goal returns the value that was written, and a skip passes over the
    reserved bytes. *)
Ltac read_back :=
  match goal with
  | H : Reader.unread ?r = _ |- context [bind (read_uint32 ?r) _] =>
      let r' := fresh "r" in let E := fresh "E" in let U := fresh "U" in
      destruct (read_uint32_app r _ _ H) as (r' & E & U);
      [unfold isUint32 in *; lia | rewrite E; clear E H; cbn [bind]]
  | H : Reader.unread ?r = _ |- context [bind (read_uint16 ?r) _] =>
      let r' := fresh "r" in let E := fresh "E" in let U := fresh "U" in
      destruct (read_uint16_app r _ _ H) as (r' & E & U);
      [unfold isUint16 in *; lia | rewrite E; clear E H; cbn [bind]]
  | H : Reader.unread ?r = _ |- context [bind (read_int16 ?r) _] =>
      let r' := fresh "r" in let E := fresh "E" in let U := fresh "U" in
      destruct (read_int16_app r _ _ H) as (r' & E & U);
      [assumption | rewrite E; clear E H; cbn [bind]]
  | H : Reader.unread ?r = _ |- context [bind (read_uint8 ?r) _] =>
      let r' := fresh "r" in let E := fresh "E" in let U := fresh "U" in
      destruct (read_uint8_app r _ _ H) as (r' & E & U);
      rewrite E; clear E H; cbn [bind]
  | H : Reader.unread ?r = ?bs ++ _ |- context [Read_discard ?n ?r] =>
      let U := fresh "U" in
      assert (U : Reader.unread (Read_discard n r) = _)
        by (apply (Read_discard_app n r bs _ H); assumption);
      clear H; generalize dependent (Read_discard n r); intros
  end.

(** * The header, field for field *)

Lemma readHeader_encodeHeader r h r8 r3 r84 rest :
  Reader.unread r = encodeHeader h r8 r3 r84 ++ rest ->
  wfHeader h ->
  length r8 = 8%nat -> length r3 = 3%nat -> length r84 = 84%nat ->
  exists r', readHeader r = Ok (h, r') /\ Reader.unread r' = rest.
Proof.
  unfold encodeHeader, wfHeader.
  intros H (H1 & H2 & H3 & H4 & H5 & H6 & H7 & H8 & H9 & H10 & H11 & H12
            & H13) L8 L3 L84.
  rewrite <- !app_assoc in H. simpl in H. unfold readHeader.
  do 8 read_back. read_back. read_back. read_back. do 7 read_back.
  read_back. eexists. split; [|eassumption]. now destruct h.
Qed.

Lemma readHeader_wf r :
  match readHeader r with
  | Ok (h, r') => wfHeader h
  | Err _ => True
  end.
Proof.
  unfold readHeader. repeat (read_step; [|exact I]).
  unfold wfHeader, isUint, isUint16, isUint32 in *.
  cbn [Header.FileSize Header.MagicNumber Header.Frames Header.Width
       Header.Height Header.ColorDepth Header.Flags Header.Speed
       Header.Colors Header.GridX Header.GridY Header.GridWidth
       Header.GridHeight].
  repeat match goal with H : _ /\ _ |- _ => destruct H end.
  repeat match goal with H : ?v = int16 _ |- _ => rewrite H; clear H end.
  repeat split; try lia; apply int16_range.
Qed.

(** X1: a header written field by field, with anything in its reserved
    areas, decodes to the same fields, and the reader stands behind its
    128 bytes. *)
Theorem readHeader_roundtrip (h : Header.t) (r8 r3 r84 rest : list byte)
  (Hwf : wfHeader h)
  (H8 : length r8 = 8%nat) (H3 : length r3 = 3%nat)
  (H84 : length r84 = 84%nat) :
  len (encodeHeader h r8 r3 r84) = 128
  /\ exists r',
       readHeader (NewReader (encodeHeader h r8 r3 r84 ++ rest)) = Ok (h, r')
       /\ Reader.unread r' = rest.
Proof.
  split.
  - unfold len, encodeHeader. rewrite !length_app, !length_le_split.
    rewrite H8, H3, H84. reflexivity.
  - apply (readHeader_encodeHeader _ h r8 r3 r84 rest); auto.
Qed.

Lemma layoutHeader_wf : wfHeader layoutHeader.
Proof. unfold wfHeader, isUint16, isUint32, isInt16. simpl. lia. Qed.

Lemma readHeader_roundtrip_witness :
  exists r',
    readHeader (NewReader (encodeHeader layoutHeader (replicate 8 xff)
                             (replicate 3 xff) (replicate 84 xff) ++ [x07]))
    = Ok (layoutHeader, r')
    /\ Reader.unread r' = [x07].
Proof.
  apply (readHeader_roundtrip layoutHeader (replicate 8 xff)
           (replicate 3 xff) (replicate 84 xff) [x07]);
    [exact layoutHeader_wf|reflexivity|reflexivity|reflexivity].
Defined.

(** * Chunks and frames, written and read back *)

Lemma readChunk_encodeChunk r c rest :
  Reader.unread r = encodeChunk c ++ rest -> wfChunk c ->
  exists r', readChunk r = Ok (c, r') /\ Reader.unread r' = rest.
Proof.
  unfold encodeChunk, wfChunk. intros H (Hs & Hlt & Ht).
  rewrite <- !app_assoc in H. unfold readChunk.
  pose proof (len_nonneg (Chunk.Data c)) as Hd.
  assert (Hu : isUint32 (Chunk.Size c)) by (unfold isUint32; lia).
  do 2 read_back.
  replace (uint32 (Chunk.Size c - 6)) with (len (Chunk.Data c))
    by (unfold uint32; rewrite Z.mod_small; lia).
  match goal with U : Reader.unread ?r = _ |- _ =>
    destruct (ReadFull_app r _ _ U) as (r' & -> & U')
  end.
  cbn [bind]. exists r'. split; [now destruct c|assumption].
Qed.

Lemma chunksFrom_encode chunks : forall r rest,
  Reader.unread r = concat (map encodeChunk chunks) ++ rest ->
  Forall wfChunk chunks ->
  exists r', chunksFrom r chunks r' /\ Reader.unread r' = rest.
Proof.
  induction chunks as [|c chunks IH]; intros r rest H Hwf.
  - exists r. split; [constructor|exact H].
  - apply Forall_cons_1 in Hwf as [Hc Hwf]. simpl in H.
    rewrite <- app_assoc in H.
    destruct (readChunk_encodeChunk _ _ _ H Hc) as (r1 & E1 & U1).
    destruct (IH _ _ U1 Hwf) as (r2 & C2 & U2).
    exists r2. split; [econstructor; eassumption|assumption].
Qed.

Lemma readChunks_chunksFrom r chunks r' :
  chunksFrom r chunks r' ->
  forall i, readChunks (length chunks) i r = Ok (chunks, r').
Proof.
  induction 1 as [r|r c r1 chunks r2 Hc _ IH]; intros i; [reflexivity|].
  simpl. rewrite Hc, IH. reflexivity.
Qed.

Lemma readFrameHeader_encode r h r2 rest :
  Reader.unread r = encodeFrameHeader h r2 ++ rest ->
  wfFrameHeader h -> length r2 = 2%nat ->
  exists r', readFrameHeader r = Ok (h, r') /\ Reader.unread r' = rest.
Proof.
  unfold encodeFrameHeader, wfFrameHeader.
  intros H (H1 & H2 & H3 & H4 & H5) L2.
  rewrite <- !app_assoc in H. unfold readFrameHeader.
  do 6 read_back. eexists. split; [|eassumption]. now destruct h.
Qed.

Lemma numChunks_wf h :
  wfFrameHeader h -> numChunks h = chunkCount h.
Proof.
  intros (_ & _ & Ho & _ & _). unfold numChunks, chunkCount, uint32.
  destruct (_ =? 0); [|reflexivity].
  unfold isUint16 in Ho. apply Z.mod_small. lia.
Qed.

Lemma readFrame_encodeFrame r f rest :
  Reader.unread r = encodeFrame f ++ rest -> wfFrame f ->
  exists r', readFrame r = Ok (f, r') /\ Reader.unread r' = rest.
Proof.
  unfold encodeFrame. intros H (Hh & Hn & Hc). rewrite <- app_assoc in H.
  destruct (readFrameHeader_encode _ _ _ _ H Hh eq_refl) as (r1 & E1 & U1).
  destruct (chunksFrom_encode _ _ _ U1 Hc) as (r2 & C2 & U2).
  exists r2. split; [|assumption]. unfold readFrame. rewrite E1. cbn [bind].
  rewrite (numChunks_wf _ Hh), <- Hn. unfold len. rewrite Nat2Z.id.
  rewrite (readChunks_chunksFrom _ _ _ C2). cbn [bind]. now destruct f.
Qed.


(** X2: a chunk written as size, type and data is read back as it was, and
    the reader stands behind it, on the first byte of what follows. *)
Theorem readChunk_roundtrip (c : Chunk.t) (rest : list byte)
  (Hwf : wfChunk c) :
  exists r',
    readChunk (NewReader (encodeChunk c ++ rest)) = Ok (c, r')
    /\ Reader.unread r' = rest.
Proof.
  apply (readChunk_encodeChunk (NewReader (encodeChunk c ++ rest)) c rest);
    [reflexivity|exact Hwf].
Qed.

Lemma readChunk_roundtrip_witness :
  exists r',
    readChunk (NewReader (encodeChunk (Chunk.mk 9 0x2004 [x01; x02; x03])
                            ++ [x07; x08]))
    = Ok (Chunk.mk 9 0x2004 [x01; x02; x03], r')
    /\ Reader.unread r' = [x07; x08].
Proof.
  apply (readChunk_roundtrip (Chunk.mk 9 0x2004 [x01; x02; x03]) [x07; x08]).
  unfold wfChunk, isUint16, len. simpl. lia.
Defined.

(** X3: a frame written as its header and its chunks decodes to the same
    frame, whether the chunks are counted in the new field or, the new
    field being zero, in the old one. *)
Theorem readFrame_roundtrip (f : Frame.t) (rest : list byte)
  (Hwf : wfFrame f) :
  exists r',
    readFrame (NewReader (encodeFrame f ++ rest)) = Ok (f, r')
    /\ Reader.unread r' = rest.
Proof.
  apply (readFrame_encodeFrame (NewReader (encodeFrame f ++ rest)) f rest);
    [reflexivity|exact Hwf].
Qed.

Lemma layoutFrame_wf : wfFrame layoutFrame.
Proof.
  unfold wfFrame, wfFrameHeader, isUint16, isUint32. simpl.
  repeat split; try lia; try reflexivity.
  repeat constructor; unfold isUint16, len; simpl; lia.
Qed.

Lemma readFrame_roundtrip_witness :
  exists r',
    readFrame (NewReader (encodeFrame layoutFrame ++ [x07]))
    = Ok (layoutFrame, r')
    /\ Reader.unread r' = [x07].
Proof.
  apply (readFrame_roundtrip layoutFrame [x07]). exact layoutFrame_wf.
Defined.




(** * ParseFile: what it returns and how it fails *)

Lemma readChunks_err n : forall i r e,
  0 <= i ->
  readChunks n i r = Err e ->
  exists j e', e = ErrReadChunk j e' /\ 0 <= j /\ eofError e'.
Proof.
  induction n as [|n IH]; intros i r e Hi H; simpl in H; [discriminate|].
  pose proof (readChunk_cases r) as C.
  destruct (readChunk r) as [[c r1]|e1].
  - destruct (readChunks n (i + 1) r1) as [[cs r2]|e2] eqn:E;
      simpl in H; [discriminate|].
    injection H as <-. apply (IH (i + 1) r1); [lia|exact E].
  - injection H as <-. exists i, e1. auto.
Qed.

Lemma readFrame_err r e : readFrame r = Err e -> frameError e.
Proof.
  unfold readFrame. intros H.
  pose proof (readFrameHeader_cases r) as C.
  destruct (readFrameHeader r) as [[h r1]|e1]; simpl in H.
  - destruct (readChunks _ 0 r1) as [[cs r2]|e2] eqn:E;
      simpl in H; [discriminate|].
    injection H as <-. right. eapply (readChunks_err _ 0 r1); [lia|exact E].
  - injection H as <-. now left.
Qed.

Lemma parseFrames_inv n : forall i r file file',
  parseFrames n i r file = Ok file' ->
  exists frames r',
    framesFrom r frames r' /\ length frames = n
    /\ file' = File.mk (File.Header file) (File.Frames file ++ frames)
                 (fold_left collectTags (concat (map Frame.Chunks frames))
                    (File.Tags file)).
Proof.
  induction n as [|n IH]; intros i r file file' H; simpl in H.
  - injection H as <-. exists [], r. split; [constructor|].
    split; [reflexivity|]. simpl. rewrite app_nil_r. now destruct file.
  - destruct (readFrame r) as [[frame r1]|e] eqn:E; [|discriminate].
    destruct (IH _ _ _ _ H) as (frames & r' & Hf & Hl & ->).
    exists (frame :: frames), r'. split; [econstructor; eassumption|].
    split; [simpl; congruence|]. simpl.
    now rewrite <- app_assoc, fold_left_app.
Qed.

Lemma parseFrames_err n : forall i r file e,
  0 <= i ->
  parseFrames n i r file = Err e ->
  exists k e', e = ErrReadFrame k e' /\ 0 <= k /\ frameError e'.
Proof.
  induction n as [|n IH]; intros i r file e Hi H; simpl in H; [discriminate|].
  destruct (readFrame r) as [[frame r1]|e1] eqn:E.
  - eapply (IH (i + 1) r1); [lia|exact H].
  - injection H as <-. exists i, e1. split; [reflexivity|].
    split; [assumption|]. apply (readFrame_err r). exact E.
Qed.


Lemma ParseFile_ok_inv data file :
  ParseFile data = Ok file ->
  wfHeader (File.Header file)
  /\ len (File.Frames file) = Header.Frames (File.Header file).
Proof.
  unfold ParseFile. intros Hok.
  pose proof (readHeader_wf (NewReader data)) as W.
  destruct (readHeader (NewReader data)) as [[h r]|e]; [|discriminate].
  destruct (negb _); [discriminate|].
  destruct (parseFrames_inv _ _ _ _ _ Hok) as (frames & r' & Hf & Hl & ->).
  simpl. split; [assumption|].
  unfold len. rewrite Hl. destruct W as (_ & _ & [Hfr _] & _).
  now rewrite Z2Nat.id.
Qed.



(** X6: [ParseFile] fails in three ways only: the input ends inside the
    first 44 bytes, the magic number is not 0xA5E0, or the input ends
    inside a frame, in its header or in one of its chunks.  The payload of
    a chunk never makes it fail. *)
Theorem ParseFile_errors (data : list byte) (e : error)
  (Herr : ParseFile data = Err e) :
  fileError data e.
Proof.
  unfold ParseFile in Herr. unfold fileError.
  pose proof (readHeader_cases (NewReader data)) as C.
  rewrite Len_NewReader, unread_NewReader in C.
  destruct (readHeader (NewReader data)) as [[h r]|e1].
  - destruct C as [Hlen Hm]. fold (magicAt data) in Hm.
    destruct (Z.eqb_spec (Header.MagicNumber h) 0xA5E0) as [Heq|Hne];
      simpl in Herr.
    + right. right.
      destruct (parseFrames_err _ 0 _ _ e ltac:(lia) Herr)
        as (k & e' & -> & Hk & He).
      exists k, e'. repeat split; try assumption. congruence.
    + right. left. injection Herr as <-. rewrite <- Hm. auto.
  - left. injection Herr as <-. destruct C. exists e1. auto.
Qed.

Lemma ParseFile_errors_witness :
  fileError (sampleHeader ++ truncatedFrame)
    (ErrReadFrame 0 (ErrReadChunk 1 EOF)).
Proof.
  apply (ParseFile_errors (sampleHeader ++ truncatedFrame)).
  vm_compute. reflexivity.
Defined.

(** * readChunk: where the next chunk starts *)

(** X7: behind a chunk with a declared size of 6 or more the reader has
    moved by exactly that size, whatever the type of the chunk: the next
    read starts on the first byte behind it. *)
Theorem readChunk_consumes_size (r : Reader.t) (c : Chunk.t) (r' : Reader.t)
  (Hok : readChunk r = Ok (c, r')) (Hsize : 6 <= Chunk.Size c) :
  Chunk.Size c <= Reader.Len r
  /\ Reader.Len r' = Reader.Len r - Chunk.Size c
  /\ Reader.unread r' = drop (Z.to_nat (Chunk.Size c)) (Reader.unread r).
Proof.
  pose proof (readChunk_cases r) as C. rewrite Hok in C.
  destruct C as (Hr & Hl & Hle & HL & Hu).
  assert (Hd : len (Chunk.Data c) = Chunk.Size c - 6).
  { rewrite Hl. unfold uint32. apply Z.mod_small. lia. }
  rewrite Hd in *. split; [lia|]. split; [lia|].
  rewrite Hu. f_equal. lia.
Qed.

Lemma readChunk_consumes_size_witness :
  exists c r',
    readChunk (NewReader sampleChunks) = Ok (c, r')
    /\ Reader.unread r' = drop 6 sampleChunks.
Proof.
  destruct (readChunk (NewReader sampleChunks)) as [[c r']|e] eqn:E;
    [|vm_compute in E; discriminate].
  exists c, r'. split; [reflexivity|].
  assert (Hs : Chunk.Size c = 6)
    by (vm_compute in E; injection E as <- _; reflexivity).
  destruct (readChunk_consumes_size _ _ _ E ltac:(lia)) as (_ & _ & Hu).
  rewrite Hu, Hs. reflexivity.
Defined.

(** * parseTagsChunk: counts, errors, truncation *)

Ltac read_full_step :=
  match goal with
  | |- context [bind (ReadFull ?n ?r) _] =>
      let Hn := fresh "Hn" in
      assert (Hn : 0 <= n) by (unfold isUint in *; lia);
      read_cases r (fun r' => reads_ReadFull n r' Hn)
  end.

Lemma readTag_cases r :
  match readTag r with
  | Ok (tag, r') => wfTag tag
  | Err e => eofError e
  end.
Proof.
  unfold readTag, read_array3.
  do 4 (read_step; [|assumption]).
  read_full_step; [|assumption].
  read_step; [|assumption].
  read_full_step; [|assumption].
  unfold wfTag, isUint, isUint16 in *.
  cbn [Tag.FromFrame Tag.ToFrame Tag.Repeat Tag.Color Tag.Name].
  rewrite list_byte_of_string_of_list_byte.
  repeat match goal with H : _ /\ _ |- _ => destruct H end. subst.
  match goal with H : len (take _ _) = 3 |- _ => unfold len in H end.
  repeat split; try lia.
Qed.

Lemma readTags_inv n : forall r tags result,
  readTags n r tags = Ok result ->
  exists new, result = tags ++ new /\ length new = n /\ Forall wfTag new.
Proof.
  induction n as [|n IH]; intros r tags result H; simpl in H.
  - injection H as <-. exists []. rewrite app_nil_r. auto.
  - pose proof (readTag_cases r) as C.
    destruct (readTag r) as [[tag r1]|e]; simpl in H; [|discriminate].
    destruct (IH _ _ _ H) as (new & -> & Hl & Hw).
    exists (tag :: new). rewrite <- app_assoc. simpl.
    split; [reflexivity|]. split; [congruence|]. now constructor.
Qed.

Lemma readTags_err n : forall r tags e,
  readTags n r tags = Err e -> eofError e.
Proof.
  induction n as [|n IH]; intros r tags e H; simpl in H; [discriminate|].
  pose proof (readTag_cases r) as C.
  destruct (readTag r) as [[tag r1]|e1]; simpl in H.
  - eapply IH; eassumption.
  - injection H as <-. exact C.
Qed.

(** X8: a Tags chunk payload that decodes gives exactly as many tags as the
    16-bit count at its head says, every one with its frame numbers and
    repeat count in 16 bits, three colour bytes and a name shorter than
    65536 bytes. *)
Theorem parseTagsChunk_count (data : list byte) (tags : list Tag.t)
  (Hok : parseTagsChunk data = Ok tags) :
  2 <= len data /\ len tags = tagCountAt data /\ Forall wfTag tags.
Proof.
  unfold parseTagsChunk in Hok.
  pose proof (reads_uint16 (NewReader data)) as R. unfold reads in R.
  rewrite Len_NewReader, unread_NewReader in R.
  destruct (read_uint16 (NewReader data)) as [[n r1]|e];
    simpl in Hok; [|discriminate].
  destruct R as (Hlen & [Hn Hr] & _).
  destruct (readTags_inv _ _ _ _ Hok) as (new & -> & Hl & Hw).
  simpl. split; [assumption|]. split; [|assumption].
  unfold len, tagCountAt. rewrite Hl, Z2Nat.id by lia. exact Hn.
Qed.

Lemma parseTagsChunk_count_witness :
  exists tags,
    parseTagsChunk sampleTags = Ok tags /\ len tags = tagCountAt sampleTags.
Proof.
  destruct (parseTagsChunk sampleTags) as [tags|e] eqn:E;
    [|vm_compute in E; discriminate].
  exists tags. split; [reflexivity|].
  apply (parseTagsChunk_count sampleTags tags E).
Defined.

(** X9: the only errors of the tag decoder are the two end-of-input errors:
    a payload is never refused for the values it holds. *)
Theorem parseTagsChunk_errors (data : list byte) (e : error)
  (Herr : parseTagsChunk data = Err e) :
  eofError e.
Proof.
  unfold parseTagsChunk in Herr.
  pose proof (reads_uint16 (NewReader data)) as R. unfold reads in R.
  destruct (read_uint16 (NewReader data)) as [[n r1]|e1]; simpl in Herr.
  - eapply readTags_err; eassumption.
  - injection Herr as <-. apply R.
Qed.

Lemma parseTagsChunk_errors_witness :
  parseTagsChunk [x01; x00; x00] = Err EOF /\ eofError EOF.
Proof.
  assert (E : parseTagsChunk [x01; x00; x00] = Err EOF)
    by (vm_compute; reflexivity).
  split; [exact E|]. exact (parseTagsChunk_errors [x01; x00; x00] EOF E).
Defined.




(** X11: what stands in the reserved bytes of a Tags chunk payload and what
    follows its last record does not matter: the tags are those of the
    records. *)
Theorem parseTagsChunk_ignores_padding
  (reserved rest : list byte) (records : list TagRecord.t)
  (Hreserved : length reserved = 8%nat)
  (Hcount : len records < 2 ^ 16)
  (Hwf : Forall TagRecord.wf records) :
  parseTagsChunk (encodeTags reserved records ++ rest)
  = parseTagsChunk (encodeTags (replicate 8 x00) records).
Proof.
  rewrite (parseTagsChunk_encode reserved records rest) by assumption.
  rewrite <- (app_nil_r (encodeTags (replicate 8 x00) records)).
  now rewrite (parseTagsChunk_encode (replicate 8 x00) records [])
    by (assumption || reflexivity).
Qed.

Lemma parseTagsChunk_ignores_padding_witness :
  parseTagsChunk (encodeTags (replicate 8 xff) sampleRecords ++ [x01; x02])
  = parseTagsChunk (encodeTags (replicate 8 x00) sampleRecords).
Proof.
  apply (parseTagsChunk_ignores_padding (replicate 8 xff) [x01; x02]
           sampleRecords); [reflexivity|reflexivity|].
  repeat constructor; simpl; unfold len; simpl; lia.
Defined.

(** * parseCelChunk: compressed cels *)

Ltac read_back_s :=
  match goal with
  | H : Reader.unread ?r = _, S : Reader.s ?r = _
    |- context [bind (read_uint16 ?r) _] =>
      let r' := fresh "r" in let E := fresh "E" in let U := fresh "U" in
      let S' := fresh "S" in
      destruct (read_uint16_app r _ _ H) as (r' & E & U);
      [unfold isUint16 in *; lia
      | pose proof (eq_trans (binary_Read_s 2 _ _ _ E) S) as S';
        rewrite E; clear E H S; cbn [bind]]
  | H : Reader.unread ?r = _, S : Reader.s ?r = _
    |- context [bind (read_int16 ?r) _] =>
      let r' := fresh "r" in let E := fresh "E" in let U := fresh "U" in
      let S' := fresh "S" in
      destruct (read_int16_app r _ _ H) as (r' & E & U);
      [assumption
      | pose proof (eq_trans (read_int16_s _ _ _ E) S) as S';
        rewrite E; clear E H S; cbn [bind]]
  | H : Reader.unread ?r = _, S : Reader.s ?r = _
    |- context [bind (read_uint8 ?r) _] =>
      let r' := fresh "r" in let E := fresh "E" in let U := fresh "U" in
      let S' := fresh "S" in
      destruct (read_uint8_app r _ _ H) as (r' & E & U);
      pose proof (eq_trans (read_uint8_s _ _ _ E) S) as S';
      rewrite E; clear E H S; cbn [bind]
  | H : Reader.unread ?r = ?bs ++ _, S : Reader.s ?r = _
    |- context [Read_discard ?n ?r] =>
      let U := fresh "U" in let S' := fresh "S" in
      assert (U : Reader.unread (Read_discard n r) = _)
        by (apply (Read_discard_app n r bs _ H); assumption);
      assert (S' : Reader.s (Read_discard n r) = _) by exact S;
      clear H S; generalize dependent (Read_discard n r); intros
  end.

Section CompressedCel.
Variable zlib_ReadAll : list byte -> result (list byte).

(** X12: for a cel of type 2 the decoder hands zlib everything behind the
    height field, up to the end of the payload; the cel has the fields of
    the payload and the pixels zlib returns, and an error of zlib is the
    error of the cel. *)
Theorem parseCelChunk_compressed
  (cel : Cel.t) (r5 compressed : list byte)
  (Hwf : wfCel cel) (Hr5 : length r5 = 5%nat) :
  parseCelChunk zlib_ReadAll (encodeCel cel r5 compressed)
  = match zlib_ReadAll compressed with
    | Ok pixels => Ok (withPixels cel pixels)
    | Err e => Err e
    end.
Proof.
  destruct Hwf as (Hl & Hx & Hy & Ht & Hz & Hw & Hh).
  unfold parseCelChunk.
  pose proof (unread_NewReader (encodeCel cel r5 compressed)) as U0.
  assert (S0 : Reader.s (NewReader (encodeCel cel r5 compressed))
               = encodeCel cel r5 compressed) by reflexivity.
  generalize dependent (NewReader (encodeCel cel r5 compressed)).
  intros r0 U0 S0.
  set (data := encodeCel cel r5 compressed) in *.
  unfold encodeCel in U0. simpl in U0.
  assert (Hty : isUint16 (Cel.Type_ cel)) by (rewrite Ht; unfold isUint16; lia).
  do 7 read_back_s.
  rewrite Ht. cbn [Z.eqb Pos.eqb].
  do 2 read_back_s.
  match goal with
  | U : Reader.unread ?r = compressed, S : Reader.s ?r = data |- _ =>
      unfold Reader.Size, Reader.Len; rewrite S, U;
      replace (len data - len data + len compressed) with (len compressed)
        by lia;
      rewrite <- (app_nil_r compressed) in U;
      destruct (ReadFull_app r _ _ U) as (r' & -> & _)
  end.
  cbn [bind]. destruct (zlib_ReadAll compressed); [|reflexivity].
  cbn [bind]. unfold withPixels. now rewrite Ht.
Qed.
End CompressedCel.

Lemma cornerCel_wf : wfCel cornerCel.
Proof. unfold wfCel, isUint16, isInt16. simpl. lia. Qed.

Lemma parseCelChunk_compressed_witness :
  parseCelChunk storedZlib
    (encodeCel cornerCel (replicate 5 x00) [x01; x02; x03; x04])
  = Ok (withPixels cornerCel [x01; x02; x03; x04])
  /\ parseCelChunk failingZlib
       (encodeCel cornerCel (replicate 5 x00) [x01; x02; x03; x04])
     = Err (ErrZlib 1).
Proof.
  split.
  - apply (parseCelChunk_compressed storedZlib cornerCel (replicate 5 x00)
             [x01; x02; x03; x04] cornerCel_wf eq_refl).
  - apply (parseCelChunk_compressed failingZlib cornerCel (replicate 5 x00)
             [x01; x02; x03; x04] cornerCel_wf eq_refl).
Defined.

(** * The canvas *)

Lemma NewRGBA_wf w h : 0 <= w -> 0 <= h -> wfImage (Image.NewRGBA w h).
Proof.
  intros Hw Hh. unfold wfImage, Image.NewRGBA, len. simpl.
  rewrite length_replicate. repeat split; try assumption.
  rewrite Z2Nat.id; nia.
Qed.

Lemma At_NewRGBA w h u v : Image.At (Image.NewRGBA w h) u v = RGBA.zero.
Proof.
  unfold Image.At, Image.NewRGBA. simpl.
  destruct (Image.inside _ u v); [|reflexivity].
  destruct (replicate _ _ !! _) eqn:E; [|reflexivity].
  apply lookup_replicate in E. simpl. apply E.
Qed.

Lemma inside_spec img x y :
  Image.inside img x y = true
  <-> 0 <= x < Image.Dx img /\ 0 <= y < Image.Dy img.
Proof.
  unfold Image.inside. rewrite !andb_true_iff, !Z.leb_le, !Z.ltb_lt. lia.
Qed.

Lemma Set_dims img x y c :
  Image.Dx (Image.Set_ img x y c) = Image.Dx img
  /\ Image.Dy (Image.Set_ img x y c) = Image.Dy img.
Proof. unfold Image.Set_. destruct (Image.inside img x y); auto. Qed.

Lemma Set_wf img x y c : wfImage img -> wfImage (Image.Set_ img x y c).
Proof.
  unfold wfImage, Image.Set_, len. intros H.
  destruct (Image.inside img x y); [|exact H]. simpl.
  now rewrite length_insert.
Qed.

Lemma pixel_offset_inj d x y x' y' :
  0 <= x < d -> 0 <= x' < d -> 0 <= y -> 0 <= y' ->
  y * d + x = y' * d + x' -> x = x' /\ y = y'.
Proof.
  intros Hx Hx' Hy Hy' H.
  assert (y = y') by nia. subst. lia.
Qed.

(** Reading a position of the canvas after a write. *)
Lemma At_Set img x y c u v :
  wfImage img ->
  Image.inside img u v = true ->
  Image.At (Image.Set_ img x y c) u v
  = if (x =? u) && (y =? v) then c else Image.At img u v.
Proof.
  intros (Hdx & Hdy & Hlen) Hin. pose proof Hin as Huv.
  apply inside_spec in Huv. unfold Image.Set_.
  destruct (Image.inside img x y) eqn:Hxy.
  - apply inside_spec in Hxy. unfold Image.At. simpl.
    unfold Image.inside in *. simpl. rewrite Hin.
    destruct (Z.eqb_spec x u) as [->|Hne]; simpl.
    + destruct (Z.eqb_spec y v) as [->|Hne'].
      * rewrite list_lookup_insert_eq; [reflexivity|].
        unfold len in Hlen. nia.
      * rewrite list_lookup_insert_ne; [reflexivity|].
        intros E. apply Z2Nat.inj in E; try nia.
    + rewrite list_lookup_insert_ne; [reflexivity|].
      intros E. apply Z2Nat.inj in E; try nia.
      destruct (pixel_offset_inj (Image.Dx img) x y u v) as [? ?];
        try lia.
  - destruct (Z.eqb_spec x u) as [->|Hne]; [|reflexivity].
    destruct (Z.eqb_spec y v) as [->|Hne']; [|reflexivity].
    congruence.
Qed.

(** * drawCelToImage, pixel by pixel *)

Lemma upto_nonpos n : n <= 0 -> upto n = [].
Proof.
  intros H. unfold upto. replace (Z.to_nat n) with 0%nat by lia. reflexivity.
Qed.

Lemma upto_succ k : 0 <= k -> upto (k + 1) = upto k ++ [k].
Proof.
  intros H. unfold upto.
  replace (Z.to_nat (k + 1)) with (S (Z.to_nat k)) by lia.
  rewrite seq_S, map_app. simpl. now rewrite Z2Nat.id.
Qed.

(** A loop [for k := 0; k < n; k++] keeps what holds before it and is
    carried over by each of its rounds. *)
Lemma fold_upto_ind {A} (f : A -> Z -> A) (P : Z -> A -> Prop) (a : A) :
  P 0 a ->
  (forall k b, 0 <= k -> P k b -> P (k + 1) (f b k)) ->
  forall n, 0 <= n -> P n (fold_left f (upto n) a).
Proof.
  intros H0 Hstep n Hn. pattern n. apply natlike_ind; [exact H0| |exact Hn].
  intros k Hk IH. unfold Z.succ. rewrite upto_succ, fold_left_app by lia.
  simpl. now apply Hstep.
Qed.

Lemma drawPixel_dims cel d y img x :
  Image.Dx (drawPixel cel d y img x) = Image.Dx img
  /\ Image.Dy (drawPixel cel d y img x) = Image.Dy img.
Proof.
  unfold drawPixel. destruct (celPixel cel d x y); [|auto].
  destruct (_ && _); [apply Set_dims|auto].
Qed.

Lemma drawPixel_wf cel d y img x :
  wfImage img -> wfImage (drawPixel cel d y img x).
Proof.
  intros H. unfold drawPixel. destruct (celPixel cel d x y); [|exact H].
  destruct (_ && _); [now apply Set_wf|exact H].
Qed.

Lemma drawPixel_At cel d y img x u v :
  wfImage img ->
  Image.inside img u v = true ->
  Image.At (drawPixel cel d y img x) u v
  = if (Cel.X cel + x =? u) && (Cel.Y cel + y =? v) then
      match celPixel cel d x y with
      | Some c => c
      | None => Image.At img u v
      end
    else Image.At img u v.
Proof.
  intros Hwf Hin. unfold drawPixel.
  destruct (celPixel cel d x y) as [c|]; [|now destruct (_ && _)].
  destruct ((Cel.X cel + x >=? 0) && (Cel.Y cel + y >=? 0)
            && (Cel.X cel + x <? Image.Dx img)
            && (Cel.Y cel + y <? Image.Dy img)) eqn:B.
  - now apply At_Set.
  - destruct (Z.eqb_spec (Cel.X cel + x) u) as [Hu|]; [|reflexivity].
    destruct (Z.eqb_spec (Cel.Y cel + y) v) as [Hv|]; [|reflexivity].
    apply inside_spec in Hin. exfalso. subst u v.
    rewrite !andb_false_iff in B. rewrite !Z.geb_leb in B.
    rewrite !Z.leb_gt, !Z.ltb_ge in B. lia.
Qed.

(** The canvas after the pixels [0 .. k-1] of row [y]. *)
Lemma drawRow_upto cel d y img k :
  wfImage img -> 0 <= k ->
  let img' := fold_left (drawPixel cel d y) (upto k) img in
  Image.Dx img' = Image.Dx img /\ Image.Dy img' = Image.Dy img
  /\ wfImage img'
  /\ forall u v,
       Image.inside img u v = true ->
       Image.At img' u v
       = if (v =? Cel.Y cel + y) && (0 <=? u - Cel.X cel)
            && (u - Cel.X cel <? k)
         then match celPixel cel d (u - Cel.X cel) y with
              | Some c => c
              | None => Image.At img u v
              end
         else Image.At img u v.
Proof.
  intros Hwf Hk. cbv zeta.
  apply (fold_upto_ind (drawPixel cel d y)
           (fun k b =>
              Image.Dx b = Image.Dx img /\ Image.Dy b = Image.Dy img
              /\ wfImage b
              /\ forall u v,
                   Image.inside img u v = true ->
                   Image.At b u v
                   = if (v =? Cel.Y cel + y) && (0 <=? u - Cel.X cel)
                        && (u - Cel.X cel <? k)
                     then match celPixel cel d (u - Cel.X cel) y with
                          | Some c => c
                          | None => Image.At img u v
                          end
                     else Image.At img u v)); [| |exact Hk].
  - repeat split; try apply Hwf. intros u v _.
    destruct (v =? _); simpl; [|reflexivity].
    destruct (0 <=? u - Cel.X cel) eqn:E; simpl; [|reflexivity].
    apply Z.leb_le in E.
    destruct (Z.ltb_spec (u - Cel.X cel) 0); [lia|reflexivity].
  - intros j b Hj (Hdx & Hdy & Hb & Hat).
    destruct (drawPixel_dims cel d y b j) as [Ex Ey].
    split; [congruence|]. split; [congruence|].
    split; [now apply drawPixel_wf|].
    intros u v Hin.
    assert (Hinb : Image.inside b u v = true).
    { apply inside_spec. apply inside_spec in Hin. lia. }
    rewrite (drawPixel_At cel d y b j u v Hb Hinb), (Hat u v Hin).
    destruct (Z.eqb_spec (Cel.X cel + j) u) as [Hu|Hu]; simpl.
    + destruct (Z.eqb_spec (Cel.Y cel + y) v) as [Hv|Hv].
      * replace (u - Cel.X cel) with j by lia.
        destruct (Z.eqb_spec v (Cel.Y cel + y)); [|lia]. simpl.
        destruct (Z.leb_spec 0 j); [|lia]. simpl.
        destruct (Z.ltb_spec j j); [lia|].
        destruct (Z.ltb_spec j (j + 1)); [|lia].
        now destruct (celPixel cel d j y).
      * destruct (Z.eqb_spec v (Cel.Y cel + y)); [lia|reflexivity].
    + destruct (v =? Cel.Y cel + y); simpl; [|reflexivity].
      destruct (0 <=? u - Cel.X cel); simpl; [|reflexivity].
      destruct (Z.ltb_spec (u - Cel.X cel) j);
        destruct (Z.ltb_spec (u - Cel.X cel) (j + 1)); try reflexivity; lia.
Qed.

Lemma drawRow_At cel d img y :
  wfImage img ->
  let img' := drawRow cel d img y in
  Image.Dx img' = Image.Dx img /\ Image.Dy img' = Image.Dy img
  /\ wfImage img'
  /\ forall u v,
       Image.inside img u v = true ->
       Image.At img' u v
       = if (v =? Cel.Y cel + y) && (0 <=? u - Cel.X cel)
            && (u - Cel.X cel <? Cel.Width cel)
         then match celPixel cel d (u - Cel.X cel) y with
              | Some c => c
              | None => Image.At img u v
              end
         else Image.At img u v.
Proof.
  intros Hwf. cbv zeta. unfold drawRow.
  destruct (Z.neg_nonneg_cases (Cel.Width cel)) as [Hneg|Hpos].
  - rewrite upto_nonpos by lia. simpl.
    repeat split; try apply Hwf. intros u v _.
    destruct (v =? _); simpl; [|reflexivity].
    destruct (Z.leb_spec 0 (u - Cel.X cel)); simpl; [|reflexivity].
    destruct (Z.ltb_spec (u - Cel.X cel) (Cel.Width cel)); [lia|reflexivity].
  - apply (drawRow_upto cel d y img (Cel.Width cel) Hwf Hpos).
Qed.

(** The canvas after the rows [0 .. k-1] of the cel. *)
Lemma drawRows_upto cel d img k :
  wfImage img -> 0 <= k ->
  let img' := fold_left (drawRow cel d) (upto k) img in
  Image.Dx img' = Image.Dx img /\ Image.Dy img' = Image.Dy img
  /\ wfImage img'
  /\ forall u v,
       Image.inside img u v = true ->
       Image.At img' u v
       = if (0 <=? u - Cel.X cel) && (u - Cel.X cel <? Cel.Width cel)
            && (0 <=? v - Cel.Y cel) && (v - Cel.Y cel <? k)
         then match celPixel cel d (u - Cel.X cel) (v - Cel.Y cel) with
              | Some c => c
              | None => Image.At img u v
              end
         else Image.At img u v.
Proof.
  intros Hwf Hk. cbv zeta.
  apply (fold_upto_ind (drawRow cel d)
           (fun k b =>
              Image.Dx b = Image.Dx img /\ Image.Dy b = Image.Dy img
              /\ wfImage b
              /\ forall u v,
                   Image.inside img u v = true ->
                   Image.At b u v
                   = if (0 <=? u - Cel.X cel)
                        && (u - Cel.X cel <? Cel.Width cel)
                        && (0 <=? v - Cel.Y cel) && (v - Cel.Y cel <? k)
                     then match celPixel cel d (u - Cel.X cel)
                                  (v - Cel.Y cel) with
                          | Some c => c
                          | None => Image.At img u v
                          end
                     else Image.At img u v)); [| |exact Hk].
  - repeat split; try apply Hwf. intros u v _.
    destruct (_ && _) eqn:E; [|reflexivity].
    rewrite !andb_true_iff, !Z.leb_le, !Z.ltb_lt in E. lia.
  - intros j b Hj (Hdx & Hdy & Hb & Hat).
    destruct (drawRow_At cel d b j Hb) as (Ex & Ey & Hb' & Hat').
    split; [congruence|]. split; [congruence|]. split; [exact Hb'|].
    intros u v Hin.
    assert (Hinb : Image.inside b u v = true).
    { apply inside_spec. apply inside_spec in Hin. lia. }
    rewrite (Hat' u v Hinb), (Hat u v Hin).
    destruct (Z.leb_spec 0 (u - Cel.X cel)); simpl;
      [|now rewrite !andb_false_r].
    destruct (Z.ltb_spec (u - Cel.X cel) (Cel.Width cel)); simpl;
      [|now rewrite !andb_false_r].
    rewrite !andb_true_r.
    destruct (Z.eqb_spec v (Cel.Y cel + j)) as [Hv|Hv].
    + replace (v - Cel.Y cel) with j by lia.
      destruct (Z.leb_spec 0 j); [|lia]. simpl.
      destruct (Z.ltb_spec j j); [lia|].
      destruct (Z.ltb_spec j (j + 1)); [|lia].
      now destruct (celPixel cel d (u - Cel.X cel) j).
    + destruct (0 <=? v - Cel.Y cel); simpl; [|reflexivity].
      destruct (Z.ltb_spec (v - Cel.Y cel) j);
        destruct (Z.ltb_spec (v - Cel.Y cel) (j + 1)); try reflexivity; lia.
Qed.

Lemma drawCelToImage_At img cel d img' :
  wfImage img ->
  drawCelToImage img cel d = Ok img' ->
  Image.Dx img' = Image.Dx img /\ Image.Dy img' = Image.Dy img
  /\ wfImage img'
  /\ forall u v,
       Image.inside img u v = true ->
       Image.At img' u v
       = match celAt cel d u v with
         | Some c => c
         | None => Image.At img u v
         end.
Proof.
  intros Hwf H. unfold drawCelToImage in H.
  destruct (len (Cel.Pixels cel) =? 0); [discriminate|].
  injection H as <-.
  destruct (Z.neg_nonneg_cases (Cel.Height cel)) as [Hneg|Hpos].
  - rewrite upto_nonpos by lia. simpl.
    repeat split; try apply Hwf. intros u v _. unfold celAt.
    destruct (_ && _) eqn:E; [|reflexivity].
    rewrite !andb_true_iff, !Z.leb_le, !Z.ltb_lt in E. lia.
  - destruct (drawRows_upto cel d img (Cel.Height cel) Hwf Hpos)
      as (Ex & Ey & Hw' & Hat).
    split; [exact Ex|]. split; [exact Ey|]. split; [exact Hw'|].
    intros u v Hin. rewrite (Hat u v Hin). unfold celAt.
    destruct (_ && _); [|reflexivity].
    now destruct (celPixel _ _ _ _).
Qed.

Lemma bytesPerPixel_pos d : 0 <= d -> 1 <= bytesPerPixel d.
Proof.
  intros Hd. unfold bytesPerPixel.
  destruct (Z.eqb_spec (d / 8) 0); [lia|].
  pose proof (Z.div_pos d 8 Hd ltac:(lia)). lia.
Qed.

(** A cel without pixel data has no colour for any position. *)
Lemma celAt_no_pixels cel d u v :
  0 <= d -> len (Cel.Pixels cel) = 0 -> celAt cel d u v = None.
Proof.
  intros Hd H. unfold celAt, celPixel. rewrite H.
  destruct (_ && _) eqn:E; [|reflexivity].
  rewrite !andb_true_iff, !Z.leb_le, !Z.ltb_lt in E.
  pose proof (bytesPerPixel_pos d Hd).
  assert (0 <= (v - Cel.Y cel) * Cel.Width cel)
    by (apply Z.mul_nonneg_nonneg; lia).
  assert (0 <= ((v - Cel.Y cel) * Cel.Width cel + (u - Cel.X cel))
               * bytesPerPixel d)
    by (apply Z.mul_nonneg_nonneg; lia).
  destruct (Z.gtb_spec ((((v - Cel.Y cel) * Cel.Width cel + (u - Cel.X cel))
                         * bytesPerPixel d) + bytesPerPixel d) 0);
    [reflexivity|lia].
Qed.

Lemma composite_At d img cel :
  0 <= d ->
  wfImage img ->
  Image.Dx (composite d img cel) = Image.Dx img
  /\ Image.Dy (composite d img cel) = Image.Dy img
  /\ wfImage (composite d img cel)
  /\ forall u v,
       Image.inside img u v = true ->
       Image.At (composite d img cel) u v
       = match celAt cel d u v with
         | Some c => c
         | None => Image.At img u v
         end.
Proof.
  intros Hd Hwf. unfold composite.
  destruct (drawCelToImage img cel d) as [img'|e] eqn:E.
  - now apply drawCelToImage_At.
  - repeat split; try apply Hwf. intros u v _.
    unfold drawCelToImage in E.
    destruct (Z.eqb_spec (len (Cel.Pixels cel)) 0) as [H0|]; [|discriminate].
    now rewrite celAt_no_pixels.
Qed.

Lemma composites_At d cels : forall img,
  0 <= d ->
  wfImage img ->
  let img' := fold_left (composite d) cels img in
  Image.Dx img' = Image.Dx img /\ Image.Dy img' = Image.Dy img
  /\ wfImage img'
  /\ forall u v,
       Image.inside img u v = true ->
       Image.At img' u v = topColor d cels u v (Image.At img u v).
Proof.
  induction cels as [|cel cels IH]; intros img Hd Hwf; cbv zeta.
  - simpl. repeat split; try apply Hwf.
  - simpl. destruct (composite_At d img cel Hd Hwf) as (Ex & Ey & Hw & Hat).
    destruct (IH (composite d img cel) Hd Hw) as (Ex' & Ey' & Hw' & Hat').
    split; [congruence|]. split; [congruence|]. split; [exact Hw'|].
    intros u v Hin.
    assert (Hin' : Image.inside (composite d img cel) u v = true).
    { apply inside_spec. apply inside_spec in Hin. lia. }
    rewrite (Hat' u v Hin'), (Hat u v Hin). reflexivity.
Qed.

(** * drawCelToImage and GetFrameImage: what is on the canvas *)

(** X13: drawing a cel keeps the size of the canvas and changes only the
    positions for which the cel has a colour: such a position inside the
    canvas takes that colour as it is, without blending, what lies outside
    the canvas is dropped, and every other position keeps its colour. *)
Theorem drawCelToImage_pixels
  (img : Image.t) (cel : Cel.t) (colorDepth : Z) (img' : Image.t)
  (Hwf : wfImage img)
  (Hok : drawCelToImage img cel colorDepth = Ok img') :
  Image.Dx img' = Image.Dx img /\ Image.Dy img' = Image.Dy img
  /\ len (Image.Pix img') = len (Image.Pix img)
  /\ forall u v,
       Image.At img' u v
       = match celAt cel colorDepth u v with
         | Some c => if Image.inside img u v then c else RGBA.zero
         | None => Image.At img u v
         end.
Proof.
  destruct (drawCelToImage_At img cel colorDepth img' Hwf Hok)
    as (Ex & Ey & Hw' & Hat).
  split; [exact Ex|]. split; [exact Ey|]. split.
  - destruct Hwf as (_ & _ & Hl). destruct Hw' as (_ & _ & Hl'). congruence.
  - intros u v. destruct (Image.inside img u v) eqn:Hin.
    + rewrite (Hat u v Hin). now destruct (celAt cel colorDepth u v).
    + assert (Hin' : Image.inside img' u v = false).
      { unfold Image.inside in *. now rewrite Ex, Ey. }
      unfold Image.At. rewrite Hin, Hin'.
      now destruct (celAt cel colorDepth u v).
Qed.

Lemma drawCelToImage_pixels_witness :
  exists img',
    drawCelToImage (Image.NewRGBA 2 2) cornerCel 32 = Ok img'
    /\ Image.At img' 0 0 = RGBA.mk x04 x05 x06 x80
    /\ Image.At img' 1 0 = RGBA.zero.
Proof.
  destruct (drawCelToImage (Image.NewRGBA 2 2) cornerCel 32) as [img'|e] eqn:E;
    [|vm_compute in E; discriminate].
  exists img'. split; [reflexivity|].
  destruct (drawCelToImage_pixels (Image.NewRGBA 2 2) cornerCel 32 img'
              (NewRGBA_wf 2 2 ltac:(lia) ltac:(lia)) E) as (_ & _ & _ & Hat).
  split; rewrite Hat; vm_compute; reflexivity.
Defined.

(** X14: of two cels drawn one after the other, the second decides every
    position it has a colour for, and the first shows only where the
    second has none. *)
Theorem composite_last_writer_wins
  (img : Image.t) (first second : Cel.t) (colorDepth : Z) (u v : Z)
  (Hdepth : 0 <= colorDepth)
  (Hwf : wfImage img)
  (Hin : Image.inside img u v = true) :
  Image.At (composite colorDepth (composite colorDepth img first) second) u v
  = match celAt second colorDepth u v with
    | Some c => c
    | None =>
        match celAt first colorDepth u v with
        | Some c => c
        | None => Image.At img u v
        end
    end.
Proof.
  destruct (composite_At colorDepth img first Hdepth Hwf)
    as (Ex & Ey & Hw & Hat).
  destruct (composite_At colorDepth _ second Hdepth Hw) as (_ & _ & _ & Hat').
  assert (Hin' : Image.inside (composite colorDepth img first) u v = true).
  { unfold Image.inside in *. now rewrite Ex, Ey. }
  rewrite (Hat' u v Hin'). destruct (celAt second colorDepth u v);
    [reflexivity|apply (Hat u v Hin)].
Qed.

Lemma composite_last_writer_wins_witness :
  Image.At (composite 32 (composite 32 (Image.NewRGBA 2 2) baseCel) cornerCel)
    0 0 = RGBA.mk x04 x05 x06 x80
  /\ Image.At (composite 32 (composite 32 (Image.NewRGBA 2 2) baseCel)
                 cornerCel) 1 1 = RGBA.mk x40 x41 x42 xff.
Proof.
  split.
  - rewrite (composite_last_writer_wins (Image.NewRGBA 2 2) baseCel cornerCel
               32 0 0 ltac:(lia) (NewRGBA_wf 2 2 ltac:(lia) ltac:(lia))
               eq_refl).
    vm_compute. reflexivity.
  - rewrite (composite_last_writer_wins (Image.NewRGBA 2 2) baseCel cornerCel
               32 1 1 ltac:(lia) (NewRGBA_wf 2 2 ltac:(lia) ltac:(lia))
               eq_refl).
    vm_compute. reflexivity.
Defined.

Section FrameRaster.
Variable zlib_ReadAll : list byte -> result (list byte).

(** X15: for a frame index in range [GetFrameImage] returns a raster of the
    width and height of the header, and every pixel of it has the colour of
    the last cel of the frame that decodes and has a colour for it, or is
    transparent black when there is none. *)
Theorem GetFrameImage_raster
  (f : File.t) (frameIndex : Z) (frame : Frame.t)
  (Hframe : index (File.Frames f) frameIndex = Some frame)
  (Hheader : wfHeader (File.Header f)) :
  exists img,
    GetFrameImage zlib_ReadAll f frameIndex = Returns (Ok img)
    /\ Image.Dx img = Header.Width (File.Header f)
    /\ Image.Dy img = Header.Height (File.Header f)
    /\ len (Image.Pix img)
       = Header.Width (File.Header f) * Header.Height (File.Header f)
    /\ forall u v,
         Image.inside img u v = true ->
         Image.At img u v
         = topColor (Header.ColorDepth (File.Header f))
             (decodedCels zlib_ReadAll (Frame.Chunks frame)) u v RGBA.zero.
Proof.
  destruct Hheader as (_ & _ & _ & Hw & Hh & Hd & _).
  unfold isUint16 in *.
  rewrite (GetFrameImage_in_range zlib_ReadAll f frameIndex frame Hframe).
  eexists. split; [reflexivity|].
  assert (Hblank : wfImage (Image.NewRGBA (Header.Width (File.Header f))
                              (Header.Height (File.Header f))))
    by (apply NewRGBA_wf; lia).
  destruct (composites_At (Header.ColorDepth (File.Header f))
              (decodedCels zlib_ReadAll (Frame.Chunks frame)) _
              (proj1 Hd) Hblank)
    as (Ex & Ey & Hwf & Hat).
  split; [exact Ex|]. split; [exact Ey|]. split.
  - destruct Hwf as (_ & _ & Hl). rewrite Hl, Ex, Ey. reflexivity.
  - intros u v Hin. rewrite Hat.
    + now rewrite At_NewRGBA.
    + unfold Image.inside in *. now rewrite Ex, Ey in Hin.
Qed.

(** X16: every frame of a file that [ParseFile] has returned can be
    rendered: for each index below the frame count of the header
    [GetFrameImage] returns a raster, neither an error nor a panic, and
    the raster has the width and height of the header. *)
Theorem ParseFile_frames_render
  (data : list byte) (f : File.t) (frameIndex : Z)
  (Hok : ParseFile data = Ok f)
  (Hindex : 0 <= frameIndex < Header.Frames (File.Header f)) :
  exists img,
    GetFrameImage zlib_ReadAll f frameIndex = Returns (Ok img)
    /\ Image.Dx img = Header.Width (File.Header f)
    /\ Image.Dy img = Header.Height (File.Header f).
Proof.
  destruct (ParseFile_ok_inv data f Hok) as (Hwf & Hn).
  assert (Hex : exists frame, index (File.Frames f) frameIndex = Some frame).
  { unfold index. destruct (Z.ltb_spec frameIndex 0); [lia|].
    apply lookup_lt_is_Some_2. unfold len in Hn. lia. }
  destruct Hex as (frame & Hframe).
  unfold GetFrameImage.
  destruct (Z.geb_spec frameIndex (len (File.Frames f))); [lia|].
  rewrite Hframe. eexists. split; [reflexivity|].
  destruct Hwf as (_ & _ & _ & Hw & Hh & Hd & _). unfold isUint16 in *.
  rewrite drawChunks_composite.
  assert (Hblank : wfImage (Image.NewRGBA (Header.Width (File.Header f))
                              (Header.Height (File.Header f))))
    by (apply NewRGBA_wf; lia).
  destruct (composites_At (Header.ColorDepth (File.Header f))
              (decodedCels zlib_ReadAll (Frame.Chunks frame)) _
              (proj1 Hd) Hblank)
    as (Ex & Ey & _).
  split; [exact Ex|exact Ey].
Qed.
End FrameRaster.

Lemma sampleFile_header_wf : wfHeader (File.Header sampleFile).
Proof. unfold wfHeader, isUint16, isUint32, isInt16. simpl. lia. Qed.

Lemma GetFrameImage_raster_witness :
  exists img,
    GetFrameImage storedZlib sampleFile 0 = Returns (Ok img)
    /\ Image.Dx img = 2 /\ Image.Dy img = 1
    /\ Image.At img 1 0 = RGBA.mk x0a x14 x1e xff.
Proof.
  destruct (GetFrameImage_raster storedZlib sampleFile 0 _ eq_refl
              sampleFile_header_wf) as (img & E & Ex & Ey & _ & Hat).
  exists img. split; [exact E|]. split; [exact Ex|]. split; [exact Ey|].
  rewrite Hat.
  - vm_compute. reflexivity.
  - unfold Image.inside. rewrite Ex, Ey. reflexivity.
Defined.

Lemma ParseFile_frames_render_witness :
  exists img,
    GetFrameImage storedZlib layoutFile 0 = Returns (Ok img)
    /\ Image.Dx img = 2 /\ Image.Dy img = 1.
Proof.
  assert (E : ParseFile (encodeFile layoutFile) = Ok layoutFile)
    by (vm_compute; reflexivity).
  apply (ParseFile_frames_render storedZlib (encodeFile layoutFile)
           layoutFile 0 E).
  simpl. lia.
Defined.

(** * Colours on the canvas: the opacity and unsupported depths *)

(** A pixel that has its source bytes is not skipped. *)
Lemma celPixel_Some cel d x y :
  (y * Cel.Width cel + x) * bytesPerPixel d + bytesPerPixel d
  <= len (Cel.Pixels cel) ->
  celPixel cel d x y
  = Some (applyOpacity
            (resolveColor (Cel.Pixels cel)
               ((y * Cel.Width cel + x) * bytesPerPixel d) d)
            (Cel.Opacity cel)).
Proof.
  intros H. unfold celPixel.
  destruct (Z.gtb_spec ((y * Cel.Width cel + x) * bytesPerPixel d
                        + bytesPerPixel d) (len (Cel.Pixels cel)));
    [lia|reflexivity].
Qed.

Lemma celAt_offset cel d x y :
  0 <= x < Cel.Width cel -> 0 <= y < Cel.Height cel ->
  celAt cel d (Cel.X cel + x) (Cel.Y cel + y) = celPixel cel d x y.
Proof.
  intros Hx Hy. unfold celAt.
  replace (Cel.X cel + x - Cel.X cel) with x by lia.
  replace (Cel.Y cel + y - Cel.Y cel) with y by lia.
  destruct (_ && _) eqn:E; [reflexivity|].
  rewrite !andb_false_iff, !Z.leb_gt, !Z.ltb_ge in E. lia.
Qed.

(** What the pixel loop leaves on the canvas for the pixel [(x, y)] of the
    cel: the resolved colour behind the opacity step. *)
Lemma drawCelToImage_written img cel d img' x y :
  wfImage img ->
  drawCelToImage img cel d = Ok img' ->
  0 <= x < Cel.Width cel -> 0 <= y < Cel.Height cel ->
  (y * Cel.Width cel + x) * bytesPerPixel d + bytesPerPixel d
  <= len (Cel.Pixels cel) ->
  Image.inside img (Cel.X cel + x) (Cel.Y cel + y) = true ->
  Image.At img' (Cel.X cel + x) (Cel.Y cel + y)
  = applyOpacity
      (resolveColor (Cel.Pixels cel)
         ((y * Cel.Width cel + x) * bytesPerPixel d) d)
      (Cel.Opacity cel).
Proof.
  intros Hwf Hok Hx Hy Hsrc Hin.
  destruct (drawCelToImage_At img cel d img' Hwf Hok) as (_ & _ & _ & Hat).
  rewrite (Hat _ _ Hin), (celAt_offset cel d x y Hx Hy).
  now rewrite (celPixel_Some cel d x y Hsrc).
Qed.

(** C8: the alpha on the canvas.  For every pixel of a cel that the loop
    of [drawCelToImage] writes (a pixel of the cel's rectangle that has its
    source bytes and falls inside the canvas), with [a] the alpha of the
    resolved colour and [o] the opacity of the cel: the 16-bit product is
    [a * o] without overflow, the alpha found on the canvas behind the
    draw is the floor of [a * o / 255], and red, green and blue are those
    of the resolved colour. *)
Theorem drawCelToImage_alpha
  (img img' : Image.t) (cel : Cel.t) (colorDepth x y : Z)
  (Hwf : wfImage img)
  (Hok : drawCelToImage img cel colorDepth = Ok img')
  (Hx : 0 <= x < Cel.Width cel) (Hy : 0 <= y < Cel.Height cel)
  (Hsrc : (y * Cel.Width cel + x) * bytesPerPixel colorDepth
          + bytesPerPixel colorDepth <= len (Cel.Pixels cel))
  (Hin : Image.inside img (Cel.X cel + x) (Cel.Y cel + y) = true) :
  let resolved :=
    resolveColor (Cel.Pixels cel)
      ((y * Cel.Width cel + x) * bytesPerPixel colorDepth) colorDepth in
  let a := byte.unsigned (RGBA.A resolved) in
  let o := byte.unsigned (Cel.Opacity cel) in
  let written := Image.At img' (Cel.X cel + x) (Cel.Y cel + y) in
  0 <= a <= 255 /\ 0 <= o <= 255
  /\ uint16 (uint16 a * uint16 o) = a * o
  /\ a * o < 2 ^ 16
  /\ byte.unsigned (RGBA.A written) = a * o / 255
  /\ RGBA.R written = RGBA.R resolved
  /\ RGBA.G written = RGBA.G resolved
  /\ RGBA.B written = RGBA.B resolved.
Proof.
  intros resolved a o written.
  assert (Hw : written = applyOpacity resolved (Cel.Opacity cel))
    by exact (drawCelToImage_written img cel colorDepth img' x y
                Hwf Hok Hx Hy Hsrc Hin).
  destruct (opacity_product (RGBA.A resolved) (Cel.Opacity cel))
    as (Hu & Hp).
  fold a o in Hu, Hp.
  split; [exact (byte_unsigned_255 (RGBA.A resolved))|].
  split; [exact (byte_unsigned_255 (Cel.Opacity cel))|].
  split; [exact Hu|]. split; [lia|].
  rewrite Hw. split; [apply applyOpacity_A|].
  repeat split; reflexivity.
Qed.

Lemma drawCelToImage_alpha_witness :
  exists img',
    drawCelToImage (Image.NewRGBA 1 1) (alphaCel x64 xc8 x80) 16 = Ok img'
    /\ byte.unsigned (RGBA.A (Image.At img' 0 0)) = 100
    /\ RGBA.R (Image.At img' 0 0) = x64.
Proof.
  destruct (drawCelToImage (Image.NewRGBA 1 1) (alphaCel x64 xc8 x80) 16)
    as [img'|e] eqn:E; [|vm_compute in E; discriminate].
  exists img'. split; [reflexivity|].
  assert (Hwf : wfImage (Image.NewRGBA 1 1)) by (apply NewRGBA_wf; lia).
  assert (Hx : 0 <= 0 < Cel.Width (alphaCel x64 xc8 x80))
    by (simpl; lia).
  assert (Hy : 0 <= 0 < Cel.Height (alphaCel x64 xc8 x80))
    by (simpl; lia).
  assert (Hsrc : (0 * Cel.Width (alphaCel x64 xc8 x80) + 0) * bytesPerPixel 16
                 + bytesPerPixel 16
                 <= len (Cel.Pixels (alphaCel x64 xc8 x80)))
    by (vm_compute; discriminate).
  destruct (drawCelToImage_alpha (Image.NewRGBA 1 1) img'
              (alphaCel x64 xc8 x80) 16 0 0 Hwf E Hx Hy Hsrc eq_refl)
    as (_ & _ & _ & _ & HA & HR & _).
  split; [exact HA|exact HR].
Defined.

(** Every pair of an alpha and an opacity is met by a draw: the 1x1
    grayscale cel with that alpha and opacity leaves the floor of
    [alpha * opacity / 255] on a 1x1 canvas. *)
Lemma alphaCel_written (gray alpha opacity : byte) :
  exists img',
    drawCelToImage (Image.NewRGBA 1 1) (alphaCel gray alpha opacity) 16
    = Ok img'
    /\ byte.unsigned (RGBA.A (Image.At img' 0 0))
       = byte.unsigned alpha * byte.unsigned opacity / 255.
Proof.
  destruct (drawCelToImage (Image.NewRGBA 1 1) (alphaCel gray alpha opacity)
              16) as [img'|e] eqn:E; [|discriminate].
  exists img'. split; [reflexivity|].
  assert (Hwf : wfImage (Image.NewRGBA 1 1)) by (apply NewRGBA_wf; lia).
  pose proof (drawCelToImage_written (Image.NewRGBA 1 1)
                (alphaCel gray alpha opacity) 16 img' 0 0 Hwf E) as H.
  cbn [alphaCel Cel.Width Cel.Height Cel.X Cel.Y Cel.Pixels Cel.Opacity]
    in H.
  assert (Hsrc : (0 * 1 + 0) * bytesPerPixel 16 + bytesPerPixel 16
                 <= len [gray; alpha]) by (vm_compute; discriminate).
  specialize (H ltac:(lia) ltac:(lia) Hsrc eq_refl).
  change (0 + 0) with 0 in H. rewrite H, applyOpacity_A. reflexivity.
Qed.

(** Without a case for the colour depth the colour stays the zero value. *)
Lemma celPixel_no_case cel colorDepth x y c :
  colorDepth <> 8 -> colorDepth <> 16 -> colorDepth <> 32 ->
  celPixel cel colorDepth x y = Some c -> c = RGBA.zero.
Proof.
  intros H8 H16 H32 Hpixel. unfold celPixel in Hpixel.
  destruct (_ >? _); [discriminate|]. injection Hpixel as <-.
  unfold resolveColor.
  destruct (Z.eqb_spec colorDepth 32); [contradiction|].
  destruct (Z.eqb_spec colorDepth 16); [contradiction|].
  destruct (Z.eqb_spec colorDepth 8); [contradiction|].
  reflexivity.
Qed.

(** X17: under a colour depth other than 8, 16 and 32 no source byte is
    looked at: every pixel of a cel that is not skipped is the zero colour,
    transparent black, and that is what the cel writes to the canvas: behind
    the draw every position the cel has a pixel for is transparent black,
    whatever was there, and every other position is as before. *)
Theorem drawCelToImage_unsupported_depth
  (cel : Cel.t) (colorDepth : Z)
  (H8 : colorDepth <> 8) (H16 : colorDepth <> 16) (H32 : colorDepth <> 32) :
  (forall x y c, celPixel cel colorDepth x y = Some c -> c = RGBA.zero)
  /\ forall img img',
       wfImage img ->
       drawCelToImage img cel colorDepth = Ok img' ->
       forall u v,
         Image.At img' u v
         = match celAt cel colorDepth u v with
           | Some _ => RGBA.zero
           | None => Image.At img u v
           end.
Proof.
  split.
  - intros x y c. now apply celPixel_no_case.
  - intros img img' Hwf Hok u v.
    destruct (drawCelToImage_At img cel colorDepth img' Hwf Hok)
      as (Ex & Ey & _ & Hat).
    destruct (Image.inside img u v) eqn:Hin.
    + rewrite (Hat u v Hin). unfold celAt.
      destruct (_ && _); [|reflexivity].
      destruct (celPixel cel colorDepth _ _) as [c|] eqn:Ec; [|reflexivity].
      exact (celPixel_no_case cel colorDepth _ _ c H8 H16 H32 Ec).
    + assert (Hin' : Image.inside img' u v = false).
      { unfold Image.inside in *. now rewrite Ex, Ey. }
      unfold Image.At. rewrite Hin, Hin'.
      now destruct (celAt cel colorDepth u v).
Qed.

Lemma drawCelToImage_unsupported_depth_witness :
  celPixel baseCel 24 1 0 = Some RGBA.zero
  /\ exists img',
       drawCelToImage opaqueCanvas baseCel 24 = Ok img'
       /\ Image.At opaqueCanvas 1 0 = RGBA.mk xff xff xff xff
       /\ Image.At img' 1 0 = RGBA.zero.
Proof.
  destruct (drawCelToImage_unsupported_depth baseCel 24
              ltac:(lia) ltac:(lia) ltac:(lia)) as (Hc & Hd).
  split.
  - destruct (celPixel baseCel 24 1 0) as [c|] eqn:E;
      [|vm_compute in E; discriminate].
    f_equal. exact (Hc 1 0 c E).
  - destruct (drawCelToImage opaqueCanvas baseCel 24) as [img'|e] eqn:E;
      [|vm_compute in E; discriminate].
    exists img'. split; [reflexivity|]. split; [reflexivity|].
    assert (Hwf : wfImage opaqueCanvas)
      by (unfold wfImage; vm_compute; intuition discriminate).
    rewrite (Hd opaqueCanvas img' Hwf E 1 0). reflexivity.
Defined.

(** X18: the opacity of a cel never raises the alpha of a pixel: opacity
    255 leaves the colour as it is, opacity 0 makes the pixel fully
    transparent, every opacity gives an alpha that is at most the alpha of
    the pixel and at most the opacity, and red, green and blue are never
    changed; and the colour behind this step is the one found on the
    canvas for every pixel that the loop of [drawCelToImage] writes. *)
Theorem applyOpacity_bounds (c : RGBA.t) (opacity : byte) :
  applyOpacity c xff = c
  /\ RGBA.A (applyOpacity c x00) = x00
  /\ byte.unsigned (RGBA.A (applyOpacity c opacity))
     <= byte.unsigned (RGBA.A c)
  /\ byte.unsigned (RGBA.A (applyOpacity c opacity))
     <= byte.unsigned opacity
  /\ RGBA.R (applyOpacity c opacity) = RGBA.R c
  /\ RGBA.G (applyOpacity c opacity) = RGBA.G c
  /\ RGBA.B (applyOpacity c opacity) = RGBA.B c
  /\ forall img img' cel colorDepth x y,
       wfImage img ->
       drawCelToImage img cel colorDepth = Ok img' ->
       0 <= x < Cel.Width cel -> 0 <= y < Cel.Height cel ->
       (y * Cel.Width cel + x) * bytesPerPixel colorDepth
       + bytesPerPixel colorDepth <= len (Cel.Pixels cel) ->
       Image.inside img (Cel.X cel + x) (Cel.Y cel + y) = true ->
       resolveColor (Cel.Pixels cel)
         ((y * Cel.Width cel + x) * bytesPerPixel colorDepth) colorDepth = c ->
       Cel.Opacity cel = opacity ->
       Image.At img' (Cel.X cel + x) (Cel.Y cel + y) = applyOpacity c opacity.
Proof.
  pose proof (byte_unsigned_255 (RGBA.A c)) as Ha.
  pose proof (byte_unsigned_255 opacity) as Ho.
  split; [|split; [|split; [|split]]].
  - destruct c as [r g b a]. unfold applyOpacity. simpl. f_equal.
    simpl in Ha. change (byte.unsigned xff) with 255.
    rewrite (uint16_small (byte.unsigned a)), (uint16_small 255) by lia.
    rewrite uint16_small by lia.
    rewrite Z.div_mul by lia. apply byte.of_Z_unsigned.
  - apply byte.unsigned_inj. rewrite applyOpacity_A.
    change (byte.unsigned x00) with 0. now rewrite Z.mul_0_r.
  - rewrite applyOpacity_A. apply Z.div_le_upper_bound; nia.
  - rewrite applyOpacity_A. apply Z.div_le_upper_bound; nia.
  - split; [reflexivity|]. split; [reflexivity|]. split; [reflexivity|].
    intros img img' cel colorDepth x y Hwf Hok Hx Hy Hsrc Hin <- <-.
    exact (drawCelToImage_written img cel colorDepth img' x y
             Hwf Hok Hx Hy Hsrc Hin).
Qed.

Lemma applyOpacity_bounds_witness :
  exists img',
    drawCelToImage (Image.NewRGBA 2 2) cornerCel 32 = Ok img'
    /\ resolveColor (Cel.Pixels cornerCel) 4 32 = RGBA.mk x04 x05 x06 xff
    /\ Image.At img' 0 0 = RGBA.mk x04 x05 x06 x80.
Proof.
  destruct (drawCelToImage (Image.NewRGBA 2 2) cornerCel 32) as [img'|e] eqn:E;
    [|vm_compute in E; discriminate].
  exists img'. split; [reflexivity|]. split; [reflexivity|].
  assert (Hwf : wfImage (Image.NewRGBA 2 2)) by (apply NewRGBA_wf; lia).
  destruct (applyOpacity_bounds (RGBA.mk x04 x05 x06 xff) x80)
    as (_ & _ & _ & _ & _ & _ & _ & Hcanvas).
  assert (Hx : 0 <= 1 < Cel.Width cornerCel) by (simpl; lia).
  assert (Hy : 0 <= 0 < Cel.Height cornerCel) by (simpl; lia).
  assert (Hsrc : (0 * Cel.Width cornerCel + 1) * bytesPerPixel 32
                 + bytesPerPixel 32 <= len (Cel.Pixels cornerCel))
    by (vm_compute; discriminate).
  exact (Hcanvas (Image.NewRGBA 2 2) img' cornerCel 32 1 0
           Hwf E Hx Hy Hsrc eq_refl eq_refl eq_refl).
Defined.

(** * The orc: animation ranges from the tags *)

Lemma lastNamed_snoc name tags tag :
  lastNamed name (tags ++ [tag])
  = if String.eqb (Tag.Name tag) name then Some tag else lastNamed name tags.
Proof. unfold lastNamed. rewrite rev_unit. reflexivity. Qed.

Lemma rangeFrom_snoc tags tag name old :
  rangeFrom (tags ++ [tag]) name old
  = if String.eqb (Tag.Name tag) name
    then (Tag.FromFrame tag, Tag.ToFrame tag)
    else rangeFrom tags name old.
Proof.
  unfold rangeFrom. rewrite lastNamed_snoc.
  now destruct (String.eqb (Tag.Name tag) name).
Qed.

Lemma setRange_ranges tags tag o o1 :
  frameRanges o1 = rangesFromTags tags o ->
  frameRanges (setRange o1 tag) = rangesFromTags (tags ++ [tag]) o.
Proof.
  unfold frameRanges, rangesFromTags. intros H.
  injection H as H1 H2 H3 H4 H5 H6.
  rewrite !rangeFrom_snoc. unfold setRange.
  destruct (String.eqb_spec (Tag.Name tag) "idle") as [E|_];
    [try rewrite E; simpl; congruence|].
  destruct (String.eqb_spec (Tag.Name tag) "walk") as [E|_];
    [try rewrite E; simpl; congruence|].
  destruct (String.eqb_spec (Tag.Name tag) "attack01") as [E|_];
    [try rewrite E; simpl; congruence|].
  destruct (String.eqb_spec (Tag.Name tag) "attack02") as [E|_];
    [try rewrite E; simpl; congruence|].
  destruct (String.eqb_spec (Tag.Name tag) "hurt") as [E|_];
    [try rewrite E; simpl; congruence|].
  destruct (String.eqb_spec (Tag.Name tag) "Death") as [E|_];
    [try rewrite E; simpl; congruence|].
  congruence.
Qed.

Lemma setRange_rest o tag : restOf (setRange o tag) = restOf o.
Proof.
  unfold setRange.
  repeat match goal with |- context [if ?b then _ else _] => destruct b end;
    reflexivity.
Qed.

Lemma fold_setRange tags : forall o,
  frameRanges (fold_left setRange tags o) = rangesFromTags tags o
  /\ restOf (fold_left setRange tags o) = restOf o.
Proof.
  induction tags as [|tag tags IH] using rev_ind; intros o.
  - split; reflexivity.
  - rewrite fold_left_app. simpl. destruct (IH o) as [Hr Hk].
    split; [now apply setRange_ranges|]. now rewrite setRange_rest.
Qed.

Lemma initializeAnimationRanges_cases o :
  match Orc.asepriteFile o with
  | None => initializeAnimationRanges o = Panics
  | Some file =>
      exists o',
        initializeAnimationRanges o = Returns (Ok o')
        /\ frameRanges o' = rangesFromTags (File.Tags file) o
        /\ Orc.currentFrame o' = Orc.walkFrameStart o'
        /\ restOf (Orc.set_currentFrame o' (Orc.currentFrame o)) = restOf o
  end.
Proof.
  unfold initializeAnimationRanges.
  destruct (Orc.asepriteFile o) as [file|]; [|reflexivity].
  destruct (fold_setRange (File.Tags file) o) as [Hr Hk].
  eexists. split; [reflexivity|]. split; [exact Hr|].
  split; [reflexivity|].
  unfold restOf in *. simpl. injection Hk as <-. congruence.
Qed.

(** X19: [initializeAnimationRanges] gives every animation the frame range
    of the last tag of the file with its name ("idle", "walk", "attack01",
    "attack02", "hurt" and, with a capital, "Death"), keeps the range an
    animation had when no tag has its name, puts the current frame on the
    first walk frame and changes nothing else; without a file it panics. *)
Theorem initializeAnimationRanges_ranges (o : Orc.t) :
  match Orc.asepriteFile o with
  | None => initializeAnimationRanges o = Panics
  | Some file =>
      exists o',
        initializeAnimationRanges o = Returns (Ok o')
        /\ frameRanges o' = rangesFromTags (File.Tags file) o
        /\ Orc.currentFrame o' = Orc.walkFrameStart o'
        /\ restOf (Orc.set_currentFrame o' (Orc.currentFrame o)) = restOf o
  end.
Proof.
  unfold initializeAnimationRanges.
  destruct (Orc.asepriteFile o) as [file|]; [|reflexivity].
  destruct (fold_setRange (File.Tags file) o) as [Hr Hk].
  eexists. split; [reflexivity|]. split; [exact Hr|].
  split; [reflexivity|].
  unfold restOf in *. simpl. injection Hk as <-. congruence.
Qed.

(** * The orc: taking damage *)

Lemma OrcState_eqb_eq a b : OrcState_eqb a b = true <-> a = b.
Proof. destruct a, b; simpl; split; congruence. Qed.

Lemma int64_small z : - 2 ^ 63 <= z < 2 ^ 63 -> int64 z = z.
Proof. intros H. unfold int64. rewrite Z.mod_small; lia. Qed.

(** X20: a hit on an orc that is neither hurt nor dead costs it exactly
    one health point; with no health left it dies, and otherwise it is
    hurt and pushed away from the attacker; in both cases its animation
    starts at the first frame of the new state. *)
Theorem TakeDamage_hit (o : Orc.t) (attackerX : float)
  (Hstate : Orc.state o <> OrcStateHurt /\ Orc.state o <> OrcStateDeath)
  (Hhealth : - 2 ^ 63 < Orc.health o < 2 ^ 63) :
  let o' := TakeDamage o attackerX in
  GetHealth o' = GetHealth o - 1
  /\ Orc.state o' = (if Orc.health o <=? 1 then OrcStateDeath
                     else OrcStateHurt)
  /\ IsAlive o' = negb (Orc.health o <=? 1)
  /\ Orc.currentFrame o' = fst (stateRange o (Orc.state o'))
  /\ (1 < Orc.health o ->
      Orc.knockbackX o'
      = if PrimFloat.ltb attackerX (Orc.positionX o) then 30%float
        else (-30)%float).
Proof.
  destruct Hstate as [Hh Hd]. cbv zeta. unfold TakeDamage, GetHealth, IsAlive.
  destruct (OrcState_eqb (Orc.state o) OrcStateHurt) eqn:E1;
    [apply OrcState_eqb_eq in E1; contradiction|].
  destruct (OrcState_eqb (Orc.state o) OrcStateDeath) eqn:E2;
    [apply OrcState_eqb_eq in E2; contradiction|].
  cbn [orb Orc.health Orc.set_health]. rewrite int64_small by lia.
  destruct (Z.leb_spec (Orc.health o - 1) 0) as [Hle|Hgt];
    destruct (Z.leb_spec (Orc.health o) 1) as [Hle'|Hgt']; try lia.
  - unfold setState. cbn [Orc.state Orc.set_health]. rewrite E2.
    repeat split; try reflexivity. lia.
  - unfold setState. cbn [Orc.state Orc.set_health Orc.positionX
                          Orc.set_currentFrame Orc.set_frameTimer
                          Orc.set_state Orc.set_hurtTimer]. rewrite E1.
    cbn [Orc.positionX Orc.set_currentFrame Orc.set_frameTimer
         Orc.set_state Orc.set_hurtTimer Orc.set_health].
    destruct (PrimFloat.ltb attackerX (Orc.positionX o));
      repeat split; reflexivity.
Qed.

(** X21: an orc cannot be hit twice in a row: behind a hit it is hurt or
    dead, and a second [TakeDamage] changes nothing, so that two hits
    without an update between them are one. *)
Theorem TakeDamage_twice (o : Orc.t) (first second : float) :
  TakeDamage (TakeDamage o first) second = TakeDamage o first.
Proof.
  assert (H : OrcState_eqb (Orc.state (TakeDamage o first)) OrcStateHurt
              || OrcState_eqb (Orc.state (TakeDamage o first)) OrcStateDeath
              = true).
  { unfold TakeDamage.
    destruct (OrcState_eqb (Orc.state o) OrcStateHurt
              || OrcState_eqb (Orc.state o) OrcStateDeath) eqn:E;
      [exact E|].
    apply orb_false_iff in E as [E1 E2].
    cbn [Orc.health Orc.set_health].
    destruct (int64 (Orc.health o - 1) <=? 0).
    - unfold setState. cbn [Orc.state Orc.set_health]. rewrite E2.
      reflexivity.
    - unfold setState. cbn [Orc.state Orc.set_health]. rewrite E1.
      now destruct (PrimFloat.ltb first _). }
  unfold TakeDamage at 1. now rewrite H.
Qed.

Lemma initializeAnimationRanges_ranges_witness :
  exists o',
    initializeAnimationRanges taggedOrc = Returns (Ok o')
    /\ frameRanges o' = [(0, 0); (6, 13); (0, 0); (0, 0); (0, 0); (30, 33)]
    /\ Orc.currentFrame o' = 6.
Proof.
  pose proof (initializeAnimationRanges_ranges taggedOrc) as H. simpl in H.
  destruct H as (o' & E & Hr & Hc & _).
  exists o'. split; [exact E|]. split; [rewrite Hr; reflexivity|].
  rewrite Hc. change (Orc.walkFrameStart o') with
    (fst (nth 1 (frameRanges o') (0, 0))). rewrite Hr. reflexivity.
Defined.

Lemma TakeDamage_hit_witness :
  GetHealth (TakeDamage sampleOrc 0%float) = 2
  /\ Orc.state (TakeDamage sampleOrc 0%float) = OrcStateHurt.
Proof.
  assert (Hs : Orc.state sampleOrc <> OrcStateHurt
               /\ Orc.state sampleOrc <> OrcStateDeath)
    by (split; discriminate).
  assert (Hh : - 2 ^ 63 < Orc.health sampleOrc < 2 ^ 63) by (simpl; lia).
  destruct (TakeDamage_hit sampleOrc 0%float Hs Hh) as (H1 & H2 & _).
  split; [exact H1|exact H2].
Defined.

(** * The orc: updates *)

Ltac split_ifs :=
  repeat match goal with
         | |- context [if ?b then _ else _] => destruct b eqn:?
         end.

Lemma updateHurt_dead o :
  Orc.state o = OrcStateDeath -> updateHurt o = o.
Proof. intros H. unfold updateHurt. now rewrite H. Qed.

Lemma updateDeath_view o :
  animView (updateDeath o) = animView o
  /\ Orc.health (updateDeath o) = Orc.health o
  /\ Orc.asepriteFile (updateDeath o) = Orc.asepriteFile o.
Proof. unfold updateDeath. split_ifs; repeat split; reflexivity. Qed.

Lemma updateDeath_clock o :
  Orc.state o = OrcStateDeath ->
  deathClock (updateDeath o) = deathTick (deathClock o).
Proof.
  intros H. unfold updateDeath, deathClock, deathTick. rewrite H.
  cbn [OrcState_eqb Orc.deathTimer Orc.set_deathTimer Orc.flashTimer
       Orc.set_flashTimer Orc.flashVisible Orc.set_flashVisible
       Orc.flashCount Orc.set_flashCount Orc.shouldRemove].
  destruct (PrimFloat.leb (Orc.deathTimer o - frameTick) 0); [|reflexivity].
  destruct (PrimFloat.leb (Orc.flashTimer o - frameTick) 0); [|reflexivity].
  destruct (Orc.flashVisible o); simpl; split_ifs; reflexivity.
Qed.

Lemma updateKnockback_view o :
  animView (updateKnockback o) = animView o
  /\ Orc.health (updateKnockback o) = Orc.health o
  /\ Orc.asepriteFile (updateKnockback o) = Orc.asepriteFile o
  /\ deathClock (updateKnockback o) = deathClock o.
Proof. unfold updateKnockback. split_ifs; repeat split; reflexivity. Qed.

Lemma updateChase_view o playerX :
  animView (updateChase o playerX) = animView o
  /\ Orc.health (updateChase o playerX) = Orc.health o
  /\ Orc.asepriteFile (updateChase o playerX) = Orc.asepriteFile o
  /\ deathClock (updateChase o playerX) = deathClock o.
Proof. unfold updateChase. split_ifs; repeat split; reflexivity. Qed.

Lemma rangesWithin_inv o n s :
  rangesWithin o n ->
  0 <= fst (stateRange o s) <= snd (stateRange o s)
  /\ snd (stateRange o s) < n.
Proof.
  unfold rangesWithin, frameRanges. intros H.
  repeat match goal with
         | H : Forall _ (_ :: _) |- _ => apply Forall_cons_1 in H as [? H]
         end.
  destruct s; simpl in *; lia.
Qed.

Lemma stateRange_view o o' s :
  frameRanges o' = frameRanges o -> stateRange o' s = stateRange o s.
Proof.
  unfold frameRanges. intros H. injection H as H1 H2 H3 H4 H5 H6.
  destruct s; simpl; congruence.
Qed.

Lemma frameInRange_view o o' :
  animView o' = animView o -> frameInRange o -> frameInRange o'.
Proof.
  unfold animView, frameInRange. intros H.
  pose proof (f_equal snd H) as Hr.
  pose proof (f_equal (fun v => fst (fst v)) H) as Hs.
  pose proof (f_equal (fun v => snd (fst v)) H) as Hc.
  simpl in Hr, Hs, Hc.
  now rewrite Hs, Hc, (stateRange_view o o' _ Hr).
Qed.

Lemma rangesWithin_view o o' n :
  frameRanges o' = frameRanges o -> rangesWithin o n -> rangesWithin o' n.
Proof. unfold rangesWithin. now intros ->. Qed.

Lemma setState_frames o s :
  frameRanges (setState o s) = frameRanges o
  /\ Orc.health (setState o s) = Orc.health o
  /\ Orc.asepriteFile (setState o s) = Orc.asepriteFile o.
Proof.
  unfold setState. destruct (OrcState_eqb (Orc.state o) s);
    [auto|destruct s; repeat split; reflexivity].
Qed.

(** After [setState] the current frame is in the range of the state. *)
Lemma setState_inRange o s n :
  rangesWithin o n -> frameInRange o -> frameInRange (setState o s).
Proof.
  intros Hr Hin. unfold setState.
  destruct (OrcState_eqb (Orc.state o) s) eqn:E; [exact Hin|].
  pose proof (rangesWithin_inv o n s Hr) as H.
  unfold frameInRange. destruct s; simpl in *; lia.
Qed.

Lemma updateHurt_inRange o n :
  rangesWithin o n -> frameInRange o ->
  frameInRange (updateHurt o)
  /\ frameRanges (updateHurt o) = frameRanges o
  /\ Orc.health (updateHurt o) = Orc.health o
  /\ Orc.asepriteFile (updateHurt o) = Orc.asepriteFile o.
Proof.
  intros Hr Hin. unfold updateHurt.
  destruct (OrcState_eqb (Orc.state o) OrcStateHurt); [|auto].
  destruct (PrimFloat.leb _ 0).
  - destruct (setState_frames (Orc.set_hurtTimer o
                (Orc.hurtTimer o - frameTick)%float) OrcStateWalk)
      as (H1 & H2 & H3).
    split; [|auto]. apply (setState_inRange _ _ n); assumption.
  - auto.
Qed.

Lemma wrapFrame_step o n :
  rangesWithin o n -> n < 2 ^ 63 -> frameInRange o ->
  let o1 := wrapFrame (Orc.set_currentFrame (Orc.set_frameTimer o 0%float)
                         (int64 (Orc.currentFrame o + 1))) in
  frameInRange o1 /\ frameRanges o1 = frameRanges o
  /\ Orc.health o1 = Orc.health o
  /\ Orc.asepriteFile o1 = Orc.asepriteFile o.
Proof.
  intros Hr Hn Hin. cbv zeta.
  pose proof (rangesWithin_inv o n (Orc.state o) Hr) as Hs.
  pose proof (rangesWithin_inv o n OrcStateIdle Hr) as Hi.
  unfold frameInRange in Hin.
  rewrite int64_small by lia.
  unfold wrapFrame, frameInRange.
  cbn [Orc.state Orc.set_currentFrame Orc.set_frameTimer Orc.currentFrame
       Orc.idleFrameEnd Orc.walkFrameEnd Orc.attack01FrameEnd
       Orc.attack02FrameEnd Orc.hurtFrameEnd Orc.deathFrameEnd].
  destruct (Orc.state o) eqn:Est; simpl in Hs, Hi, Hin;
    match goal with
    | |- context [if ?a >? ?b then _ else _] =>
        destruct (Z.gtb_spec a b)
    end;
    unfold setState; simpl; rewrite ?Est; simpl;
    repeat split; lia.
Qed.

Lemma wrapFrame_dead o :
  Orc.state o = OrcStateDeath ->
  Orc.state (wrapFrame o) = OrcStateDeath
  /\ deathClock (wrapFrame o) = deathClock o
  /\ Orc.health (wrapFrame o) = Orc.health o.
Proof.
  intros H. unfold wrapFrame. rewrite H.
  destruct (_ >? _); repeat split; assumption || reflexivity.
Qed.

Lemma GetFrameImage_no_panic zlib f i :
  0 <= i -> GetFrameImage zlib f i <> Panics.
Proof.
  intros Hi. unfold GetFrameImage.
  destruct (Z.geb_spec i (len (File.Frames f))) as [Hge|Hlt]; [discriminate|].
  unfold index. destruct (Z.ltb_spec i 0); [lia|].
  destruct (File.Frames f !! Z.to_nat i) eqn:E; [discriminate|].
  apply lookup_ge_None in E. unfold len in Hlt. lia.
Qed.

Lemma animView_state o o' :
  animView o' = animView o -> Orc.state o' = Orc.state o.
Proof. intros H. exact (f_equal (fun v => fst (fst v)) H). Qed.

Section OrcUpdates.
Variable zlib_ReadAll : list byte -> result (list byte).
Variable ebiten_NewImageFromImage : Image.t -> option Image.t.

Local Abbreviation Update' :=
  (Update zlib_ReadAll ebiten_NewImageFromImage).
Local Abbreviation UpdateN' :=
  (UpdateN zlib_ReadAll ebiten_NewImageFromImage).
Local Abbreviation updateSprite' :=
  (updateSprite zlib_ReadAll ebiten_NewImageFromImage).
Local Abbreviation updateAnimation' :=
  (updateAnimation zlib_ReadAll ebiten_NewImageFromImage).

(** The sprite step changes the sprite only, and it never returns an
    error; when it panics, the frame index was negative or ebiten refused
    the raster of the frame. *)
Lemma updateSprite_cases o :
  match updateSprite' o with
  | Returns (Ok o') =>
      animView o' = animView o /\ Orc.health o' = Orc.health o
      /\ Orc.asepriteFile o' = Orc.asepriteFile o
      /\ deathClock o' = deathClock o
  | Returns (Err _) => False
  | Panics =>
      exists file,
        Orc.asepriteFile o = Some file
        /\ (Orc.currentFrame o < 0
            \/ exists img,
                 GetFrameImage zlib_ReadAll file (Orc.currentFrame o)
                 = Returns (Ok img)
                 /\ ebiten_NewImageFromImage img = None)
  end.
Proof.
  unfold updateSprite.
  destruct (Orc.asepriteFile o) as [file|] eqn:Ef; [|auto].
  destruct (GetFrameImage zlib_ReadAll file (Orc.currentFrame o))
    as [[img|e]|] eqn:Eg.
  - destruct (ebiten_NewImageFromImage img) eqn:Ee.
    + repeat split; assumption || reflexivity.
    + exists file. split; [reflexivity|]. right. exists img. auto.
  - auto.
  - exists file. split; [reflexivity|]. left.
    destruct (Z.neg_nonneg_cases (Orc.currentFrame o)) as [Hneg|Hpos];
      [exact Hneg|].
    exfalso. exact (GetFrameImage_no_panic _ _ _ Hpos Eg).
Qed.

Lemma Update_blocks o playerX :
  Update' o playerX
  = updateAnimation'
      (updateChase (updateKnockback (updateDeath (updateHurt o))) playerX).
Proof. reflexivity. Qed.


Lemma updateAnimation_dead o o' :
  Orc.state o = OrcStateDeath ->
  updateAnimation' o = Returns (Ok o') ->
  Orc.state o' = OrcStateDeath
  /\ deathClock o' = deathClock o
  /\ Orc.health o' = Orc.health o.
Proof.
  intros S3 H. unfold updateAnimation in H.
  destruct (PrimFloat.leb _ _).
  - match type of H with updateSprite' (wrapFrame ?x) = _ =>
      pose proof (updateSprite_cases (wrapFrame x)) as Hsp;
      rewrite H in Hsp;
      destruct (wrapFrame_dead x S3) as (W1 & W2 & W3)
    end.
    destruct Hsp as (Va & Ha & _ & Ca).
    split; [exact (eq_trans (animView_state _ _ Va) W1)|].
    split; [exact (eq_trans Ca W2)|exact (eq_trans Ha W3)].
  - injection H as <-. auto.
Qed.

Lemma Update_dead o playerX o' :
  Orc.state o = OrcStateDeath ->
  Update' o playerX = Returns (Ok o') ->
  Orc.state o' = OrcStateDeath
  /\ deathClock o' = deathTick (deathClock o)
  /\ Orc.health o' = Orc.health o.
Proof.
  intros Hd H. rewrite Update_blocks, (updateHurt_dead o Hd) in H.
  destruct (updateDeath_view o) as (V1 & Hh1 & _).
  pose proof (updateDeath_clock o Hd) as C1.
  destruct (updateKnockback_view (updateDeath o)) as (V2 & Hh2 & _ & C2).
  destruct (updateChase_view (updateKnockback (updateDeath o)) playerX)
    as (V3 & Hh3 & _ & C3).
  apply animView_state in V1, V2, V3.
  destruct (updateAnimation_dead _ o'
              (eq_trans V3 (eq_trans V2 (eq_trans V1 Hd))) H) as (A & B & C).
  split; [exact A|].
  split; [exact (eq_trans B (eq_trans C3 (eq_trans C2 C1)))
         |exact (eq_trans C (eq_trans Hh3 (eq_trans Hh2 Hh1)))].
Qed.

(** X22: death is final.  A dead orc ignores [TakeDamage], and after an
    [Update] it is still dead, with the health it had; the update moves
    its death sequence by one step. *)
Theorem Update_dead_stays_dead (o : Orc.t) (playerX attackerX : float)
  (Hdead : Orc.state o = OrcStateDeath) :
  TakeDamage o attackerX = o
  /\ IsAlive o = false
  /\ forall o',
       Update' o playerX = Returns (Ok o') ->
       IsAlive o' = false /\ GetHealth o' = GetHealth o
       /\ deathClock o' = deathTick (deathClock o).
Proof.
  split; [|split].
  - unfold TakeDamage. rewrite Hdead. reflexivity.
  - unfold IsAlive. now rewrite Hdead.
  - intros o' H. destruct (Update_dead o playerX o' Hdead H) as (Hs & Hc & Hh).
    unfold IsAlive, GetHealth. rewrite Hs. auto.
Qed.

Lemma updateAnimation_inRange o n :
  rangesWithin o n -> n < 2 ^ 63 -> frameInRange o ->
  match updateAnimation' o with
  | Returns (Ok o') =>
      frameInRange o' /\ frameRanges o' = frameRanges o
      /\ Orc.health o' = Orc.health o
  | Returns (Err _) => False
  | Panics =>
      exists file i img,
        Orc.asepriteFile o = Some file /\ 0 <= i < n
        /\ GetFrameImage zlib_ReadAll file i = Returns (Ok img)
        /\ ebiten_NewImageFromImage img = None
  end.
Proof.
  intros Hr Hn Hin. unfold updateAnimation.
  set (ot := Orc.set_frameTimer o (Orc.frameTimer o + frameTick)%float).
  assert (Vt : animView ot = animView o) by reflexivity.
  assert (Hrt : rangesWithin ot n) by exact Hr.
  assert (Hit : frameInRange ot) by exact Hin.
  destruct (PrimFloat.leb _ _); [|split; [exact Hit|split; reflexivity]].
  destruct (wrapFrame_step ot n Hrt Hn Hit) as (W1 & W2 & W3 & W4).
  set (ow := wrapFrame _) in *.
  pose proof (updateSprite_cases ow) as Hsp.
  destruct (updateSprite' ow) as [[o'|e]|].
  - destruct Hsp as (Va & Ha & _ & _).
    pose proof (f_equal snd Va) as Er. simpl in Er.
    split; [now apply (frameInRange_view ow)|].
    split; [exact (eq_trans Er W2)|exact (eq_trans Ha W3)].
  - exact Hsp.
  - destruct Hsp as (file & Ef & [Hneg|(img & Eg & Ee)]).
    + exfalso. unfold frameInRange in W1.
      pose proof (rangesWithin_inv ow n (Orc.state ow)
                    (rangesWithin_view ot ow n W2 Hrt)) as Hs. lia.
    + exists file, (Orc.currentFrame ow), img.
      split; [exact (eq_trans (eq_sym W4) Ef)|]. split; [|auto].
      unfold frameInRange in W1.
      pose proof (rangesWithin_inv ow n (Orc.state ow)
                    (rangesWithin_view ot ow n W2 Hrt)) as Hs. lia.
Qed.

Lemma Update_inRange o playerX n :
  rangesWithin o n -> n < 2 ^ 63 -> frameInRange o ->
  match Update' o playerX with
  | Returns (Ok o') =>
      frameInRange o' /\ frameRanges o' = frameRanges o
      /\ Orc.health o' = Orc.health o
  | Returns (Err _) => False
  | Panics =>
      exists file i img,
        Orc.asepriteFile o = Some file /\ 0 <= i < n
        /\ GetFrameImage zlib_ReadAll file i = Returns (Ok img)
        /\ ebiten_NewImageFromImage img = None
  end.
Proof.
  intros Hr Hn Hin. unfold Update.
  destruct (updateHurt_inRange o n Hr Hin) as (I1 & R1 & H1 & F1).
  set (o1 := updateHurt o) in *.
  destruct (updateDeath_view o1) as (V2 & H2 & F2).
  set (o2 := updateDeath o1) in *.
  destruct (updateKnockback_view o2) as (V3 & H3 & F3 & _).
  set (o3 := updateKnockback o2) in *.
  destruct (updateChase_view o3 playerX) as (V4 & H4 & F4 & _).
  set (o4 := updateChase o3 playerX) in *.
  assert (V : animView o4 = animView o1) by congruence.
  assert (R4 : frameRanges o4 = frameRanges o).
  { pose proof (f_equal snd V) as E. simpl in E. congruence. }
  assert (I4 : frameInRange o4) by (apply (frameInRange_view o1); assumption).
  pose proof (updateAnimation_inRange o4 n
                (rangesWithin_view o o4 n R4 Hr) Hn I4) as HA.
  destruct (updateAnimation' o4) as [[o'|e]|].
  - destruct HA as (A1 & A2 & A3). split; [exact A1|].
    split; congruence.
  - exact HA.
  - destruct HA as (file & i & img & Ef & Hi & Eg & Ee).
    exists file, i, img. split; [congruence|auto].
Qed.

Lemma TakeDamage_inRange o attackerX n :
  rangesWithin o n -> frameInRange o ->
  frameInRange (TakeDamage o attackerX)
  /\ frameRanges (TakeDamage o attackerX) = frameRanges o.
Proof.
  intros Hr Hin. unfold TakeDamage.
  destruct (_ || _); [auto|].
  set (oh := Orc.set_health o (int64 (Orc.health o - 1))).
  assert (Hrh : rangesWithin oh n) by exact Hr.
  assert (Hih : frameInRange oh) by exact Hin.
  destruct (Orc.health oh <=? 0).
  - destruct (setState_frames oh OrcStateDeath) as (F & _).
    split; [|exact F].
    apply (frameInRange_view (setState oh OrcStateDeath)); [reflexivity|].
    now apply (setState_inRange oh _ n).
  - destruct (setState_frames oh OrcStateHurt) as (F & _).
    pose proof (setState_inRange oh OrcStateHurt n Hrh Hih) as I.
    destruct (PrimFloat.ltb attackerX _); (split; [|exact F]);
      (eapply frameInRange_view; [|exact I]); reflexivity.
Qed.

(** X23: the animation never leaves its range.  When every range of an
    orc runs from a frame of the file to a later or equal one and the
    current frame lies in the range of the current state, this is so again
    behind an [Update] and behind a [TakeDamage], whatever state they lead
    to; the ranges themselves are not changed. *)
Theorem Update_keeps_frame_in_range
  (o : Orc.t) (playerX attackerX : float) (frames : Z) (o' : Orc.t)
  (Hranges : rangesWithin o frames) (Hframes : frames < 2 ^ 63)
  (Hin : frameInRange o)
  (Hupdate : Update' o playerX = Returns (Ok o')) :
  frameInRange o' /\ frameRanges o' = frameRanges o
  /\ 0 <= Orc.currentFrame o' < frames
  /\ frameInRange (TakeDamage o attackerX)
  /\ frameRanges (TakeDamage o attackerX) = frameRanges o.
Proof.
  pose proof (Update_inRange o playerX frames Hranges Hframes Hin) as H.
  rewrite Hupdate in H. destruct H as (I & R & _).
  split; [exact I|]. split; [exact R|]. split.
  - pose proof (rangesWithin_inv o' frames (Orc.state o')
                  (rangesWithin_view o o' frames R Hranges)) as Hs.
    unfold frameInRange in I. lia.
  - now apply (TakeDamage_inRange o attackerX frames).
Qed.

(** X24: an update never asks for a frame that is not there.  With the
    ranges inside the frames of the file and the current frame in its
    range, [Update] can only panic inside ebiten, on the raster of a frame
    that [GetFrameImage] has returned. *)
Theorem Update_panics_only_in_ebiten
  (o : Orc.t) (playerX : float) (frames : Z)
  (Hranges : rangesWithin o frames) (Hframes : frames < 2 ^ 63)
  (Hin : frameInRange o)
  (Hpanic : Update' o playerX = Panics) :
  exists file i img,
    Orc.asepriteFile o = Some file /\ 0 <= i < frames
    /\ GetFrameImage zlib_ReadAll file i = Returns (Ok img)
    /\ ebiten_NewImageFromImage img = None.
Proof.
  pose proof (Update_inRange o playerX frames Hranges Hframes Hin) as H.
  rewrite Hpanic in H. exact H.
Qed.






End OrcUpdates.

Lemma Update_dead_stays_dead_witness :
  TakeDamage deadOrc 0%float = deadOrc
  /\ exists o',
       Update storedZlib plainEbiten deadOrc 0%float = Returns (Ok o')
       /\ IsAlive o' = false /\ GetHealth o' = 3.
Proof.
  destruct (Update_dead_stays_dead storedZlib plainEbiten deadOrc 0%float
              0%float eq_refl) as (H1 & _ & H3).
  split; [exact H1|].
  destruct (Update storedZlib plainEbiten deadOrc 0%float) as [[o'|e]|] eqn:E;
    try (vm_compute in E; discriminate).
  exists o'. split; [reflexivity|].
  destruct (H3 o' eq_refl) as (A & B & _). split; [exact A|exact B].
Defined.

Lemma sampleOrc_rangesWithin : rangesWithin sampleOrc 1.
Proof. repeat constructor; simpl; lia. Qed.

Lemma sampleOrc_frameInRange : frameInRange sampleOrc.
Proof. unfold frameInRange. simpl. lia. Qed.

Lemma Update_keeps_frame_in_range_witness :
  exists o',
    Update storedZlib plainEbiten dueOrc 0%float = Returns (Ok o')
    /\ Orc.currentFrame o' = 0.
Proof.
  destruct (Update storedZlib plainEbiten dueOrc 0%float) as [[o'|e]|] eqn:E;
    try (vm_compute in E; discriminate).
  exists o'. split; [reflexivity|].
  destruct (Update_keeps_frame_in_range storedZlib plainEbiten dueOrc
              0%float 0%float 1 o' sampleOrc_rangesWithin ltac:(lia)
              sampleOrc_frameInRange E) as (_ & _ & H & _).
  lia.
Defined.

Lemma Update_panics_only_in_ebiten_witness :
  exists file i img,
    Orc.asepriteFile dueOrc = Some file /\ 0 <= i < 1
    /\ GetFrameImage storedZlib file i = Returns (Ok img)
    /\ failingEbiten img = None.
Proof.
  apply (Update_panics_only_in_ebiten storedZlib failingEbiten dueOrc
           0%float 1 sampleOrc_rangesWithin ltac:(lia)
           sampleOrc_frameInRange).
  vm_compute. reflexivity.
Defined.


(** * NewOrc *)

Lemma lastNamed_In name tags tag :
  lastNamed name tags = Some tag -> In tag tags.
Proof.
  unfold lastNamed. intros H. apply find_some in H as [H _].
  now apply in_rev.
Qed.

Lemma rangeFrom_within tags name n :
  tagsWithin tags n -> 0 < n ->
  let range := rangeFrom tags name (0, 0) in
  0 <= fst range <= snd range /\ snd range < n.
Proof.
  intros Ht Hn. cbv zeta. unfold rangeFrom.
  destruct (lastNamed name tags) as [tag|] eqn:E; [|simpl; lia].
  apply lastNamed_In in E. unfold tagsWithin in Ht.
  rewrite List.Forall_forall in Ht. apply (Ht tag E).
Qed.

Section NewOrcFacts.
Variable os_ReadFile : string -> string + list byte.
Variable zlib_ReadAll : list byte -> result (list byte).
Variable ebiten_NewImageFromImage : Image.t -> option Image.t.

Local Abbreviation NewOrc' :=
  (NewOrc os_ReadFile zlib_ReadAll ebiten_NewImageFromImage).

(** X26: an orc cannot be made from a file without frames: when the file
    decodes and its header counts no frames, [NewOrc] returns the index
    error of [GetFrameImage] for frame 0. *)
Theorem NewOrc_no_frames (x y : float) (data : list byte) (file : File.t)
  (Hread : os_ReadFile "assets/Orc.aseprite" = inr data)
  (Hparse : ParseFile data = Ok file)
  (Hframes : Header.Frames (File.Header file) = 0) :
  NewOrc' x y = Failure (ErrAseprite (ErrFrameIndex 0)).
Proof.
  unfold NewOrc, LoadFile. rewrite Hread, Hparse.
  destruct (ParseFile_ok_inv data file Hparse) as (_ & Hn).
  unfold GetFrameImage.
  destruct (Z.geb_spec 0 (len (File.Frames file))); [reflexivity|lia].
Qed.

Lemma NewOrc_invariant (x y : float) (o : Orc.t)
  (Hnew : NewOrc' x y = Value o) :
  exists file,
    LoadFile os_ReadFile "assets/Orc.aseprite" = Value file
    /\ Orc.asepriteFile o = Some file
    /\ 1 <= len (File.Frames file)
    /\ Orc.state o = OrcStateWalk /\ GetHealth o = 3
    /\ deathClock o = (0%float, 0%float, true, 0, false)
    /\ (tagsWithin (File.Tags file) (len (File.Frames file)) ->
        rangesWithin o (len (File.Frames file)) /\ frameInRange o).
Proof.
  unfold NewOrc in Hnew.
  destruct (LoadFile os_ReadFile "assets/Orc.aseprite") as [file|e|] eqn:El;
    try discriminate.
  unfold GetFrameImage in Hnew.
  destruct (Z.geb_spec 0 (len (File.Frames file))) as [Hge|Hlt];
    [discriminate|].
  destruct (index (File.Frames file) 0); [|discriminate].
  destruct (ebiten_NewImageFromImage _) as [sprite|]; [|discriminate].
  match type of Hnew with
  | match initializeAnimationRanges ?orc with _ => _ end = _ =>
      pose proof (initializeAnimationRanges_cases orc) as Hinit;
      set (o0 := orc) in *
  end.
  simpl in Hinit. destruct Hinit as (o1 & E1 & Hr & Hc & Hk).
  rewrite E1 in Hnew. injection Hnew as <-.
  exists file. split; [reflexivity|].
  unfold restOf in Hk. simpl in Hk. injection Hk. intros.
  assert (Est : Orc.state o1 = OrcStateWalk) by assumption.
  split; [assumption|]. split; [lia|]. split; [assumption|].
  split; [assumption|].
  split; [unfold deathClock; congruence|].
  intros Ht.
  assert (Hw : rangesWithin o1 (len (File.Frames file))).
  { unfold rangesWithin. rewrite Hr. unfold rangesFromTags.
    do 6 (constructor; [apply rangeFrom_within; assumption || lia|]).
    constructor. }
  split; [exact Hw|].
  unfold frameInRange. rewrite Est. simpl. rewrite Hc.
  pose proof (rangesWithin_inv o1 _ OrcStateWalk Hw) as H'. simpl in H'. lia.
Qed.

(** X27: an orc that [NewOrc] returns walks, has 3 health points, a fresh
    death sequence and the file it was loaded from, which has at least one
    frame; and when every tag of the file runs from a frame of the file to
    a later or equal one, all its animation ranges do, and its current
    frame lies in the walk range. *)
Theorem NewOrc_starts_in_range (x y : float) (o : Orc.t)
  (Hnew : NewOrc' x y = Value o) :
  exists file,
    LoadFile os_ReadFile "assets/Orc.aseprite" = Value file
    /\ Orc.asepriteFile o = Some file
    /\ 1 <= len (File.Frames file)
    /\ Orc.state o = OrcStateWalk /\ GetHealth o = 3
    /\ deathClock o = (0%float, 0%float, true, 0, false)
    /\ (tagsWithin (File.Tags file) (len (File.Frames file)) ->
        rangesWithin o (len (File.Frames file)) /\ frameInRange o).
Proof.
  unfold NewOrc in Hnew.
  destruct (LoadFile os_ReadFile "assets/Orc.aseprite") as [file|e|] eqn:El;
    try discriminate.
  unfold GetFrameImage in Hnew.
  destruct (Z.geb_spec 0 (len (File.Frames file))) as [Hge|Hlt];
    [discriminate|].
  destruct (index (File.Frames file) 0); [|discriminate].
  destruct (ebiten_NewImageFromImage _) as [sprite|]; [|discriminate].
  match type of Hnew with
  | match initializeAnimationRanges ?orc with _ => _ end = _ =>
      pose proof (initializeAnimationRanges_cases orc) as Hinit;
      set (o0 := orc) in *
  end.
  simpl in Hinit. destruct Hinit as (o1 & E1 & Hr & Hc & Hk).
  rewrite E1 in Hnew. injection Hnew as <-.
  exists file. split; [reflexivity|].
  unfold restOf in Hk. simpl in Hk. injection Hk. intros.
  assert (Est : Orc.state o1 = OrcStateWalk) by assumption.
  split; [assumption|]. split; [lia|]. split; [assumption|].
  split; [assumption|].
  split; [unfold deathClock; congruence|].
  intros Ht.
  assert (Hw : rangesWithin o1 (len (File.Frames file))).
  { unfold rangesWithin. rewrite Hr. unfold rangesFromTags.
    do 6 (constructor; [apply rangeFrom_within; assumption || lia|]).
    constructor. }
  split; [exact Hw|].
  unfold frameInRange. rewrite Est. simpl. rewrite Hc.
  pose proof (rangesWithin_inv o1 _ OrcStateWalk Hw) as H'. simpl in H'. lia.
Qed.

Lemma UpdateN_inRange n : forall o playerX frames,
  rangesWithin o frames -> frames < 2 ^ 63 -> frameInRange o ->
  match UpdateN zlib_ReadAll ebiten_NewImageFromImage n o playerX with
  | Returns (Ok o') =>
      rangesWithin o' frames /\ frameInRange o'
      /\ Orc.health o' = Orc.health o
  | Returns (Err _) => False
  | Panics => exists img, ebiten_NewImageFromImage img = None
  end.
Proof.
  induction n as [|n IH]; intros o playerX frames Hr Hn Hin.
  - simpl. auto.
  - cbn [UpdateN].
    pose proof (Update_inRange zlib_ReadAll ebiten_NewImageFromImage o
                  playerX frames Hr Hn Hin) as H.
    destruct (Update zlib_ReadAll ebiten_NewImageFromImage o playerX)
      as [[o1|e]|].
    + destruct H as (I1 & R1 & H1).
      pose proof (IH o1 playerX frames
                    (rangesWithin_view o o1 frames R1 Hr) Hn I1) as H'.
      destruct (UpdateN zlib_ReadAll ebiten_NewImageFromImage n o1 playerX)
        as [[o'|e]|]; [|exact H'|exact H'].
      destruct H' as (A & B & C). split; [exact A|]. split; [exact B|].
      congruence.
    + exact H.
    + destruct H as (file & i & img & _ & _ & _ & E). now exists img.
Qed.

(** X28: an orc made by [NewOrc] from a file whose tags all run from a
    frame of the file to a later or equal one never asks for a frame that
    is not there: behind any number of updates its current frame is a frame
    of the file, its health is still 3, and an update can only panic inside
    ebiten. *)
Theorem NewOrc_frames_stay_valid
  (x y playerX : float) (o : Orc.t) (file : File.t) (n : nat)
  (Hnew : NewOrc' x y = Value o)
  (Hfile : Orc.asepriteFile o = Some file)
  (Htags : tagsWithin (File.Tags file) (len (File.Frames file))) :
  match UpdateN zlib_ReadAll ebiten_NewImageFromImage n o playerX with
  | Returns (Ok o') =>
      0 <= Orc.currentFrame o' < len (File.Frames file)
      /\ GetHealth o' = 3
  | Returns (Err _) => False
  | Panics => exists img, ebiten_NewImageFromImage img = None
  end.
Proof.
  destruct (NewOrc_invariant x y o Hnew)
    as (file' & El & Ef & H1 & Hs & Hh & Hc & Hinv).
  assert (file' = file) by congruence. subst file'.
  destruct (Hinv Htags) as (Hr & Hin).
  assert (Hlen : len (File.Frames file) < 2 ^ 63).
  { unfold LoadFile in El.
    destruct (os_ReadFile "assets/Orc.aseprite") as [cause|data];
      [discriminate|].
    destruct (ParseFile data) as [f|e] eqn:Ep; [|discriminate].
    injection El as ->.
    destruct (ParseFile_ok_inv data file Ep) as ((_ & _ & Hfr & _) & Hn).
    unfold isUint16 in Hfr. lia. }
  pose proof (UpdateN_inRange n o playerX _ Hr Hlen Hin) as H.
  destruct (UpdateN zlib_ReadAll ebiten_NewImageFromImage n o playerX)
    as [[o'|e]|]; [|exact H|exact H].
  destruct H as (Hr' & Hin' & Hh').
  split.
  - pose proof (rangesWithin_inv o' _ (Orc.state o') Hr') as Hb.
    unfold frameInRange in Hin'. lia.
  - unfold GetHealth in *. congruence.
Qed.
End NewOrcFacts.

Lemma NewOrc_no_frames_witness :
  NewOrc (oneFile noFramesFile) storedZlib plainEbiten 300%float 200%float
  = Failure (ErrAseprite (ErrFrameIndex 0)).
Proof.
  destruct (ParseFile noFramesFile) as [file|e] eqn:E;
    [|vm_compute in E; discriminate].
  apply (NewOrc_no_frames (oneFile noFramesFile) storedZlib plainEbiten
           300%float 200%float noFramesFile file eq_refl E).
  vm_compute in E. injection E as <-. reflexivity.
Defined.

Lemma NewOrc_starts_in_range_witness :
  exists o,
    NewOrc (oneFile (encodeFile layoutFile)) storedZlib plainEbiten
      300%float 200%float = Value o
    /\ Orc.state o = OrcStateWalk /\ GetHealth o = 3.
Proof.
  destruct (NewOrc (oneFile (encodeFile layoutFile)) storedZlib plainEbiten
              300%float 200%float) as [o|e|] eqn:E;
    try (vm_compute in E; discriminate).
  exists o. split; [reflexivity|].
  destruct (NewOrc_starts_in_range _ _ _ _ _ o E)
    as (file & _ & _ & _ & Hs & Hh & _).
  split; [exact Hs|exact Hh].
Defined.

Lemma layoutFile_tagsWithin :
  tagsWithin (File.Tags layoutFile) (len (File.Frames layoutFile)).
Proof. constructor. Qed.

Lemma NewOrc_frames_stay_valid_witness :
  exists o o',
    NewOrc (oneFile (encodeFile layoutFile)) storedZlib plainEbiten
      300%float 200%float = Value o
    /\ UpdateN storedZlib plainEbiten 30 o 0%float = Returns (Ok o')
    /\ 0 <= Orc.currentFrame o' < 1.
Proof.
  destruct (NewOrc (oneFile (encodeFile layoutFile)) storedZlib plainEbiten
              300%float 200%float) as [o|e|] eqn:E;
    try (vm_compute in E; discriminate).
  assert (Hf : Orc.asepriteFile o = Some layoutFile)
    by (vm_compute in E; injection E as <-; reflexivity).
  pose proof (NewOrc_frames_stay_valid _ _ _ 300%float 200%float 0%float
                o layoutFile 30 E Hf layoutFile_tagsWithin) as H.
  destruct (UpdateN storedZlib plainEbiten 30 o 0%float) as [[o'|e]|] eqn:Eu.
  - exists o, o'. split; [reflexivity|]. split; [exact Eu|]. apply H.
  - destruct H.
  - destruct H as (img & Hi). discriminate.
Defined.

(** * The inspector *)

Lemma In_upto k n : 0 <= k < n -> In k (upto n).
Proof.
  intros H. unfold upto. apply in_map_iff. exists (Z.to_nat k).
  split; [lia|]. apply in_seq. lia.
Qed.

Lemma directionOf_all :
  forallb (fun d => match directionOf (getDirectionString (byte.of_Z d)) with
                    | Some d' => d' =? d
                    | None => false
                    end) (upto 256) = true.
Proof. vm_compute. reflexivity. Qed.

Lemma substring_append (s t : string) :
  String.substring 0 (String.length s) (s ++ t) = s.
Proof. induction s as [|c s IH]; simpl; [now destruct t|now rewrite IH]. Qed.

Lemma length_append (s t : string) :
  String.length (s ++ t) = (String.length s + String.length t)%nat.
Proof. induction s as [|c s IH]; simpl; [reflexivity|now rewrite IH]. Qed.

Lemma to_uint_not_Nil (n : N) : N.to_uint n <> Decimal.Nil.
Proof.
  intros E. pose proof (Unsigned.to_of (N.to_uint n)) as H.
  rewrite Unsigned.of_to in H. rewrite E in H. discriminate.
Qed.

Lemma numberAt_Sprintf_d (n : Z) (t : string) :
  0 <= n ->
  numberAt (Sprintf_d n ++ t) 0 (String.length (Sprintf_d n)) = Some n.
Proof.
  intros Hn. unfold numberAt. rewrite substring_append. unfold Sprintf_d.
  rewrite NilZero.usu by apply to_uint_not_Nil.
  rewrite Unsigned.of_to. f_equal. lia.
Qed.

Lemma directionOf_label (direction : byte) :
  directionOf (getDirectionString direction)
  = Some (byte.unsigned direction).
Proof.
  pose proof directionOf_all as H. rewrite forallb_forall in H.
  pose proof (byte.unsigned_range direction) as Hr.
  specialize (H (byte.unsigned direction) (In_upto _ _ Hr)).
  rewrite byte.of_Z_unsigned in H.
  destruct (directionOf (getDirectionString direction)) as [d|];
    [|discriminate].
  apply Z.eqb_eq in H. now subst.
Qed.

Lemma repeatOf_label (repeat : Z) :
  isUint16 repeat -> repeatOf (getRepeatString repeat) = Some repeat.
Proof.
  intros Hr. unfold getRepeatString.
  destruct (repeat =? 0) eqn:E0; [apply Z.eqb_eq in E0; now subst|].
  destruct (repeat =? 1) eqn:E1; [apply Z.eqb_eq in E1; now subst|].
  unfold repeatOf. set (s := Sprintf_d repeat).
  assert (L : String.length (s ++ " times") = (String.length s + 6)%nat)
    by now rewrite length_append.
  destruct (String.eqb_spec (s ++ " times") "Infinite") as [E|_].
  { rewrite E in L. destruct s as [|a [|b [|c s]]]; simpl in L; try lia.
    discriminate E. }
  destruct (String.eqb_spec (s ++ " times") "Once") as [E|_].
  { rewrite E in L. simpl in L. lia. }
  rewrite L. replace (String.length s + 6 - 6)%nat with (String.length s)
    by lia.
  apply numberAt_Sprintf_d. unfold isUint16 in Hr. lia.
Qed.

(** X29: the labels of the inspector tell their values apart: two
    direction codes with the same label are the same code, two 16-bit
    repeat counts with the same label are the same count, and the code and
    the count can be read back from the label. *)
Theorem inspector_labels_unambiguous
  (direction direction' : byte) (repeat repeat' : Z)
  (Hrepeat : isUint16 repeat) (Hrepeat' : isUint16 repeat') :
  directionOf (getDirectionString direction) = Some (byte.unsigned direction)
  /\ repeatOf (getRepeatString repeat) = Some repeat
  /\ (getDirectionString direction = getDirectionString direction' ->
      direction = direction')
  /\ (getRepeatString repeat = getRepeatString repeat' -> repeat = repeat').
Proof.
  split; [apply directionOf_label|].
  split; [now apply repeatOf_label|]. split.
  - intros H. apply byte.unsigned_inj.
    pose proof (directionOf_label direction) as A.
    pose proof (directionOf_label direction') as B.
    rewrite H in A. congruence.
  - intros H.
    pose proof (repeatOf_label repeat Hrepeat) as A.
    pose proof (repeatOf_label repeat' Hrepeat') as B.
    rewrite H in A. congruence.
Qed.

Lemma inspector_labels_unambiguous_witness :
  directionOf (getDirectionString x07) = Some 7
  /\ repeatOf (getRepeatString 12) = Some 12.
Proof.
  assert (H12 : isUint16 12) by (unfold isUint16; lia).
  destruct (inspector_labels_unambiguous x07 x07 12 12 H12 H12)
    as (A & B & _).
  split; [exact A|exact B].
Defined.
